(** * Scope analysis driver: the Referencer of the scope manager

    A shallow embedding of [packages/scope-manager/src/Referencer.ts].
    The Referencer is the tree walker that opens and closes scopes, records
    bindings and records references.  It is embedded as a state and error
    monad over the scope manager's store; the walker itself is written in
    open recursion (each handler takes the dynamic [this.visit]) and the
    knot is tied by a fuel-indexed [visit]. *)

From stdpp Require Import base list strings.

Set Default Proof Using "Type".
Set Warnings "-register-all".
Open Scope string_scope.
Open Scope list_scope.

(** ** Syntax trees

    Every node of the tree is a JavaScript object; [===] on nodes is object
    identity.  Each node therefore carries [nid], standing for the identity of
    the object.  One constructor per node type that the walker distinguishes;
    [Other] is any node type for which no handler exists. *)

Module TSESTree.

Inductive FunctionType :=
| FunctionDeclaration | FunctionExpression | ArrowFunctionExpression.

Inductive ClassType := ClassDeclaration | ClassExpression.

Inductive ForInType := ForInStatement | ForOfStatement.

Inductive ImportSpecifierType :=
| ImportSpecifier | ImportDefaultSpecifier | ImportNamespaceSpecifier.

Inductive Node :=
| Identifier (nid : nat) (name : string)
| Program (nid : nat) (body : list Node)
| Function (nid : nat) (type : FunctionType) (id : option Node)
           (params : list Node) (body : option Node)
| Class (nid : nat) (type : ClassType) (id : option Node)
        (superClass : option Node) (body : Node)
| BlockStatement (nid : nat) (body : list Node)
| VariableDeclaration (nid : nat) (kind : string) (declarations : list Node)
| VariableDeclarator (nid : nat) (id : Node) (init : option Node)
| AssignmentExpression (nid : nat) (operator : string) (left right : Node)
| AssignmentPattern (nid : nat) (left right : Node)
| ArrayPattern (nid : nat) (elements : list (option Node))
| ObjectPattern (nid : nat) (properties : list Node)
| RestElement (nid : nat) (argument : Node)
| Property (nid : nat) (computed : bool) (key value : Node)
| MethodDefinition (nid : nat) (computed : bool) (key value : Node)
| MemberExpression (nid : nat) (computed : bool) (object property : Node)
| CallExpression (nid : nat) (callee : Node) (arguments : list Node)
| UpdateExpression (nid : nat) (argument : Node)
| ThisExpression (nid : nat)
| CatchClause (nid : nat) (param : option Node) (body : Node)
| ForStatement (nid : nat) (init test update : option Node) (body : Node)
| ForIn (nid : nat) (type : ForInType) (left right body : Node)
| WithStatement (nid : nat) (object body : Node)
| SwitchStatement (nid : nat) (discriminant : Node) (cases : list Node)
| LabeledStatement (nid : nat) (label body : Node)
| BreakStatement (nid : nat) (label : option Node)
| ContinueStatement (nid : nat) (label : option Node)
| MetaProperty (nid : nat) (meta property : Node)
| ImportDeclaration (nid : nat) (specifiers : list Node) (source : Node)
| ImportSpec (nid : nat) (type : ImportSpecifierType)
             (imported : option Node) (local : Node)
| ExportNamedDeclaration (nid : nat) (declaration : option Node)
                         (specifiers : list Node) (source : option Node)
| ExportSpecifier (nid : nat) (local exported : Node)
| Other (nid : nat) (type : string) (children : list Node).

End TSESTree.

Abbreviation Node := TSESTree.Node.

(** The identity of a node object. *)
Definition nid (n : Node) : nat :=
  match n with
  | TSESTree.Identifier i _ | TSESTree.Program i _
  | TSESTree.Function i _ _ _ _ | TSESTree.Class i _ _ _ _
  | TSESTree.BlockStatement i _ | TSESTree.VariableDeclaration i _ _
  | TSESTree.VariableDeclarator i _ _
  | TSESTree.AssignmentExpression i _ _ _ | TSESTree.AssignmentPattern i _ _
  | TSESTree.ArrayPattern i _ | TSESTree.ObjectPattern i _
  | TSESTree.RestElement i _ | TSESTree.Property i _ _ _
  | TSESTree.MethodDefinition i _ _ _ | TSESTree.MemberExpression i _ _ _
  | TSESTree.CallExpression i _ _ | TSESTree.UpdateExpression i _
  | TSESTree.ThisExpression i | TSESTree.CatchClause i _ _
  | TSESTree.ForStatement i _ _ _ _ | TSESTree.ForIn i _ _ _ _
  | TSESTree.WithStatement i _ _ | TSESTree.SwitchStatement i _ _
  | TSESTree.LabeledStatement i _ _ | TSESTree.BreakStatement i _
  | TSESTree.ContinueStatement i _ | TSESTree.MetaProperty i _ _
  | TSESTree.ImportDeclaration i _ _ | TSESTree.ImportSpec i _ _ _
  | TSESTree.ExportNamedDeclaration i _ _ _ | TSESTree.ExportSpecifier i _ _
  | TSESTree.Other i _ _ => i
  end.

(** [a === b] on node objects. *)
Definition same_node (a b : Node) : bool := Nat.eqb (nid a) (nid b).

(** [option] fields hold [null] or a node. *)
Definition opt_nodes (o : option Node) : list Node :=
  match o with Some n => [n] | None => [] end.

(** The child nodes of a node, in the order of the visitor keys of its type
    (the order in which [visitChildren] of the generic visitor walks them);
    [null] children are skipped by that visitor and are left out here. *)
Definition children (n : Node) : list Node :=
  match n with
  | TSESTree.Identifier _ _ => []
  | TSESTree.Program _ body => body
  | TSESTree.Function _ _ id params body =>
      opt_nodes id ++ params ++ opt_nodes body
  | TSESTree.Class _ _ id superClass body =>
      opt_nodes id ++ opt_nodes superClass ++ [body]
  | TSESTree.BlockStatement _ body => body
  | TSESTree.VariableDeclaration _ _ declarations => declarations
  | TSESTree.VariableDeclarator _ id init => id :: opt_nodes init
  | TSESTree.AssignmentExpression _ _ lhs rhs => [lhs; rhs]
  | TSESTree.AssignmentPattern _ lhs rhs => [lhs; rhs]
  | TSESTree.ArrayPattern _ elements => flat_map opt_nodes elements
  | TSESTree.ObjectPattern _ properties => properties
  | TSESTree.RestElement _ argument => [argument]
  | TSESTree.Property _ _ key value => [key; value]
  | TSESTree.MethodDefinition _ _ key value => [key; value]
  | TSESTree.MemberExpression _ _ object property => [object; property]
  | TSESTree.CallExpression _ callee arguments => callee :: arguments
  | TSESTree.UpdateExpression _ argument => [argument]
  | TSESTree.ThisExpression _ => []
  | TSESTree.CatchClause _ param body => opt_nodes param ++ [body]
  | TSESTree.ForStatement _ init test update body =>
      opt_nodes init ++ opt_nodes test ++ opt_nodes update ++ [body]
  | TSESTree.ForIn _ _ lhs rhs body => [lhs; rhs; body]
  | TSESTree.WithStatement _ object body => [object; body]
  | TSESTree.SwitchStatement _ discriminant cases => discriminant :: cases
  | TSESTree.LabeledStatement _ label body => [label; body]
  | TSESTree.BreakStatement _ label => opt_nodes label
  | TSESTree.ContinueStatement _ label => opt_nodes label
  | TSESTree.MetaProperty _ meta property => [meta; property]
  | TSESTree.ImportDeclaration _ specifiers source => specifiers ++ [source]
  | TSESTree.ImportSpec _ _ imported local => opt_nodes imported ++ [local]
  | TSESTree.ExportNamedDeclaration _ declaration specifiers source =>
      opt_nodes declaration ++ specifiers ++ opt_nodes source
  | TSESTree.ExportSpecifier _ local exported => [exported; local]
  | TSESTree.Other _ _ children => children
  end.

(** The identities of all the node objects of a tree, the root first. *)
Fixpoint ids (n : Node) : list nat :=
  let oids (o : option Node) :=
    match o with Some m => ids m | None => [] end in
  nid n ::
  match n with
  | TSESTree.Identifier _ _ => []
  | TSESTree.Program _ body => flat_map ids body
  | TSESTree.Function _ _ id params body =>
      oids id ++ flat_map ids params ++ oids body
  | TSESTree.Class _ _ id superClass body =>
      oids id ++ oids superClass ++ ids body
  | TSESTree.BlockStatement _ body => flat_map ids body
  | TSESTree.VariableDeclaration _ _ declarations => flat_map ids declarations
  | TSESTree.VariableDeclarator _ id init => ids id ++ oids init
  | TSESTree.AssignmentExpression _ _ lhs rhs => ids lhs ++ ids rhs
  | TSESTree.AssignmentPattern _ lhs rhs => ids lhs ++ ids rhs
  | TSESTree.ArrayPattern _ elements => flat_map oids elements
  | TSESTree.ObjectPattern _ properties => flat_map ids properties
  | TSESTree.RestElement _ argument => ids argument
  | TSESTree.Property _ _ key value => ids key ++ ids value
  | TSESTree.MethodDefinition _ _ key value => ids key ++ ids value
  | TSESTree.MemberExpression _ _ object property => ids object ++ ids property
  | TSESTree.CallExpression _ callee arguments =>
      ids callee ++ flat_map ids arguments
  | TSESTree.UpdateExpression _ argument => ids argument
  | TSESTree.ThisExpression _ => []
  | TSESTree.CatchClause _ param body => oids param ++ ids body
  | TSESTree.ForStatement _ init test update body =>
      oids init ++ oids test ++ oids update ++ ids body
  | TSESTree.ForIn _ _ lhs rhs body => ids lhs ++ ids rhs ++ ids body
  | TSESTree.WithStatement _ object body => ids object ++ ids body
  | TSESTree.SwitchStatement _ discriminant cases =>
      ids discriminant ++ flat_map ids cases
  | TSESTree.LabeledStatement _ label body => ids label ++ ids body
  | TSESTree.BreakStatement _ label => oids label
  | TSESTree.ContinueStatement _ label => oids label
  | TSESTree.MetaProperty _ meta property => ids meta ++ ids property
  | TSESTree.ImportDeclaration _ specifiers source =>
      flat_map ids specifiers ++ ids source
  | TSESTree.ImportSpec _ _ imported local => oids imported ++ ids local
  | TSESTree.ExportNamedDeclaration _ declaration specifiers source =>
      oids declaration ++ flat_map ids specifiers ++ oids source
  | TSESTree.ExportSpecifier _ local exported => ids exported ++ ids local
  | TSESTree.Other _ _ children => flat_map ids children
  end.

(** A tree is well formed when no object occurs twice in it. *)
Definition distinct_nodes (n : Node) : Prop := NoDup (ids n).

(** ** Bindings and references

    [Definition.ts], [Reference.ts] and [VariableType.ts] are plain records;
    their fields are read off the constructor calls of the Referencer and
    section 3 of the specification. *)

Module VariableType.
Inductive t :=
| Variable_ | Parameter_ | FunctionName | ClassName | ImportBinding
| CatchClause.
End VariableType.

(** Modelled from the spec: the [Definition] record ([Definition.ts] is not
    part of the sources at hand).  "kind, the bound name-node, the syntactic
    node that introduces the binding, the enclosing declaring statement
    (nullable), an index, and a declaration qualifier".  [rest] is the extra
    field of [ParameterDefinition]. *)
Module Definition_.
Record t := mk {
  type : VariableType.t;
  name : Node;
  node : Node;
  parent : option Node;
  index : option nat;
  kind : option string;
  rest : bool
}.
End Definition_.

(** [new Definition(type, name, node, parent, index, kind)] *)
Definition new_Definition (type : VariableType.t) (name node : Node)
    (parent : option Node) (index : option nat) (kind : option string)
  : Definition_.t :=
  Definition_.mk type name node parent index kind false.

(** [new ParameterDefinition(name, node, index, rest)] *)
Definition new_ParameterDefinition (name node : Node) (index : nat)
    (rest : bool) : Definition_.t :=
  Definition_.mk VariableType.Parameter_ name node None (Some index) None rest.

Module ReferenceFlag.
Inductive t := READ | WRITE | RW.
End ReferenceFlag.

(** [{ pattern, node }] *)
Record ReferenceImplicitGlobal := {
  rig_pattern : Node;
  rig_node : Node
}.

(** Modelled from the spec: the [Reference] record ([Reference.ts] is not
    part of the sources at hand): the name-node, the read/write flag, the
    write-source expression, the implicit-global candidate, the partial flag
    and the init flag, in the argument order of [__referencing]. *)
Module Reference.
Record t := mk {
  identifier : Node;
  flag : ReferenceFlag.t;
  writeExpr : option Node;
  maybeImplicitGlobal : option ReferenceImplicitGlobal;
  partial : bool;
  init : bool
}.
End Reference.

(** ** Scopes and the scope manager *)

Inductive ScopeType :=
| GlobalScope | ModuleScope | FunctionScope | FunctionExpressionNameScope
| BlockScope | SwitchScope | CatchScope | WithScope | ClassScope | ForScope.

(** Modelled from the spec: the [Scope] object ([scope/*.ts] is not part of
    the sources at hand), section 3.  Scopes live in the manager's store and
    are referred to by their position in it (the order of creation), so that
    a scope captured in a variable ([variableTargetScope]) stays the same
    object whatever is nested or closed afterwards.  [definitions] is the
    sequence of bindings in the order of the [__define] calls and [names] the
    name nodes under which they were registered, in the same order (the
    variables of the scope are these bindings grouped by name); [references]
    is the sequence of references in the order of the [__referencing] calls;
    [dynamic] and [thisFound] are the marks left by [__detectEval] and
    [__detectThis]; [closed] is set by [__close]. *)
Module Scope.
Record t := mk {
  type : ScopeType;
  block : Node;
  upper : option nat;
  variableScope : nat;
  isStrict : bool;
  names : list Node;
  definitions : list Definition_.t;
  references : list Reference.t;
  dynamic : bool;
  thisFound : bool;
  closed : bool
}.

Definition set_isStrict (b : bool) (s : t) : t :=
  mk (type s) (block s) (upper s) (variableScope s) b (names s)
     (definitions s)
     (references s) (dynamic s) (thisFound s) (closed s).

(** [scope.__define(node, def)] *)
Definition __define (node : Node) (d : Definition_.t) (s : t) : t :=
  mk (type s) (block s) (upper s) (variableScope s) (isStrict s)
     (names s ++ [node]) (definitions s ++ [d]) (references s) (dynamic s) (thisFound s)
     (closed s).

(** [scope.__referencing(node, assign, writeExpr, maybeImplicitGlobal,
    partial, init)] *)
Definition __referencing (r : Reference.t) (s : t) : t :=
  mk (type s) (block s) (upper s) (variableScope s) (isStrict s)
     (names s) (definitions s) (references s ++ [r]) (dynamic s) (thisFound s)
     (closed s).

Definition __detectEval (s : t) : t :=
  mk (type s) (block s) (upper s) (variableScope s) (isStrict s)
     (names s) (definitions s) (references s) true (thisFound s) (closed s).

Definition __detectThis (s : t) : t :=
  mk (type s) (block s) (upper s) (variableScope s) (isStrict s)
     (names s) (definitions s) (references s) (dynamic s) true (closed s).

(** [scope.__close(scopeManager)]: the scope becomes read-only; the
    resolution of its references is not part of this development. *)
Definition __close (s : t) : t :=
  mk (type s) (block s) (upper s) (variableScope s) (isStrict s)
     (names s) (definitions s) (references s) (dynamic s) (thisFound s) true.
End Scope.

(** The answers of the manager's flag accessors, fixed at construction. *)
Record Options := {
  __isES6 : bool;
  isModule : bool;
  isStrictModeSupported : bool;
  isImpliedStrict : bool;
  __isNodejsScope : bool;
  __ignoreEval : bool
}.

Record ScopeManager := {
  options : Options;
  scopes : list Scope.t;
  __currentScope : option nat
}.

Record Referencer := {
  scopeManager : ScopeManager;
  isInnerMethodDefinition : bool
}.

(** [this.scopeManager.__currentScope] and [this.scopeManager.scopes]: the
    handle of the current scope and the store of scope objects, and their
    assignment. *)
Definition cur (r : Referencer) : option nat :=
  __currentScope (scopeManager r).

Definition store (r : Referencer) : list Scope.t :=
  scopes (scopeManager r).

Definition set_cur (c : option nat) (r : Referencer) : Referencer :=
  {| scopeManager := {| options := options (scopeManager r);
                        scopes := store r;
                        __currentScope := c |};
     isInnerMethodDefinition := isInnerMethodDefinition r |}.

Definition set_store (s : list Scope.t) (r : Referencer) : Referencer :=
  {| scopeManager := {| options := options (scopeManager r);
                        scopes := s;
                        __currentScope := cur r |};
     isInnerMethodDefinition := isInnerMethodDefinition r |}.

(** Strictness of a scope at its creation.  The inference (directives,
    strictness of the upper scope, method bodies) belongs to the [Scope]
    constructors, which are not part of the sources at hand; it is a
    parameter of the whole development.  Arguments: the scope type, the
    block, [isMethodDefinition], and the upper scope. *)
Class StrictnessInference :=
  isStrictScope : ScopeType -> Node -> bool -> option Scope.t -> bool.

(** ** The monad of the walker: state of the Referencer, and exceptions *)

Inductive Error :=
| AssertionError (message : string)
| TypeError (message : string)
| OutOfFuel.

Inductive Result (A : Type) :=
| Ok (a : A) (r : Referencer)
| Throw (e : Error).
Arguments Ok {A} a r.
Arguments Throw {A} e.

Definition M (A : Type) : Type := Referencer -> Result A.

Definition ret {A} (a : A) : M A := fun r => Ok a r.

Definition bind {A B} (m : M A) (k : A -> M B) : M B :=
  fun r => match m r with
           | Ok a r' => k a r'
           | Throw e => Throw e
           end.

Definition throw {A} (e : Error) : M A := fun _ => Throw e.

Declare Scope ref_scope.
Delimit Scope ref_scope with ref.
Notation "'let*' x ':=' m 'in' k" := (bind m (fun x => k))
  (at level 10, x name, m at level 100, k at level 200) : ref_scope.
Notation "m1 ';;' m2" := (bind m1 (fun _ => m2))
  (at level 100, m2 at level 200, right associativity) : ref_scope.
Open Scope ref_scope.

(** [assert(c, message)] *)
Definition assert (c : bool) (message : string) : M unit :=
  if c then ret tt else throw (AssertionError message).

(** [xs.forEach(f)] and the [for (i = 0; i < xs.length; ++i)] loops. *)
Fixpoint forEach {A} (f : A -> M unit) (xs : list A) : M unit :=
  match xs with
  | [] => ret tt
  | x :: xs => f x ;; forEach f xs
  end.

(** The same loop with the running index. *)
Fixpoint forEachIndexed {A} (f : nat -> A -> M unit) (i : nat) (xs : list A)
  : M unit :=
  match xs with
  | [] => ret tt
  | x :: xs => f i x ;; forEachIndexed f (S i) xs
  end.

(** ** Operations of the scope manager and of scopes *)

Definition getOptions : M Options :=
  fun r => Ok (options (scopeManager r)) r.

(** [this.currentScope()] *)
Definition currentScope : M (option nat) :=
  fun r => Ok (cur r) r.

(** [this.currentScope(true)]: asserts that a scope is open. *)
Definition currentScope_throw : M nat :=
  let* c := currentScope in
  match c with
  | Some h => ret h
  | None => throw (AssertionError "this.scopeManager.__currentScope")
  end.

(** [this.scopeManager.__currentScope = c] *)
Definition set__currentScope (c : option nat) : M unit :=
  fun r => Ok tt (set_cur c r).

(** Reading the scope object behind a handle. *)
Definition getScope (h : nat) : M Scope.t :=
  fun r =>
    match store r !! h with
    | Some sc => Ok sc r
    | None => Throw (TypeError "no such scope")
    end.

(** Mutating the scope object behind a handle. *)
Definition updateScope (h : nat) (f : Scope.t -> Scope.t) : M unit :=
  fun r =>
    match store r !! h with
    | Some sc => Ok tt (set_store (<[h := f sc]> (store r)) r)
    | None => Throw (TypeError "no such scope")
    end.

Definition __define (h : nat) (node : Node) (d : Definition_.t) : M unit :=
  updateScope h (Scope.__define node d).

Definition __referencing (h : nat) (r : Reference.t) : M unit :=
  updateScope h (Scope.__referencing r).

Definition isVariableScope (t : ScopeType) : bool :=
  match t with
  | GlobalScope | ModuleScope | FunctionScope => true
  | _ => false
  end.

(** Modelled from the spec: nesting a scope ([ScopeManager.ts] is not part of
    the sources at hand), section 4.1: "pushes and returns a new Scope whose
    upper is the current scope, wired into variableScope per rule:
    Function/Global/Module scopes set variableScope = self; all others
    inherit their parent's variableScope".  A scope that has to inherit and
    has no parent reads a property of [null].  [defs] are the bindings that
    the scope holds from its creation. *)
Definition __nestScope `{StrictnessInference} (type : ScopeType) (block : Node)
    (isMethodDefinition : bool) (defs : list Definition_.t) : M unit :=
  fun r =>
    let self := length (store r) in
    let upperScope := cur r ≫= (fun h => store r !! h) in
    match (if isVariableScope type then Some self
           else Scope.variableScope <$> upperScope) with
    | None => Throw (TypeError "Cannot read property 'variableScope' of null")
    | Some vs =>
        let sc :=
          Scope.mk type block (cur r) vs
                   (isStrictScope type block isMethodDefinition upperScope)
                   (map Definition_.name defs) defs [] false false false in
        Ok tt (set_cur (Some self) (set_store (store r ++ [sc]) r))
    end.

Section Nesting.
Context `{StrictnessInference}.

Definition __nestGlobalScope (node : Node) : M unit :=
  __nestScope GlobalScope node false [].

Definition __nestModuleScope (node : Node) : M unit :=
  __nestScope ModuleScope node false [].

Definition __nestFunctionScope (node : Node) (isMethodDefinition : bool)
  : M unit :=
  __nestScope FunctionScope node isMethodDefinition [].

(** Modelled from the spec: "nest a FunctionExpressionName scope binding
    the name to itself", "whose sole variable is the function's own
    name". *)
Definition __nestFunctionExpressionNameScope (node : Node) : M unit :=
  __nestScope FunctionExpressionNameScope node false
    match node with
    | TSESTree.Function _ _ (Some id) _ _ =>
        [new_Definition VariableType.FunctionName id node None None None]
    | _ => []
    end.

Definition __nestBlockScope (node : Node) : M unit :=
  __nestScope BlockScope node false [].

Definition __nestSwitchScope (node : Node) : M unit :=
  __nestScope SwitchScope node false [].

Definition __nestCatchScope (node : Node) : M unit :=
  __nestScope CatchScope node false [].

Definition __nestWithScope (node : Node) : M unit :=
  __nestScope WithScope node false [].

Definition __nestClassScope (node : Node) : M unit :=
  __nestScope ClassScope node false [].

Definition __nestForScope (node : Node) : M unit :=
  __nestScope ForScope node false [].
End Nesting.

(** Modelled from the spec: [scope.__close(scopeManager)] closes the scope
    and yields its upper scope, which the Referencer makes current (section 3:
    "closing order is strictly the reverse of opening order"). *)
Definition Scope___close (h : nat) : M (option nat) :=
  let* sc := getScope h in
  updateScope h Scope.__close ;;
  ret (Scope.upper sc).

(** ** The pattern decomposer *)

Module PatternVisitor.

Record Options := { processRightHandNodes : bool }.

(** The [info] argument of the callback, as the Referencer reads it. *)
Record Info := {
  topLevel : bool;
  rest : bool;
  assignments : list Node
}.

(** Modelled from the spec: [PatternVisitor.isPattern] ([PatternVisitor.ts]
    is not part of the sources at hand): a name or a destructuring
    pattern (object, array, rest element, pattern with a default). *)
Definition isPattern (node : Node) : bool :=
  match node with
  | TSESTree.Identifier _ _ | TSESTree.ObjectPattern _ _
  | TSESTree.ArrayPattern _ _ | TSESTree.RestElement _ _
  | TSESTree.AssignmentPattern _ _ _ => true
  | _ => false
  end.

(** Modelled from the spec: the decomposition of a pattern, section 4.4:
    "invoke the callback once per leaf bound/target name in left-to-right,
    outer-to-inner order; collect, separately, every default-value and
    computed-key sub-expression requiring ordinary (non-pattern)
    visiting".  The result is the sequence of callback invocations (leaf
    and [info]) and the right-hand nodes in the order of collection.
    [assignments] are the enclosing patterns with a default, the outermost
    first; [rest] tells whether the leaf is the argument of the innermost
    enclosing rest element; [topLevel] whether the leaf is the root
    pattern itself.  A member access as a target is no leaf: its object
    (and its computed property) are right-hand nodes.  Node types that are
    no patterns contribute nothing. *)
Fixpoint visit (rootPattern : Node) (assignments restElements : list Node)
    (node : Node) {struct node} : list (Node * Info) * list Node :=
  match node with
  | TSESTree.Identifier _ _ =>
      ([(node,
         {| topLevel := same_node node rootPattern;
            rest := match last restElements with
                    | Some (TSESTree.RestElement _ argument) =>
                        same_node argument node
                    | _ => false
                    end;
            assignments := assignments |})], [])
  | TSESTree.Property _ computed key value =>
      let '(leaves, rhs) :=
        visit rootPattern assignments restElements value in
      (leaves, (if computed then [key] else []) ++ rhs)
  | TSESTree.ArrayPattern _ elements =>
      let rs :=
        map (fun o : option Node =>
               match o with
               | Some e => visit rootPattern assignments restElements e
               | None => ([], [])
               end) elements in
      (concat (map fst rs), concat (map snd rs))
  | TSESTree.ObjectPattern _ properties =>
      let rs := map (visit rootPattern assignments restElements)
                    properties in
      (concat (map fst rs), concat (map snd rs))
  | TSESTree.AssignmentPattern _ lhs rhs =>
      let '(leaves, rhss) :=
        visit rootPattern (assignments ++ [node]) restElements lhs in
      (leaves, rhss ++ [rhs])
  | TSESTree.RestElement _ argument =>
      visit rootPattern assignments (restElements ++ [node]) argument
  | TSESTree.MemberExpression _ computed object property =>
      ([], (if computed then [property] else []) ++ [object])
  | _ => ([], [])
  end.

(** The leaves of a pattern, as the callback receives them. *)
Definition leaves (rootPattern : Node) : list (Node * Info) :=
  fst (visit rootPattern [] [] rootPattern).

Definition rightHandNodes (rootPattern : Node) : list Node :=
  snd (visit rootPattern [] [] rootPattern).

End PatternVisitor.

Abbreviation PatternVisitorCallback := (Node -> PatternVisitor.Info -> M unit).

(** [traverseIdentifierInPattern(options, rootPattern, referencer, callback)]:
    the callback runs at each leaf, then the right-hand nodes are handed to
    the Referencer, if one is given. *)
Definition traverseIdentifierInPattern (rootPattern : Node)
    (referencer : option (Node -> M unit))
    (callback : PatternVisitorCallback) : M unit :=
  forEach (fun '(pattern, info) => callback pattern info)
          (PatternVisitor.leaves rootPattern) ;;
  match referencer with
  | Some visit => forEach visit (PatternVisitor.rightHandNodes rootPattern)
  | None => ret tt
  end.

(** ** The Referencer

    The methods of the class, in the order of the source.  [this.visit] is
    dynamic dispatch on the node type: the handlers take it as the section
    variable [visit]; [dispatch] and the fuel-indexed [visit] below close
    the recursion. *)

(** [assignment.left] and [assignment.right] of an element of
    [info.assignments]. *)
Definition assignment_left (assignment : Node) : option Node :=
  match assignment with
  | TSESTree.AssignmentPattern _ lhs _
  | TSESTree.AssignmentExpression _ _ lhs _ => Some lhs
  | _ => None
  end.

Definition assignment_right (assignment : Node) : option Node :=
  match assignment with
  | TSESTree.AssignmentPattern _ _ rhs
  | TSESTree.AssignmentExpression _ _ _ rhs => Some rhs
  | _ => None
  end.

(** [close(node)], lines 120-126.  The loop follows the upper scopes; every
    upper scope was created before the scope it encloses, so the number of
    scopes in the store bounds the iterations. *)
Fixpoint close_loop (fuel : nat) (node : Node) : M unit :=
  match fuel with
  | 0 => throw OutOfFuel
  | S fuel =>
      let* c := currentScope in
      match c with
      | None => ret tt
      | Some h =>
          let* sc := getScope h in
          if same_node node (Scope.block sc) then
            (let* up := Scope___close h in set__currentScope up) ;;
            close_loop fuel node
          else ret tt
      end
  end.

Definition close (node : Node) : M unit :=
  fun r => close_loop (S (length (scopes (scopeManager r)))) node r.

(** [this.isInnerMethodDefinition] *)
Definition get_isInnerMethodDefinition : M bool :=
  fun r => Ok (isInnerMethodDefinition r) r.

(** [pushInnerMethodDefinition], [popInnerMethodDefinition], lines 128-137 *)
Definition pushInnerMethodDefinition (isInnerMethodDefinition' : bool)
  : M bool :=
  fun r =>
    Ok (isInnerMethodDefinition r)
       {| scopeManager := scopeManager r;
          isInnerMethodDefinition := isInnerMethodDefinition' |}.

Definition popInnerMethodDefinition (isInnerMethodDefinition' : option bool)
  : M unit :=
  fun r =>
    Ok tt {| scopeManager := scopeManager r;
             isInnerMethodDefinition :=
               match isInnerMethodDefinition' with
               | Some b => b
               | None => false
               end |}.

(** [referencingDefaultValue], lines 139-155 *)
Definition referencingDefaultValue (pattern : Node) (assignments : list Node)
    (maybeImplicitGlobal : option ReferenceImplicitGlobal) (init : bool)
  : M unit :=
  forEach
    (fun assignment =>
       let* c := currentScope_throw in
       __referencing c
         (Reference.mk pattern ReferenceFlag.WRITE
            (assignment_right assignment) maybeImplicitGlobal
            (match assignment_left assignment with
             | Some lhs => negb (same_node pattern lhs)
             | None => true
             end)
            init))
    assignments.

Section Handlers.
Context `{StrictnessInference}.

(** [this.visit], and the [visit] of an [Importer]. *)
Variable visit : Node -> M unit.
Variable Importer_visit : Node -> Node -> M unit.

(** [this.visit(node)] where [node] may be [null]. *)
Definition visit_opt (o : option Node) : M unit :=
  match o with
  | Some node => visit node
  | None => ret tt
  end.

(** [this.visitChildren(node)] of the generic visitor. *)
Definition visitChildren (node : Node) : M unit :=
  forEach visit (children node).

(** [visitPattern], lines 157-186 *)
Definition visitPattern (node : Node) (opts : PatternVisitor.Options)
    (callback : PatternVisitorCallback) : M unit :=
  traverseIdentifierInPattern node
    (if PatternVisitor.processRightHandNodes opts then Some visit else None)
    callback.

(** The overload [visitPattern(node, callback)]. *)
Definition visitPattern_callback (node : Node)
    (callback : PatternVisitorCallback) : M unit :=
  visitPattern node {| PatternVisitor.processRightHandNodes := false |}
               callback.

(** [visitFunction], lines 188-251 *)
Definition visitFunction (node : Node) : M unit :=
  match node with
  | TSESTree.Function _ type id params body =>
      match type, id with
      | TSESTree.FunctionDeclaration, Some id =>
          let* c := currentScope_throw in
          __define c id
            (new_Definition VariableType.FunctionName id node
                            None None None)
      | _, _ => ret tt
      end ;;
      match type, id with
      | TSESTree.FunctionExpression, Some _ =>
          __nestFunctionExpressionNameScope node
      | _, _ => ret tt
      end ;;
      (let* inner := get_isInnerMethodDefinition in
       __nestFunctionScope node inner) ;;
      forEachIndexed
        (fun i param =>
           visitPattern param
             {| PatternVisitor.processRightHandNodes := true |}
             (fun pattern info =>
                (let* c := currentScope_throw in
                 __define c pattern
                   (new_ParameterDefinition pattern node i
                      (PatternVisitor.rest info))) ;;
                referencingDefaultValue pattern
                  (PatternVisitor.assignments info) None true))
        0 params ;;
      match body with
      | Some b =>
          match b with
          | TSESTree.BlockStatement _ _ => visitChildren b
          | _ => visit b
          end
      | None => ret tt
      end ;;
      close node
  | _ => throw (TypeError "visitFunction: not a function")
  end.

(** [visitClass], lines 253-274 *)
Definition visitClass (node : Node) : M unit :=
  match node with
  | TSESTree.Class _ type id superClass body =>
      match type, id with
      | TSESTree.ClassDeclaration, Some id =>
          let* c := currentScope_throw in
          __define c id
            (new_Definition VariableType.ClassName id node None None None)
      | _, _ => ret tt
      end ;;
      visit_opt superClass ;;
      __nestClassScope node ;;
      match id with
      | Some id =>
          let* c := currentScope_throw in
          __define c id
            (new_Definition VariableType.ClassName id node None None None)
      | None => ret tt
      end ;;
      visit body ;;
      close node
  | _ => throw (TypeError "visitClass: not a class")
  end.

(** [visitProperty], lines 276-297 *)
Definition visitProperty (node : Node) : M unit :=
  match node with
  | TSESTree.Property _ computed key value =>
      (if computed then visit key else ret tt) ;;
      visit value
  | TSESTree.MethodDefinition _ computed key value =>
      (if computed then visit key else ret tt) ;;
      let* previous := pushInnerMethodDefinition true in
      visit value ;;
      popInnerMethodDefinition (Some previous)
  | _ => throw (TypeError "visitProperty: not a property")
  end.

(** [visitForIn], lines 299-353 *)
Definition visitForIn (node : Node) : M unit :=
  match node with
  | TSESTree.ForIn _ _ lhs rhs body =>
      match lhs with
      | TSESTree.VariableDeclaration _ kind _ =>
          if negb (String.eqb kind "var") then __nestForScope node
          else ret tt
      | _ => ret tt
      end ;;
      match lhs with
      | TSESTree.VariableDeclaration _ _ declarations =>
          visit lhs ;;
          match declarations with
          | TSESTree.VariableDeclarator _ id _ :: _ =>
              visitPattern_callback id
                (fun pattern _ =>
                   let* c := currentScope_throw in
                   __referencing c
                     (Reference.mk pattern ReferenceFlag.WRITE (Some rhs)
                                   None true true))
          | _ => throw (TypeError "Cannot read property 'id' of undefined")
          end
      | _ =>
          visitPattern lhs
            {| PatternVisitor.processRightHandNodes := true |}
            (fun pattern info =>
               let* c := currentScope_throw in
               let* sc := getScope c in
               let maybeImplicitGlobal :=
                 if negb (Scope.isStrict sc)
                 then Some {| rig_pattern := pattern; rig_node := node |}
                 else None in
               referencingDefaultValue pattern
                 (PatternVisitor.assignments info) maybeImplicitGlobal
                 false ;;
               let* c := currentScope_throw in
               __referencing c
                 (Reference.mk pattern ReferenceFlag.WRITE (Some rhs)
                               maybeImplicitGlobal true false))
      end ;;
      visit rhs ;;
      visit body ;;
      close node
  | _ => throw (TypeError "visitForIn: not a for-in or for-of statement")
  end.

(** [visitVariableDeclaration], lines 355-386 *)
Definition visitVariableDeclaration (variableTargetScope : nat)
    (type : VariableType.t) (node : Node) (index : nat) : M unit :=
  match node with
  | TSESTree.VariableDeclaration _ kind declarations =>
      match declarations !! index with
      | Some (TSESTree.VariableDeclarator _ id init as decl) =>
          visitPattern id
            {| PatternVisitor.processRightHandNodes := true |}
            (fun pattern info =>
               __define variableTargetScope pattern
                 (new_Definition type pattern decl (Some node)
                                 (Some index) (Some kind)) ;;
               referencingDefaultValue pattern
                 (PatternVisitor.assignments info) None true ;;
               match init with
               | Some init =>
                   let* c := currentScope_throw in
                   __referencing c
                     (Reference.mk pattern ReferenceFlag.WRITE (Some init)
                        None (negb (PatternVisitor.topLevel info)) true)
               | None => ret tt
               end)
      | _ => throw (TypeError "Cannot read property 'init' of undefined")
      end
  | _ => throw (TypeError "not a variable declaration")
  end.

(** [AssignmentExpression], lines 388-430 *)
Definition AssignmentExpression (node : Node) : M unit :=
  match node with
  | TSESTree.AssignmentExpression _ operator lhs rhs =>
      (if PatternVisitor.isPattern lhs then
         if String.eqb operator "=" then
           visitPattern lhs
             {| PatternVisitor.processRightHandNodes := true |}
             (fun pattern info =>
                let* c := currentScope_throw in
                let* sc := getScope c in
                let maybeImplicitGlobal :=
                  if negb (Scope.isStrict sc)
                  then Some {| rig_pattern := pattern; rig_node := node |}
                  else None in
                referencingDefaultValue pattern
                  (PatternVisitor.assignments info) maybeImplicitGlobal
                  false ;;
                let* c := currentScope_throw in
                __referencing c
                  (Reference.mk pattern ReferenceFlag.WRITE (Some rhs)
                     maybeImplicitGlobal
                     (negb (PatternVisitor.topLevel info)) false))
         else
           let* c := currentScope_throw in
           __referencing c
             (Reference.mk lhs ReferenceFlag.RW (Some rhs) None false false)
       else visit lhs) ;;
      visit rhs
  | _ => throw (TypeError "not an assignment expression")
  end.

(** [CatchClause], lines 432-459 *)
Definition CatchClause (node : Node) : M unit :=
  match node with
  | TSESTree.CatchClause _ param body =>
      __nestCatchScope node ;;
      match param with
      | Some param =>
          visitPattern param
            {| PatternVisitor.processRightHandNodes := true |}
            (fun pattern info =>
               (let* c := currentScope_throw in
                __define c pattern
                  (new_Definition VariableType.CatchClause param node
                                  None None None)) ;;
               referencingDefaultValue pattern
                 (PatternVisitor.assignments info) None true)
      | None => ret tt
      end ;;
      visit body ;;
      close node
  | _ => throw (TypeError "not a catch clause")
  end.

(** The scopes that [Program] opens before it walks the body,
    lines 462-479. *)
Definition Program_scopes (node : Node) : M unit :=
  let* opts := getOptions in
  __nestGlobalScope node ;;
  (if __isNodejsScope opts then
     (let* c := currentScope_throw in
      updateScope c (Scope.set_isStrict false)) ;;
     __nestFunctionScope node false
   else ret tt) ;;
  (if __isES6 opts && isModule opts then __nestModuleScope node
   else ret tt) ;;
  (if isStrictModeSupported opts && isImpliedStrict opts then
     let* c := currentScope_throw in
     updateScope c (Scope.set_isStrict true)
   else ret tt).

(** [Program], lines 461-483 *)
Definition Program (node : Node) : M unit :=
  Program_scopes node ;;
  visitChildren node ;;
  close node.

(** [Identifier], lines 485-487 *)
Definition Identifier (node : Node) : M unit :=
  let* c := currentScope_throw in
  __referencing c
    (Reference.mk node ReferenceFlag.READ None None false false).

(** [UpdateExpression], lines 489-499 *)
Definition UpdateExpression (node : Node) : M unit :=
  match node with
  | TSESTree.UpdateExpression _ argument =>
      if PatternVisitor.isPattern argument then
        let* c := currentScope_throw in
        __referencing c
          (Reference.mk argument ReferenceFlag.RW None None false false)
      else visitChildren node
  | _ => throw (TypeError "not an update expression")
  end.

(** [MemberExpression], lines 501-506 *)
Definition MemberExpression (node : Node) : M unit :=
  match node with
  | TSESTree.MemberExpression _ computed object property =>
      visit object ;;
      if computed then visit property else ret tt
  | _ => throw (TypeError "not a member expression")
  end.

(** [LabeledStatement], lines 520-522 *)
Definition LabeledStatement (node : Node) : M unit :=
  match node with
  | TSESTree.LabeledStatement _ _ body => visit body
  | _ => throw (TypeError "not a labeled statement")
  end.

(** [ForStatement], lines 524-540 *)
Definition ForStatement (node : Node) : M unit :=
  match node with
  | TSESTree.ForStatement _ init _ _ _ =>
      match init with
      | Some (TSESTree.VariableDeclaration _ kind _) =>
          if negb (String.eqb kind "var") then __nestForScope node
          else ret tt
      | _ => ret tt
      end ;;
      visitChildren node ;;
      close node
  | _ => throw (TypeError "not a for statement")
  end.

(** [CallExpression], lines 550-562 *)
Definition CallExpression (node : Node) : M unit :=
  match node with
  | TSESTree.CallExpression _ callee _ =>
      let* opts := getOptions in
      (if negb (__ignoreEval opts)
          && match callee with
             | TSESTree.Identifier _ name => String.eqb name "eval"
             | _ => false
             end
       then
         let* c := currentScope_throw in
         let* sc := getScope c in
         updateScope (Scope.variableScope sc) Scope.__detectEval
       else ret tt) ;;
      visitChildren node
  | _ => throw (TypeError "not a call expression")
  end.

(** [BlockStatement], lines 564-572 *)
Definition BlockStatement (node : Node) : M unit :=
  let* opts := getOptions in
  (if __isES6 opts then __nestBlockScope node else ret tt) ;;
  visitChildren node ;;
  close node.

(** [ThisExpression], lines 574-576 *)
Definition ThisExpression : M unit :=
  let* c := currentScope_throw in
  let* sc := getScope c in
  updateScope (Scope.variableScope sc) Scope.__detectThis.

(** [WithStatement], lines 578-587 *)
Definition WithStatement (node : Node) : M unit :=
  match node with
  | TSESTree.WithStatement _ object body =>
      visit object ;;
      __nestWithScope node ;;
      visit body ;;
      close node
  | _ => throw (TypeError "not a with statement")
  end.

(** [VariableDeclaration], lines 589-608 *)
Definition VariableDeclaration (node : Node) : M unit :=
  match node with
  | TSESTree.VariableDeclaration _ kind declarations =>
      let* c := currentScope_throw in
      let* variableTargetScope :=
        if String.eqb kind "var"
        then let* sc := getScope c in ret (Scope.variableScope sc)
        else ret c in
      forEachIndexed
        (fun i decl =>
           visitVariableDeclaration variableTargetScope
             VariableType.Variable_ node i ;;
           match decl with
           | TSESTree.VariableDeclarator _ _ (Some init) => visit init
           | _ => ret tt
           end)
        0 declarations
  | _ => throw (TypeError "not a variable declaration")
  end.

(** [SwitchStatement], lines 611-623 *)
Definition SwitchStatement (node : Node) : M unit :=
  match node with
  | TSESTree.SwitchStatement _ discriminant cases =>
      visit discriminant ;;
      (let* opts := getOptions in
       if __isES6 opts then __nestSwitchScope node else ret tt) ;;
      forEach visit cases ;;
      close node
  | _ => throw (TypeError "not a switch statement")
  end.

(** [ImportDeclaration], lines 645-654 *)
Definition ImportDeclaration (node : Node) : M unit :=
  let* opts := getOptions in
  assert (__isES6 opts && isModule opts)
    "ImportDeclaration should appear when the mode is ES6 and in the module context." ;;
  Importer_visit node node.

(** [visitExportDeclaration], lines 656-668 *)
Definition visitExportDeclaration (node : Node) : M unit :=
  match node with
  | TSESTree.ExportNamedDeclaration _ declaration _ source =>
      match source, declaration with
      | Some _, _ => ret tt
      | None, Some declaration => visit declaration
      | None, None => visitChildren node
      end
  | _ => throw (TypeError "not an export declaration")
  end.

(** [ExportSpecifier], lines 678-682 *)
Definition ExportSpecifier (node : Node) : M unit :=
  match node with
  | TSESTree.ExportSpecifier _ local _ => visit local
  | _ => throw (TypeError "not an export specifier")
  end.

(** [Importer.visitImport], lines 55-77; the specifier handlers of the
    [Importer], lines 79-92, all call it with [node.local]. *)
Definition Importer_visitImport (declaration id specifier : Node)
  : M unit :=
  visitPattern_callback id
    (fun pattern _ =>
       let* c := currentScope_throw in
       __define c pattern
         (new_Definition VariableType.ImportBinding pattern specifier
                         (Some declaration) None None)).

(** The dispatch of an [Importer] on the node type; node types without a
    handler have their children walked. *)
Definition Importer_dispatch (declaration node : Node) : M unit :=
  match node with
  | TSESTree.ImportSpec _ _ _ local =>
      Importer_visitImport declaration local node
  | _ => forEach (Importer_visit declaration) (children node)
  end.

(** The dispatch of the Referencer on the node type (the generic visitor
    calls the method named after [node.type], and walks the children of
    a node whose type has no method). *)
Definition dispatch (node : Node) : M unit :=
  match node with
  | TSESTree.AssignmentExpression _ _ _ _ => AssignmentExpression node
  | TSESTree.CatchClause _ _ _ => CatchClause node
  | TSESTree.Program _ _ => Program node
  | TSESTree.Identifier _ _ => Identifier node
  | TSESTree.UpdateExpression _ _ => UpdateExpression node
  | TSESTree.MemberExpression _ _ _ _ => MemberExpression node
  | TSESTree.Property _ _ _ _ => visitProperty node
  | TSESTree.MethodDefinition _ _ _ _ => visitProperty node
  | TSESTree.BreakStatement _ _ => ret tt
  | TSESTree.ContinueStatement _ _ => ret tt
  | TSESTree.LabeledStatement _ _ _ => LabeledStatement node
  | TSESTree.ForStatement _ _ _ _ _ => ForStatement node
  | TSESTree.Class _ _ _ _ _ => visitClass node
  | TSESTree.CallExpression _ _ _ => CallExpression node
  | TSESTree.BlockStatement _ _ => BlockStatement node
  | TSESTree.ThisExpression _ => ThisExpression
  | TSESTree.WithStatement _ _ _ => WithStatement node
  | TSESTree.VariableDeclaration _ _ _ => VariableDeclaration node
  | TSESTree.SwitchStatement _ _ _ => SwitchStatement node
  | TSESTree.Function _ _ _ _ _ => visitFunction node
  | TSESTree.ForIn _ _ _ _ _ => visitForIn node
  | TSESTree.ImportDeclaration _ _ _ => ImportDeclaration node
  | TSESTree.ExportNamedDeclaration _ _ _ _ => visitExportDeclaration node
  | TSESTree.ExportSpecifier _ _ _ => ExportSpecifier node
  | TSESTree.MetaProperty _ _ _ => ret tt
  | TSESTree.VariableDeclarator _ _ _ | TSESTree.AssignmentPattern _ _ _
  | TSESTree.ArrayPattern _ _ | TSESTree.ObjectPattern _ _
  | TSESTree.RestElement _ _ | TSESTree.ImportSpec _ _ _ _
  | TSESTree.Other _ _ _ => visitChildren node
  end.
End Handlers.

(** [importer.visit(node)]: the recursion of the generic visitor; [visit] is
    the [visit] of the Referencer that the Importer holds. *)
Fixpoint Importer_visit (visit : Node -> M unit) (fuel : nat)
    (declaration node : Node) : M unit :=
  match fuel with
  | 0 => throw OutOfFuel
  | S fuel =>
      Importer_dispatch visit (Importer_visit visit fuel) declaration node
  end.

(** [referencer.visit(node)]: the recursion of the generic visitor.  The
    fuel bounds the depth of the recursion; a run that exhausts it yields
    [OutOfFuel]. *)
Fixpoint visit `{StrictnessInference} (fuel : nat) (node : Node) : M unit :=
  match fuel with
  | 0 => throw OutOfFuel
  | S fuel =>
      dispatch (visit fuel) (Importer_visit (visit fuel) fuel) node
  end.

(** [new ScopeManager(options)] and [new Referencer(options, scopeManager)],
    lines 103-109: no scope exists and none is open. *)
Definition new_ScopeManager (opts : Options) : ScopeManager :=
  {| options := opts; scopes := []; __currentScope := None |}.

Definition new_Referencer (scopeManager : ScopeManager) : Referencer :=
  {| scopeManager := scopeManager; isInnerMethodDefinition := false |}.

(** A strictness inference for programs without directives, classes,
    modules or methods: every scope starts sloppy. *)
Definition sloppy : StrictnessInference := fun _ _ _ _ => false.

(** ** Vocabulary of the statements *)

(** The stores that [__nestScope] builds: the current scope exists, every
    upper scope was created before the scope it encloses, and so was the
    variable scope of a scope that is not its own variable scope. *)
Record wf (r : Referencer) : Prop := {
  wf_cur : forall c, cur r = Some c -> c < length (store r);
  wf_upper : forall h sc u,
    store r !! h = Some sc -> Scope.upper sc = Some u -> u < h;
  wf_variableScope : forall h sc,
    store r !! h = Some sc -> Scope.variableScope sc <= h
}.

(** What a scope object keeps while the walk goes on: its type, block,
    upper scope and variable scope; its bindings and references only grow
    at the end. *)
Record scope_le (a b : Scope.t) : Prop := {
  le_type : Scope.type a = Scope.type b;
  le_block : Scope.block a = Scope.block b;
  le_upper : Scope.upper a = Scope.upper b;
  le_variableScope : Scope.variableScope a = Scope.variableScope b;
  le_definitions : Scope.definitions a `prefix_of` Scope.definitions b;
  le_references : Scope.references a `prefix_of` Scope.references b
}.

(** [r'] extends [r]: the options are the same, the scopes of [r] are still
    there, and the blocks of the scopes created since are among [I]. *)
Record ext (I : list nat) (r r' : Referencer) : Prop := {
  ext_options : options (scopeManager r') = options (scopeManager r);
  ext_old : forall h sc,
    store r !! h = Some sc ->
    exists sc', store r' !! h = Some sc' /\ scope_le sc sc';
  ext_new : forall h sc',
    length (store r) <= h -> store r' !! h = Some sc' ->
    nid (Scope.block sc') ∈ I
}.

(** The block of the current scope, if there is one, is none of [I]. *)
Definition cur_ok (I : list nat) (r : Referencer) : Prop :=
  forall c sc,
    cur r = Some c -> store r !! c = Some sc -> nid (Scope.block sc) ∉ I.

(** A computation that creates no scope and leaves the current scope. *)
Definition Pure {A} (m : M A) : Prop :=
  forall r a r', m r = Ok a r' ->
    wf r -> ext [] r r' /\ wf r' /\ cur r' = cur r.

(** A computation that is balanced: run in a store whose current scope
    belongs to none of the nodes [I], it creates scopes for nodes of [I]
    only and ends with the current scope it started with. *)
Definition Bal {A} (I : list nat) (m : M A) : Prop :=
  forall r a r', m r = Ok a r' ->
    wf r -> cur_ok I r -> ext I r r' /\ wf r' /\ cur r' = cur r.

(** [chain P s k from to]: following the upper scopes [k] times from [from]
    leads to [to], through scopes that satisfy [P]. *)
Fixpoint chain (P : Scope.t -> Prop) (s : list Scope.t) (k : nat)
    (from to : option nat) : Prop :=
  match k with
  | 0 => from = to
  | S k =>
      exists h sc, from = Some h /\ s !! h = Some sc /\ P sc /\
        chain P s k (Scope.upper sc) to
  end.

(** [descends s x k from to]: the same, through scopes whose block is the
    node [x]. *)
Abbreviation descends s x :=
  (chain (fun sc => nid (Scope.block sc) = x) s).

(** A computation that only nests scopes, all for the node [x]. *)
Definition Opens {A} (x : nat) (m : M A) : Prop :=
  forall r a r', m r = Ok a r' ->
    wf r ->
    exists k,
      ext [x] r r' /\ wf r' /\ descends (store r') x k (cur r') (cur r).

(** A computation that runs with [k] scopes for the node [x] open, visits
    nodes of [I], and closes the [k] scopes. *)
Definition Closes {A} (I : list nat) (x : nat) (k : nat) (m : M A) : Prop :=
  forall r a r', m r = Ok a r' ->
    wf r ->
    forall c0, descends (store r) x k (cur r) c0 ->
    (forall c sc, c0 = Some c -> store r !! c = Some sc ->
                  nid (Scope.block sc) ∉ x :: I) ->
    ext (x :: I) r r' /\ wf r' /\ cur r' = c0.

(** What [close] does to the store: scopes are closed, nothing else. *)
Definition closes_only (r r' : Referencer) : Prop :=
  options (scopeManager r') = options (scopeManager r) /\
  isInnerMethodDefinition r' = isInnerMethodDefinition r /\
  length (store r') = length (store r) /\
  forall h sc, store r !! h = Some sc ->
    store r' !! h = Some sc \/ store r' !! h = Some (Scope.__close sc).

(** The state in which a run ends (the state it started in, if it throws). *)
Definition run_state {A} (m : M A) (r : Referencer) : Referencer :=
  match m r with
  | Ok _ r' => r'
  | Throw _ => r
  end.

(** Decision procedures for the hypotheses of the statements. *)
Definition wfb (r : Referencer) : bool :=
  match cur r with
  | Some c => Nat.ltb c (length (store r))
  | None => true
  end
  && forallb (fun b : bool => b)
       (imap (fun h sc =>
                match Scope.upper sc with
                | Some u => Nat.ltb u h
                | None => true
                end
                && Nat.leb (Scope.variableScope sc) h)
             (store r)).

Definition cur_okb (I : list nat) (r : Referencer) : bool :=
  match cur r ≫= (store r !!.) with
  | Some sc => negb (bool_decide (nid (Scope.block sc) ∈ I))
  | None => true
  end.

Definition distinct_nodesb (n : Node) : bool := bool_decide (NoDup (ids n)).

(** What a scope holds: its bindings, its references and its strictness
    (nothing, for a handle that refers to no scope). *)
Definition defs (r : Referencer) (h : nat) : list Definition_.t :=
  match store r !! h with
  | Some sc => Scope.definitions sc
  | None => []
  end.

Definition refs (r : Referencer) (h : nat) : list Reference.t :=
  match store r !! h with
  | Some sc => Scope.references sc
  | None => []
  end.

Definition strictAt (r : Referencer) (h : nat) : option bool :=
  Scope.isStrict <$> store r !! h.

(** The references that [referencingDefaultValue] records for a leaf. *)
Definition defaultValueReferences (pattern : Node) (assignments : list Node)
    (maybeImplicitGlobal : option ReferenceImplicitGlobal) (init : bool)
  : list Reference.t :=
  map (fun assignment =>
         Reference.mk pattern ReferenceFlag.WRITE
           (assignment_right assignment) maybeImplicitGlobal
           (match assignment_left assignment with
            | Some lhs => negb (same_node pattern lhs)
            | None => true
            end)
           init)
      assignments.


(** What the callbacks of the pattern decomposition keep: the current scope
    [c], and the strictness [b] of that scope. *)
Definition at_scope (c : nat) (b : bool) (r : Referencer) : Prop :=
  cur r = Some c /\ strictAt r c = Some b.

(** The references that a for-in or for-of statement records for the
    declaration on its left: one write of the iterated value [rhs] per leaf
    of the pattern [id] of the first declarator. *)
Definition loopReferences (id rhs : Node) : list Reference.t :=
  map (fun '(pattern, _) =>
         Reference.mk pattern ReferenceFlag.WRITE (Some rhs) None true true)
      (PatternVisitor.leaves id).

(** The bindings that a variable declaration [node] of the form [kind]
    defines for its declarators [declarations], the first of which has the
    index [i]: one per leaf of the pattern of each declarator, in order. *)
Fixpoint variableDefinitions (node : Node) (kind : string) (i : nat)
    (declarations : list Node) : list Definition_.t :=
  match declarations with
  | [] => []
  | decl :: declarations =>
      match decl with
      | TSESTree.VariableDeclarator _ id _ =>
          map (fun '(pattern, _) =>
                 new_Definition VariableType.Variable_ pattern decl
                                (Some node) (Some i) (Some kind))
              (PatternVisitor.leaves id)
      | _ => []
      end
      ++ variableDefinitions node kind (S i) declarations
  end.

(** The bindings that a function [node] defines for its parameters
    [params], the first of which has the index [i]: one per leaf of each
    parameter, in order. *)
Fixpoint parameterDefinitions (node : Node) (i : nat) (params : list Node)
  : list Definition_.t :=
  match params with
  | [] => []
  | param :: params =>
      map (fun '(pattern, info) =>
             new_ParameterDefinition pattern node i
                                     (PatternVisitor.rest info))
          (PatternVisitor.leaves param)
      ++ parameterDefinitions node (S i) params
  end.




(** The state [r] with the hint that the program is already strict switched
    on or off; nothing else changes. *)
Definition with_impliedStrict (b : bool) (r : Referencer) : Referencer :=
  let opts := options (scopeManager r) in
  {| scopeManager :=
       {| options :=
            {| __isES6 := __isES6 opts;
               isModule := isModule opts;
               isStrictModeSupported := isStrictModeSupported opts;
               isImpliedStrict := b;
               __isNodejsScope := __isNodejsScope opts;
               __ignoreEval := __ignoreEval opts |};
          scopes := store r;
          __currentScope := cur r |};
     isInnerMethodDefinition := isInnerMethodDefinition r |}.

(** The innermost of the scopes that [Program] opens before it walks the
    body: its type, and its handle when [k] scopes exist already. *)
Definition rootScopeType (opts : Options) : ScopeType :=
  if __isES6 opts && isModule opts then ModuleScope
  else if __isNodejsScope opts then FunctionScope
  else GlobalScope.

Definition rootScope (opts : Options) (k : nat) : nat :=
  k + (if __isNodejsScope opts then 1 else 0)
    + (if __isES6 opts && isModule opts then 1 else 0).

(** A computation that does not look at the hint: it runs in the same way
    with the hint switched on or off. *)
Definition Blind {A} (m : M A) : Prop :=
  forall b r a r',
    m r = Ok a r' ->
    m (with_impliedStrict b r) = Ok a (with_impliedStrict b r').

(** Updates of a scope object that respect [scope_le]. *)
Definition Monotone (f : Scope.t -> Scope.t) : Prop :=
  forall sc, scope_le sc (f sc).

(** Proper descendants of a node. *)
Inductive psub : Node -> Node -> Prop :=
| psub_child c n : c ∈ children n -> psub c n
| psub_trans c m n : psub c m -> psub m n -> psub c n.

(** Whether import declarations are allowed: the analysis is in module mode
    of the 2015 edition. *)
Definition moduleMode (r : Referencer) : bool :=
  __isES6 (options (scopeManager r)) && isModule (options (scopeManager r)).

Definition isVariableDeclarator (n : Node) : bool :=
  match n with
  | TSESTree.VariableDeclarator _ _ _ => true
  | _ => false
  end.

(** The shapes that the handlers rely on, and that the types of the syntax
    tree promise: the declarations of a variable declaration are
    declarators, the declaration in the head of a for-in or for-of statement
    has a declarator, and an import declaration occurs in module mode
    only. *)
Definition shape_ok (modules : bool) (n : Node) : bool :=
  match n with
  | TSESTree.VariableDeclaration _ _ declarations =>
      forallb isVariableDeclarator declarations
  | TSESTree.ForIn _ _ (TSESTree.VariableDeclaration _ _ []) _ _ => false
  | TSESTree.ImportDeclaration _ _ _ => modules
  | _ => true
  end.

(** A tree of depth at most [depth] whose nodes all have these shapes. *)
Fixpoint shaped_within (depth : nat) (modules : bool) (n : Node) : bool :=
  match depth with
  | 0 => false
  | S depth =>
      shape_ok modules n && forallb (shaped_within depth modules) (children n)
  end.

(** The states in which a handler runs: the scope [c] is open and belongs to
    none of the nodes [I]; [md] is the module mode of the analysis. *)
Definition open_at (I : list nat) (md : bool) (c : nat) (r : Referencer)
  : Prop :=
  wf r /\ cur r = Some c /\ cur_ok I r /\ moduleMode r = md.

(** [Runs P m Q]: started in a state that satisfies [P], the computation
    [m] returns, with a result and in a state that satisfy [Q]. *)
Definition Runs {A} (P : Referencer -> Prop) (m : M A)
    (Q : A -> Referencer -> Prop) : Prop :=
  forall r, P r -> exists a r', m r = Ok a r' /\ Q a r'.

(** Some scope is open that belongs to no proper descendant of [node]. *)
Definition open_under (md : bool) (node : Node) (r : Referencer) : Prop :=
  exists c, open_at (flat_map ids (children node)) md c r.

(** ** Vocabulary of the further properties *)

(** What a scope object keeps for good while the walk goes on, besides what
    [scope_le] says: the names under which its bindings are registered only
    grow at the end, its strictness stays the one it has, and the marks it
    has received (of a direct call to [eval], of [this], of its closing) are
    not taken back. *)
Record scope_kept (a b : Scope.t) : Prop := {
  kept_le : scope_le a b;
  kept_names : Scope.names a `prefix_of` Scope.names b;
  kept_isStrict : Scope.isStrict a = Scope.isStrict b;
  kept_dynamic : Scope.dynamic a = true -> Scope.dynamic b = true;
  kept_thisFound : Scope.thisFound a = true -> Scope.thisFound b = true;
  kept_closed : Scope.closed a = true -> Scope.closed b = true
}.

(** [r'] keeps [r]: the options and [isInnerMethodDefinition] are the same,
    and every scope of [r] is still there, at the same place. *)
Record keeps (r r' : Referencer) : Prop := {
  keeps_options : options (scopeManager r') = options (scopeManager r);
  keeps_isInnerMethodDefinition :
    isInnerMethodDefinition r' = isInnerMethodDefinition r;
  keeps_scopes : forall h sc,
    store r !! h = Some sc ->
    exists sc', store r' !! h = Some sc' /\ scope_kept sc sc'
}.

(** A computation whose every run keeps the state it started in. *)
Definition Stable {A} (m : M A) : Prop :=
  forall r a r', m r = Ok a r' -> keeps r r'.

(** Updates of a scope object that respect [scope_kept]. *)
Definition Kept (f : Scope.t -> Scope.t) : Prop :=
  forall sc, scope_kept sc (f sc).

(** [r] has grown out of [r0] by new scopes only, one of which is current. *)
Definition grown (r0 r : Referencer) : Prop :=
  options (scopeManager r) = options (scopeManager r0) /\
  isInnerMethodDefinition r = isInnerMethodDefinition r0 /\
  (exists news, store r = store r0 ++ news) /\
  exists c, cur r = Some c /\ length (store r0) <= c.

(** The scope [h] is the current scope or one of its ancestors. *)
Definition on_chain (r : Referencer) (h : nat) : Prop :=
  exists k, chain (fun _ => True) (store r) k (cur r) (Some h).

(** Every scope created at the position [B] or later that is not closed is
    the current scope or one of its ancestors. *)
Definition open_on_chain (B : nat) (r : Referencer) : Prop :=
  forall h sc,
    B <= h -> store r !! h = Some sc -> Scope.closed sc = false ->
    on_chain r h.

(** A computation that leaves no scope open behind: its runs keep
    [open_on_chain]. *)
Definition Tidy {A} (m : M A) : Prop :=
  forall B r a r', m r = Ok a r' -> open_on_chain B r -> open_on_chain B r'.

(** The nodes whose handler starts by asking for the current scope with
    [currentScope(true)]: a name, [this], a variable declaration, an update
    of a pattern, a compound assignment to a pattern, and the declaration of
    a named function or class. *)
Definition needsOpenScope (n : Node) : bool :=
  match n with
  | TSESTree.Identifier _ _ | TSESTree.ThisExpression _
  | TSESTree.VariableDeclaration _ _ _ => true
  | TSESTree.UpdateExpression _ argument => PatternVisitor.isPattern argument
  | TSESTree.AssignmentExpression _ operator lhs _ =>
      PatternVisitor.isPattern lhs && negb (String.eqb operator "=")
  | TSESTree.Function _ TSESTree.FunctionDeclaration (Some _) _ _ => true
  | TSESTree.Class _ TSESTree.ClassDeclaration (Some _) _ _ => true
  | _ => false
  end.

(** The read reference that the visit of a name records. *)
Definition readReference (id : Node) : Reference.t :=
  Reference.mk id ReferenceFlag.READ None None false false.

(** The specifiers of an import declaration, and the bindings that the
    declaration [node] defines for them: one per leaf of the local name of
    each specifier, in order. *)
Definition isImportSpec (n : Node) : bool :=
  match n with
  | TSESTree.ImportSpec _ _ _ _ => true
  | _ => false
  end.

Definition importDefinitions (node : Node) (specifiers : list Node)
  : list Definition_.t :=
  flat_map
    (fun specifier =>
       match specifier with
       | TSESTree.ImportSpec _ _ _ local =>
           map (fun '(pattern, _) =>
                  new_Definition VariableType.ImportBinding pattern specifier
                                 (Some node) None None)
               (PatternVisitor.leaves local)
       | _ => []
       end)
    specifiers.

(** Export specifiers whose local side is a name, and these names. *)
Definition exportsName (n : Node) : bool :=
  match n with
  | TSESTree.ExportSpecifier _ (TSESTree.Identifier _ _) _ => true
  | _ => false
  end.

Definition exportedLocals (specifiers : list Node) : list Node :=
  flat_map
    (fun specifier =>
       match specifier with
       | TSESTree.ExportSpecifier _ local _ => [local]
       | _ => []
       end)
    specifiers.

(** The scope [h] is not a closed scope of the store [snap]: it is open
    there, or it does not exist yet. *)
Definition live (snap : list Scope.t) (h : nat) : Prop :=
  forall sc, snap !! h = Some sc -> Scope.closed sc = false.

(** The closed scopes of the store [snap] are frozen in [r]: they are still
    there, unchanged, and neither the current scope and its ancestors nor
    their variable scopes are among them. *)
Definition frozen (snap : list Scope.t) (r : Referencer) : Prop :=
  length snap <= length (store r) /\
  (forall h sc,
     snap !! h = Some sc -> Scope.closed sc = true ->
     store r !! h = Some sc) /\
  (forall h sc,
     on_chain r h -> store r !! h = Some sc ->
     live snap h /\ live snap (Scope.variableScope sc)).

(** A computation that leaves the closed scopes of [snap] alone. *)
Definition Respects {A} (snap : list Scope.t) (m : M A) : Prop :=
  forall r a r',
    m r = Ok a r' -> wf r -> frozen snap r -> wf r' /\ frozen snap r'.

(** Whether the current scope, its ancestors and their variable scopes are
    all open; [fuel] bounds the number of ancestors. *)
Fixpoint chain_openb_from (s : list Scope.t) (fuel : nat)
    (from : option nat) : bool :=
  match from, fuel with
  | None, _ => true
  | Some _, 0 => false
  | Some h, S fuel =>
      match s !! h with
      | None => true
      | Some sc =>
          negb (Scope.closed sc)
          && match s !! Scope.variableScope sc with
             | Some vs => negb (Scope.closed vs)
             | None => true
             end
          && chain_openb_from s fuel (Scope.upper sc)
      end
  end.

Definition chain_openb (r : Referencer) : bool :=
  chain_openb_from (store r) (S (length (store r))) (cur r).

Definition isVariableDeclaration (n : Node) : bool :=
  match n with
  | TSESTree.VariableDeclaration _ _ _ => true
  | _ => false
  end.

(** The references that a for-in or for-of statement [node] records in the
    current scope, of strictness [strict], for a pattern [lhs] on its left
    that is no declaration: for each leaf, the writes of its default values
    and then the write of the iterated value [rhs]. *)
Definition loopPatternReferences (node lhs rhs : Node) (strict : bool)
  : list Reference.t :=
  flat_map
    (fun '(pattern, info) =>
       let maybeImplicitGlobal :=
         if negb strict
         then Some {| rig_pattern := pattern; rig_node := node |}
         else None in
       defaultValueReferences pattern (PatternVisitor.assignments info)
                              maybeImplicitGlobal false
       ++ [Reference.mk pattern ReferenceFlag.WRITE (Some rhs)
                        maybeImplicitGlobal true false])
    (PatternVisitor.leaves lhs).

(** [object.p1.p2...]: the member accesses [props], none of them computed,
    on top of [object]; each property comes with the identity of the node
    of its member expression. *)
Fixpoint memberChain (object : Node) (props : list (nat * Node)) : Node :=
  match props with
  | [] => object
  | (i, property) :: props =>
      memberChain (TSESTree.MemberExpression i false object property) props
  end.

(** The references that a variable declaration records for its declarators
    [declarations]: for each leaf of the pattern of each declarator, in
    order, the writes of its default values and then, when the declarator
    has an initializer, the write of the initializer. *)
Fixpoint variableReferences (declarations : list Node)
  : list Reference.t :=
  match declarations with
  | [] => []
  | decl :: declarations =>
      match decl with
      | TSESTree.VariableDeclarator _ id init =>
          flat_map
            (fun '(pattern, info) =>
               defaultValueReferences pattern
                 (PatternVisitor.assignments info) None true
               ++ match init with
                  | Some init =>
                      [Reference.mk pattern ReferenceFlag.WRITE (Some init)
                         None (negb (PatternVisitor.topLevel info)) true]
                  | None => []
                  end)
            (PatternVisitor.leaves id)
      | _ => []
      end
      ++ variableReferences declarations
  end.

(** ** Sample inputs *)

(** A script of the 2015 edition, analysed without any hint. *)
Definition script_options : Options :=
  {| __isES6 := true; isModule := false; isStrictModeSupported := true;
     isImpliedStrict := false; __isNodejsScope := false;
     __ignoreEval := false |}.

Definition fresh_referencer (opts : Options) : Referencer :=
  new_Referencer (new_ScopeManager opts).

(** The Referencer of a script once the global scope of the program with
    identity [0] is open. *)
Definition in_global_scope : Referencer :=
  run_state (__nestGlobalScope (H := sloppy) (TSESTree.Program 0 []))
            (fresh_referencer script_options).

(** [(function f(f, [a = f]) { })] *)
Definition sample_parameters : list Node :=
  [TSESTree.Identifier 4 "f";
   TSESTree.ArrayPattern 5
     [Some (TSESTree.AssignmentPattern 6 (TSESTree.Identifier 7 "a")
                                       (TSESTree.Identifier 8 "f"))]].

Definition sample_function_expression : Node :=
  TSESTree.Function 2 TSESTree.FunctionExpression
    (Some (TSESTree.Identifier 3 "f")) sample_parameters
    (Some (TSESTree.BlockStatement 9 [])).

(** [import x from "m"] *)
Definition sample_import : Node :=
  TSESTree.ImportDeclaration 1
    [TSESTree.ImportSpec 2 TSESTree.ImportDefaultSpecifier None
                         (TSESTree.Identifier 3 "x")]
    (TSESTree.Other 4 "Literal" []).

(** The script [import x from "m"; y] *)
Definition sample_script_with_import : Node :=
  TSESTree.Program 0 [sample_import; TSESTree.Identifier 5 "y"].

(** The scope object of [in_global_scope]. *)
Definition sample_global_scope : Scope.t :=
  Scope.mk GlobalScope (TSESTree.Program 0 []) None 0 false [] [] [] false
           false false.

(** [[a = 1] = b] *)
Definition sample_default_value : Node := TSESTree.Other 5 "Literal" [].

Definition sample_assignment_target : Node :=
  TSESTree.ArrayPattern 2
    [Some (TSESTree.AssignmentPattern 3 (TSESTree.Identifier 4 "a")
                                      sample_default_value)].


(** [for (let [a, b] of xs) { }] *)
Definition sample_loop_pattern : Node :=
  TSESTree.ArrayPattern 4
    [Some (TSESTree.Identifier 5 "a"); Some (TSESTree.Identifier 6 "b")].

Definition sample_for_of : Node :=
  TSESTree.ForIn 1 TSESTree.ForOfStatement
    (TSESTree.VariableDeclaration 2 "let"
       [TSESTree.VariableDeclarator 3 sample_loop_pattern None])
    (TSESTree.Identifier 7 "xs")
    (TSESTree.BlockStatement 8 []).

(** The Referencer of a script inside a block of the program: the Block
    scope [1] is current, its variable scope is the global scope [0]. *)
Definition in_block_scope : Referencer :=
  run_state (__nestBlockScope (H := sloppy) (TSESTree.BlockStatement 9 []))
            in_global_scope.

Definition sample_block_scope : Scope.t :=
  Scope.mk BlockScope (TSESTree.BlockStatement 9 []) (Some 0) 0 false [] []
           [] false false false.

(** [var {a = f, b: [c = 1]} = obj] *)
Definition sample_declarators : list Node :=
  [TSESTree.VariableDeclarator 11
     (TSESTree.ObjectPattern 12
        [TSESTree.Property 13 false (TSESTree.Identifier 14 "a")
           (TSESTree.AssignmentPattern 15 (TSESTree.Identifier 16 "a")
                                       (TSESTree.Identifier 17 "f"));
         TSESTree.Property 18 false (TSESTree.Identifier 19 "b")
           (TSESTree.ArrayPattern 20
              [Some (TSESTree.AssignmentPattern 21
                       (TSESTree.Identifier 22 "c")
                       (TSESTree.Other 23 "Literal" []))])])
     (Some (TSESTree.Identifier 24 "obj"))].

Definition sample_var_declaration : Node :=
  TSESTree.VariableDeclaration 10 "var" sample_declarators.


(** The head and the whole of a loop [for (var i; ;) {}]. *)
Definition sample_for_var_head : Node :=
  TSESTree.VariableDeclaration 2 "var"
    [TSESTree.VariableDeclarator 3 (TSESTree.Identifier 4 "i") None].

Definition sample_for_var : Node :=
  TSESTree.ForStatement 1 (Some sample_for_var_head) None None
    (TSESTree.BlockStatement 8 []).

(** A function declaration [function f() { let x; }] and its body. *)
Definition sample_let_declaration : Node :=
  TSESTree.VariableDeclaration 4 "let"
    [TSESTree.VariableDeclarator 5 (TSESTree.Identifier 6 "x") None].

Definition sample_function_body : Node :=
  TSESTree.BlockStatement 3 [sample_let_declaration].

Definition sample_function_declaration : Node :=
  TSESTree.Function 1 TSESTree.FunctionDeclaration
    (Some (TSESTree.Identifier 2 "f")) [] (Some sample_function_body).

(** An empty program, and the options of a script analysed for Node.js
    (the global scope is wrapped in an implicit function scope), with or
    without the hint that the program is already strict. *)
Definition sample_program : Node := TSESTree.Program 1 [].

Definition nodejs_options (hint : bool) : Options :=
  {| __isES6 := true; isModule := false; isStrictModeSupported := true;
     isImpliedStrict := hint; __isNodejsScope := true;
     __ignoreEval := false |}.

(** *** Sample inputs of the further properties *)

(** The Referencer of a script inside a named function expression of the
    program: its two scopes are open on top of the global scope. *)
Definition in_function_scopes : Referencer :=
  run_state
    (__nestFunctionExpressionNameScope (H := sloppy)
       sample_function_expression ;;
     __nestFunctionScope (H := sloppy) sample_function_expression false)
    in_global_scope.

(** The default values around the name [a] in [[a = 1] = b]. *)
Definition sample_default_values : list Node :=
  [TSESTree.AssignmentPattern 3 (TSESTree.Identifier 4 "a")
                              sample_default_value].

(** A module of the 2015 edition. *)
Definition module_options : Options :=
  {| __isES6 := true; isModule := true; isStrictModeSupported := true;
     isImpliedStrict := false; __isNodejsScope := false;
     __ignoreEval := false |}.

(** The Referencer of a module once the global scope of the program with
    identity [0] is open. *)
Definition in_module_global_scope : Referencer :=
  run_state (__nestGlobalScope (H := sloppy) (TSESTree.Program 0 []))
            (fresh_referencer module_options).

(** [import x, {y as z} from "m"] *)
Definition sample_import_specifiers : list Node :=
  [TSESTree.ImportSpec 2 TSESTree.ImportDefaultSpecifier None
                       (TSESTree.Identifier 3 "x");
   TSESTree.ImportSpec 4 TSESTree.ImportSpecifier
                       (Some (TSESTree.Identifier 5 "y"))
                       (TSESTree.Identifier 6 "z")].

(** [export {a, b as c}] *)
Definition sample_export_specifiers : list Node :=
  [TSESTree.ExportSpecifier 2 (TSESTree.Identifier 3 "a")
                            (TSESTree.Identifier 4 "a");
   TSESTree.ExportSpecifier 5 (TSESTree.Identifier 6 "b")
                            (TSESTree.Identifier 7 "c")].

(** [eval(x)] *)
Definition sample_eval_call : Node :=
  TSESTree.CallExpression 10 (TSESTree.Identifier 11 "eval")
                          [TSESTree.Identifier 12 "x"].



(** The options of a script of the fifth edition: no block scopes. *)
Definition es5_options : Options :=
  {| __isES6 := false; isModule := false; isStrictModeSupported := true;
     isImpliedStrict := false; __isNodejsScope := false;
     __ignoreEval := false |}.

Definition in_es5_global_scope : Referencer :=
  run_state (__nestGlobalScope (H := sloppy) (TSESTree.Program 0 []))
            (fresh_referencer es5_options).

(** [{ x; }] *)
Definition sample_block : Node :=
  TSESTree.BlockStatement 30 [TSESTree.Identifier 31 "x"].

(** [switch (x) { case y: }] *)
Definition sample_switch : Node :=
  TSESTree.SwitchStatement 40 (TSESTree.Identifier 41 "x")
    [TSESTree.Other 42 "SwitchCase" [TSESTree.Identifier 43 "y"]].

(** [with (o) { x; }] *)
Definition sample_with : Node :=
  TSESTree.WithStatement 50 (TSESTree.Identifier 51 "o")
    (TSESTree.BlockStatement 52 [TSESTree.Identifier 53 "x"]).

(** [catch ([a, b]) { }] *)
Definition sample_catch_param : Node :=
  TSESTree.ArrayPattern 61
    [Some (TSESTree.Identifier 62 "a"); Some (TSESTree.Identifier 63 "b")].

Definition sample_catch : Node :=
  TSESTree.CatchClause 60 (Some sample_catch_param)
                       (TSESTree.BlockStatement 64 []).

(** The Referencer of a script after the block [{ x; }] of the program has
    been visited: the global scope is current, the Block scope is closed. *)
Definition after_block : Referencer :=
  run_state (visit (H := sloppy) 3 sample_block) in_global_scope.

(** [for ([a = 1] of xs) { }] *)
Definition sample_for_of_pattern : Node :=
  TSESTree.ForIn 1 TSESTree.ForOfStatement sample_assignment_target
    (TSESTree.Identifier 7 "xs") (TSESTree.BlockStatement 8 []).

(** * Proofs *)

(** ** The monad *)

Lemma bind_Ok {A B} (m : M A) (k : A -> M B) r b r'' :
  bind m k r = Ok b r'' <-> exists a r', m r = Ok a r' /\ k a r' = Ok b r''.
Proof.
  unfold bind. destruct (m r) as [a r'|e]; split.
  - eauto.
  - intros (? & ? & [= <- <-] & ?). done.
  - done.
  - intros (? & ? & [=] & ?).
Qed.

Lemma bind_Throw {A B} (m : M A) (k : A -> M B) r e :
  m r = Throw e -> bind m k r = Throw e.
Proof. unfold bind. by intros ->. Qed.

Lemma ret_Ok {A} (a b : A) r r' : ret a r = Ok b r' <-> a = b /\ r = r'.
Proof. unfold ret. split; [by intros [= -> ->] | by intros [-> ->]]. Qed.

(** Splitting a successful run into the runs of its steps. *)
Ltac inv_run H :=
  match type of H with
  | bind _ _ _ = Ok _ _ =>
      let a := fresh "a" in
      let r := fresh "r" in
      let H1 := fresh H in
      apply bind_Ok in H; destruct H as (a & r & H1 & H);
      try (match type of a with unit => destruct a end);
      try inv_run H1; try inv_run H
  | ret _ _ = Ok _ _ =>
      apply ret_Ok in H; destruct H as [? ?]; subst
  | throw _ _ = Ok _ _ => discriminate H
  | Throw _ = Ok _ _ => discriminate H
  | Ok _ _ = Ok _ _ => injection H as ? ?; subst
  | _ => idtac
  end.

(** ** Trees *)

Lemma ids_children (n : Node) : ids n = nid n :: flat_map ids (children n).
Proof.
  destruct n; simpl; f_equal;
    repeat match goal with o : option Node |- _ => destruct o end;
    simpl; rewrite ?app_nil_r, ?flat_map_app; simpl;
    rewrite ?app_nil_r, <- ?app_assoc; try reflexivity.
  induction elements as [|[e|] es IH]; simpl; rewrite ?IH; reflexivity.
Qed.

Lemma elem_of_flat_map_ids (c : Node) (l : list Node) x :
  c ∈ l -> x ∈ ids c -> x ∈ flat_map ids l.
Proof.
  intros Hc Hx. apply list_elem_of_In, in_flat_map.
  exists c. split; by apply list_elem_of_In.
Qed.

Lemma NoDup_flat_map_ids (c : Node) (l : list Node) :
  c ∈ l -> NoDup (flat_map ids l) -> NoDup (ids c).
Proof.
  induction l as [|d l IH]; simpl; [by intros ?%elem_of_nil|].
  intros [->|Hc]%elem_of_cons (Hd & _ & Hl)%NoDup_app; auto.
Qed.

Lemma child_ids (c n : Node) : c ∈ children n -> ids c ⊆ flat_map ids (children n).
Proof. intros Hc x Hx. by eapply elem_of_flat_map_ids. Qed.

Lemma child_distinct (c n : Node) :
  c ∈ children n -> distinct_nodes n -> distinct_nodes c.
Proof.
  unfold distinct_nodes. rewrite (ids_children n).
  intros Hc [_ Hn]%NoDup_cons. by eapply NoDup_flat_map_ids.
Qed.

Lemma psub_ids (c n : Node) : psub c n -> ids c ⊆ flat_map ids (children n).
Proof.
  induction 1 as [c n Hc|c m n _ IH1 _ IH2]; [by apply child_ids|].
  intros x Hx. apply IH2. rewrite (ids_children m). right. by apply IH1.
Qed.

Lemma psub_distinct (c n : Node) :
  psub c n -> distinct_nodes n -> distinct_nodes c.
Proof. induction 1; eauto using child_distinct. Qed.

Lemma distinct_root (n : Node) :
  distinct_nodes n -> nid n ∉ flat_map ids (children n).
Proof.
  unfold distinct_nodes. rewrite (ids_children n). by intros [? _]%NoDup_cons.
Qed.

(** ** Stores *)

Lemma scope_le_refl (a : Scope.t) : scope_le a a.
Proof. by split. Qed.

Lemma scope_le_trans (a b c : Scope.t) :
  scope_le a b -> scope_le b c -> scope_le a c.
Proof.
  intros [] []. split; try congruence; by etrans.
Qed.

Lemma ext_length (I : list nat) (r r' : Referencer) :
  ext I r r' -> length (store r) <= length (store r').
Proof.
  intros He. destruct (decide (length (store r) <= length (store r')))
    as [|Hlt]; [done|].
  destruct (lookup_lt_is_Some_2 (store r) (length (store r'))) as [sc Hsc];
    [lia|].
  destruct (ext_old _ _ _ He _ _ Hsc) as (sc' & Hsc' & _).
  apply lookup_lt_Some in Hsc'. lia.
Qed.

Lemma ext_refl (I : list nat) (r : Referencer) : ext I r r.
Proof.
  split; [done| |].
  - intros h sc Hsc. eauto using scope_le_refl.
  - intros h sc Hh Hsc. apply lookup_lt_Some in Hsc. lia.
Qed.

Lemma ext_trans (I : list nat) (r r' r'' : Referencer) :
  ext I r r' -> ext I r' r'' -> ext I r r''.
Proof.
  intros H1 H2. split.
  - rewrite (ext_options _ _ _ H2). apply H1.
  - intros h sc Hsc.
    destruct (ext_old _ _ _ H1 _ _ Hsc) as (sc' & Hsc' & Hle).
    destruct (ext_old _ _ _ H2 _ _ Hsc') as (sc'' & Hsc'' & Hle').
    eauto using scope_le_trans.
  - intros h sc'' Hh Hsc''.
    destruct (decide (h < length (store r'))) as [Hlt|Hge].
    + destruct (lookup_lt_is_Some_2 _ _ Hlt) as [sc' Hsc'].
      destruct (ext_old _ _ _ H2 _ _ Hsc') as (sc2 & Hsc2 & Hle).
      assert (sc2 = sc'') as -> by congruence.
      rewrite <- (le_block _ _ Hle). by eapply (ext_new _ _ _ H1).
    + apply (ext_new _ _ _ H2 h); [lia|done].
Qed.

Lemma ext_mono (I J : list nat) (r r' : Referencer) :
  I ⊆ J -> ext I r r' -> ext J r r'.
Proof.
  intros HIJ [Ho Hold Hnew]. split; [assumption..|].
  intros h sc' Hh Hsc'. apply HIJ. eauto.
Qed.

Lemma cur_ok_mono (I J : list nat) (r : Referencer) :
  I ⊆ J -> cur_ok J r -> cur_ok I r.
Proof. intros HIJ Hok c sc Hc Hsc Hin. eapply Hok; eauto. Qed.

Lemma cur_ok_ext (I J : list nat) (r r' : Referencer) :
  ext J r r' -> wf r -> cur r' = cur r -> cur_ok I r -> cur_ok I r'.
Proof.
  intros He Hwf Hcur Hok c sc' Hc Hsc'. rewrite Hcur in Hc.
  destruct (lookup_lt_is_Some_2 (store r) c) as [sc Hsc];
    [by apply Hwf|].
  destruct (ext_old _ _ _ He _ _ Hsc) as (sc2 & Hsc2 & Hle).
  assert (sc2 = sc') as -> by congruence.
  rewrite <- (le_block _ _ Hle). eauto.
Qed.

Lemma descends_ext (I : list nat) (r r' : Referencer) x k a b :
  ext I r r' -> descends (store r) x k a b -> descends (store r') x k a b.
Proof.
  intros He. revert a. induction k as [|k IH]; simpl; [done|].
  intros a (h & sc & -> & Hsc & Hx & Hd).
  destruct (ext_old _ _ _ He _ _ Hsc) as (sc' & Hsc' & Hle).
  exists h, sc'. rewrite <- (le_block _ _ Hle), <- (le_upper _ _ Hle). eauto.
Qed.

Lemma descends_app (s : list Scope.t) x j k a b c :
  descends s x j a b -> descends s x k b c -> descends s x (j + k) a c.
Proof.
  revert a. induction j as [|j IH]; simpl; [by intros a ->|].
  intros a (h & sc & -> & Hsc & Hx & Hd) Hk. eauto 8.
Qed.

Lemma descends_bound (r : Referencer) x k h c0 :
  wf r -> descends (store r) x k (Some h) c0 -> k <= S h.
Proof.
  intros Hwf. revert h. induction k as [|k IH]; simpl; [lia|].
  intros h (h' & sc & [= <-] & Hsc & _ & Hd).
  destruct k as [|k]; [lia|].
  pose proof Hd as (u & scu & Hu & _).
  specialize (IH u). rewrite Hu in Hd. specialize (IH Hd).
  pose proof (wf_upper _ Hwf _ _ _ Hsc Hu). lia.
Qed.

(** ** The primitive operations *)

Lemma Monotone_define n d : Monotone (Scope.__define n d).
Proof. intros sc. split; simpl; try done. by apply prefix_app_r. Qed.

Lemma Monotone_referencing x : Monotone (Scope.__referencing x).
Proof. intros sc. split; simpl; try done. by apply prefix_app_r. Qed.

Lemma Monotone_detectEval : Monotone Scope.__detectEval.
Proof. by split. Qed.

Lemma Monotone_detectThis : Monotone Scope.__detectThis.
Proof. by split. Qed.

Lemma Monotone_set_isStrict b : Monotone (Scope.set_isStrict b).
Proof. by split. Qed.

Lemma Monotone_close : Monotone Scope.__close.
Proof. by split. Qed.

Create HintDb walk discriminated.
#[local] Hint Resolve Monotone_define Monotone_referencing Monotone_detectEval
  Monotone_detectThis Monotone_set_isStrict Monotone_close : walk.

Lemma store_set_store s r : store (set_store s r) = s.
Proof. done. Qed.

Lemma cur_set_store s r : cur (set_store s r) = cur r.
Proof. done. Qed.

Lemma store_set_cur c r : store (set_cur c r) = store r.
Proof. done. Qed.

Lemma cur_set_cur c r : cur (set_cur c r) = c.
Proof. done. Qed.

Lemma updateScope_run (h : nat) (f : Scope.t -> Scope.t) r a r' :
  updateScope h f r = Ok a r' ->
  exists sc, store r !! h = Some sc /\
    r' = set_store (<[h := f sc]> (store r)) r.
Proof.
  unfold updateScope. destruct (store r !! h) as [sc|] eqn:Hsc; [|done].
  intros [= <- <-]. eauto.
Qed.

(** Replacing a scope object by a greater one. *)
Lemma set_store_insert_ext (h : nat) (sc sc' : Scope.t) r :
  store r !! h = Some sc -> scope_le sc sc' -> wf r ->
  ext [] r (set_store (<[h := sc']> (store r)) r) /\
  wf (set_store (<[h := sc']> (store r)) r).
Proof.
  intros Hsc Hle Hwf. split; [split|split].
  - done.
  - intros h' sc0 Hsc0. rewrite store_set_store.
    destruct (decide (h = h')) as [<-|Hne].
    + rewrite list_lookup_insert_eq by (by eapply lookup_lt_Some).
      assert (sc0 = sc) as -> by congruence. eauto.
    + rewrite list_lookup_insert_ne by done. eauto using scope_le_refl.
  - intros h' sc0 Hh'. rewrite store_set_store. intros Hl%lookup_lt_Some.
    rewrite length_insert in Hl. lia.
  - intros c. rewrite cur_set_store, store_set_store, length_insert.
    apply Hwf.
  - intros h' sc0 u. rewrite store_set_store.
    destruct (decide (h = h')) as [<-|Hne].
    + rewrite list_lookup_insert_eq by (by eapply lookup_lt_Some).
      intros [= <-]. rewrite <- (le_upper _ _ Hle).
      by eapply (wf_upper _ Hwf).
    + rewrite list_lookup_insert_ne by done. by eapply (wf_upper _ Hwf).
  - intros h' sc0. rewrite store_set_store.
    destruct (decide (h = h')) as [<-|Hne].
    + rewrite list_lookup_insert_eq by (by eapply lookup_lt_Some).
      intros [= <-]. rewrite <- (le_variableScope _ _ Hle).
      by eapply (wf_variableScope _ Hwf).
    + rewrite list_lookup_insert_ne by done.
      by eapply (wf_variableScope _ Hwf).
Qed.

Lemma updateScope_ext (h : nat) (f : Scope.t -> Scope.t) r a r' :
  Monotone f -> updateScope h f r = Ok a r' -> wf r ->
  ext [] r r' /\ wf r' /\ cur r' = cur r.
Proof.
  intros Hf (sc & Hsc & ->)%updateScope_run Hwf.
  destruct (set_store_insert_ext h sc (f sc) r) as [? ?]; auto.
Qed.

Lemma Pure_ret {A} (a : A) : Pure (ret a).
Proof. intros r b r' [-> ->]%ret_Ok Hwf. eauto using ext_refl. Qed.

Lemma Pure_throw {A} e : Pure (@throw A e).
Proof. by intros r b r' ?. Qed.

Lemma Pure_bind {A B} (m : M A) (k : A -> M B) :
  Pure m -> (forall a, Pure (k a)) -> Pure (bind m k).
Proof.
  intros Hm Hk r b r'' (a & r' & H1 & H2)%bind_Ok Hwf.
  destruct (Hm _ _ _ H1 Hwf) as (He1 & Hwf1 & Hc1).
  destruct (Hk _ _ _ _ H2 Hwf1) as (He2 & Hwf2 & Hc2).
  split; [by eapply ext_trans|]. split; [done|congruence].
Qed.

Lemma Pure_updateScope h f : Monotone f -> Pure (updateScope h f).
Proof. intros Hf r a r' Hrun Hwf. by eapply updateScope_ext. Qed.

Lemma Pure_getOptions : Pure getOptions.
Proof. intros r a r' [= <- <-] Hwf. eauto using ext_refl. Qed.

Lemma Pure_currentScope : Pure currentScope.
Proof. intros r a r' [= <- <-] Hwf. eauto using ext_refl. Qed.

Lemma Pure_currentScope_throw : Pure currentScope_throw.
Proof.
  apply Pure_bind; [apply Pure_currentScope|].
  intros [c|]; [apply Pure_ret|apply Pure_throw].
Qed.

Lemma Pure_getScope h : Pure (getScope h).
Proof.
  intros r a r'. unfold getScope.
  destruct (store r !! h); [|done].
  intros [= <- <-] Hwf. eauto using ext_refl.
Qed.

Lemma Pure_get_isInnerMethodDefinition : Pure get_isInnerMethodDefinition.
Proof. intros r a r' [= <- <-] Hwf. eauto using ext_refl. Qed.

Lemma Pure_assert c msg : Pure (assert c msg).
Proof. destruct c; [apply Pure_ret|apply Pure_throw]. Qed.

Lemma Pure_define h n d : Pure (__define h n d).
Proof. apply Pure_updateScope; auto with walk. Qed.

Lemma Pure_referencing h x : Pure (__referencing h x).
Proof. apply Pure_updateScope; auto with walk. Qed.

Lemma Pure_pushInnerMethodDefinition b : Pure (pushInnerMethodDefinition b).
Proof.
  intros r a r' [= <- <-] Hwf.
  split; [|split]; [split| |done]; try done.
  - intros h sc Hsc. eauto using scope_le_refl.
  - intros h sc Hh Hsc. apply lookup_lt_Some in Hsc. unfold store in *.
    simpl in *. lia.
  - by destruct Hwf.
Qed.

Lemma Pure_popInnerMethodDefinition b : Pure (popInnerMethodDefinition b).
Proof.
  intros r a r' [= <- <-] Hwf.
  split; [|split]; [split| |done]; try done.
  - intros h sc Hsc. eauto using scope_le_refl.
  - intros h sc Hh Hsc. apply lookup_lt_Some in Hsc. unfold store in *.
    simpl in *. lia.
  - by destruct Hwf.
Qed.

Lemma Pure_forEach {A} (f : A -> M unit) (xs : list A) :
  (forall x, x ∈ xs -> Pure (f x)) -> Pure (forEach f xs).
Proof.
  induction xs as [|x xs IH]; simpl; intros Hf; [apply Pure_ret|].
  apply Pure_bind; [apply Hf; left|].
  intros _. apply IH. intros y Hy. apply Hf. by right.
Qed.

Lemma Pure_referencingDefaultValue pattern assignments mig init :
  Pure (referencingDefaultValue pattern assignments mig init).
Proof.
  apply Pure_forEach. intros a _.
  apply Pure_bind; [apply Pure_currentScope_throw|].
  intros c. apply Pure_referencing.
Qed.

(** ** Balanced computations *)

Lemma Pure_Bal {A} (I : list nat) (m : M A) : Pure m -> Bal I m.
Proof.
  intros Hm r a r' Hrun Hwf _.
  destruct (Hm _ _ _ Hrun Hwf) as (He & ? & ?).
  split; [|done]. eapply ext_mono; [|done]. by intros x ?%elem_of_nil.
Qed.

Lemma Bal_mono {A} (I J : list nat) (m : M A) : I ⊆ J -> Bal I m -> Bal J m.
Proof.
  intros HIJ Hm r a r' Hrun Hwf Hok.
  destruct (Hm _ _ _ Hrun Hwf) as (He & ? & ?);
    [by eapply cur_ok_mono|].
  split; [by eapply ext_mono|done].
Qed.

Lemma Bal_bind {A B} (I : list nat) (m : M A) (k : A -> M B) :
  Bal I m -> (forall a, Bal I (k a)) -> Bal I (bind m k).
Proof.
  intros Hm Hk r b r'' (a & r' & H1 & H2)%bind_Ok Hwf Hok.
  destruct (Hm _ _ _ H1 Hwf Hok) as (He1 & Hwf1 & Hc1).
  destruct (Hk _ _ _ _ H2 Hwf1) as (He2 & Hwf2 & Hc2);
    [by eapply cur_ok_ext|].
  split; [by eapply ext_trans|]. split; [done|congruence].
Qed.

Lemma Bal_forEach {A} (I : list nat) (f : A -> M unit) (xs : list A) :
  (forall x, x ∈ xs -> Bal I (f x)) -> Bal I (forEach f xs).
Proof.
  induction xs as [|x xs IH]; simpl; intros Hf;
    [apply Pure_Bal, Pure_ret|].
  apply Bal_bind; [apply Hf; left|].
  intros _. apply IH. intros y Hy. apply Hf. by right.
Qed.

Lemma Bal_forEachIndexed {A} (I : list nat) (f : nat -> A -> M unit)
    (xs : list A) (i : nat) :
  (forall j x, x ∈ xs -> Bal I (f j x)) -> Bal I (forEachIndexed f i xs).
Proof.
  revert i. induction xs as [|x xs IH]; simpl; intros i Hf;
    [apply Pure_Bal, Pure_ret|].
  apply Bal_bind; [apply Hf; left|].
  intros _. apply IH. intros j y Hy. apply Hf. by right.
Qed.

(** ** Nesting and closing *)

Lemma nestScope_run `{StrictnessInference} type block isMethod defs r a r' :
  __nestScope type block isMethod defs r = Ok a r' ->
  exists sc,
    store r' = store r ++ [sc] /\ cur r' = Some (length (store r)) /\
    Scope.type sc = type /\ Scope.block sc = block /\
    Scope.upper sc = cur r /\ Scope.definitions sc = defs /\
    Scope.references sc = [] /\ Scope.closed sc = false /\
    Scope.isStrict sc =
      isStrictScope type block isMethod (cur r ≫= (store r !!.)) /\
    (isVariableScope type = true ->
     Scope.variableScope sc = length (store r)) /\
    (isVariableScope type = false ->
     exists c up, cur r = Some c /\ store r !! c = Some up /\
       Scope.variableScope sc = Scope.variableScope up) /\
    options (scopeManager r') = options (scopeManager r) /\
    isInnerMethodDefinition r' = isInnerMethodDefinition r.
Proof.
  unfold __nestScope, store, cur.
  destruct (isVariableScope type) eqn:Hv.
  - intros [= <- <-]. eexists. simpl. repeat split; try done.
  - destruct (__currentScope (scopeManager r)) as [c|] eqn:Hc; [|done].
    simpl. destruct (scopes (scopeManager r) !! c) as [up|] eqn:Hup; [|done].
    simpl. intros [= <- <-]. eexists. simpl. repeat split; try done.
    intros _. eauto.
Qed.

Lemma nestScope_ext `{StrictnessInference} type block isMethod defs r a r' :
  __nestScope type block isMethod defs r = Ok a r' -> wf r ->
  ext [nid block] r r' /\ wf r' /\
  descends (store r') (nid block) 1 (cur r') (cur r).
Proof.
  intros (sc & Hst & Hcur & Hty & Hb & Hup & _ & _ & _ & _ & Hv1 & Hv2 & Ho
          & _)%nestScope_run Hwf.
  split; [split|split].
  - done.
  - intros h sc' Hsc'. exists sc'. split; [|apply scope_le_refl].
    rewrite Hst. by apply lookup_app_l_Some.
  - intros h sc' Hh. rewrite Hst. intros Hsc'.
    assert (h = length (store r)) as ->.
    { apply lookup_lt_Some in Hsc'. rewrite length_app in Hsc'.
      simpl in Hsc'. lia. }
    rewrite list_lookup_middle in Hsc' by done.
    injection Hsc' as <-. rewrite Hb. by left.
  - split.
    + intros c. rewrite Hcur, Hst, length_app. intros [= <-]. simpl. lia.
    + intros h sc' u. rewrite Hst. intros Hsc' Hu.
      destruct (decide (h < length (store r))) as [Hlt|Hge].
      * rewrite lookup_app_l in Hsc' by done. by eapply (wf_upper _ Hwf).
      * assert (h = length (store r)) as ->.
        { apply lookup_lt_Some in Hsc'. rewrite length_app in Hsc'.
          simpl in Hsc'. lia. }
        rewrite list_lookup_middle in Hsc' by done.
        injection Hsc' as <-. rewrite Hup in Hu. by apply Hwf.
    + intros h sc'. rewrite Hst. intros Hsc'.
      destruct (decide (h < length (store r))) as [Hlt|Hge].
      * rewrite lookup_app_l in Hsc' by done.
        by eapply (wf_variableScope _ Hwf).
      * assert (h = length (store r)) as ->.
        { apply lookup_lt_Some in Hsc'. rewrite length_app in Hsc'.
          simpl in Hsc'. lia. }
        rewrite list_lookup_middle in Hsc' by done.
        injection Hsc' as <-.
        destruct (isVariableScope type) eqn:Hv; [by rewrite Hv1|].
        destruct Hv2 as (c & up & Hc & Hup' & ->); [done|].
        pose proof (wf_variableScope _ Hwf _ _ Hup').
        pose proof (wf_cur _ Hwf _ Hc). lia.
  - simpl. exists (length (store r)), sc. rewrite Hcur, Hst.
    rewrite list_lookup_middle by done. by rewrite Hb, Hup.
Qed.

Lemma Opens_nestScope `{StrictnessInference} type block isMethod defs :
  Opens (nid block) (__nestScope type block isMethod defs).
Proof. intros r a r' Hrun Hwf. exists 1. by eapply nestScope_ext. Qed.

Lemma Opens_Pure {A} x (m : M A) : Pure m -> Opens x m.
Proof.
  intros Hm r a r' Hrun Hwf.
  destruct (Hm _ _ _ Hrun Hwf) as (He & ? & ?). exists 0.
  split; [|done]. eapply ext_mono; [|done]. by intros y ?%elem_of_nil.
Qed.

Lemma Opens_bind {A B} x (m : M A) (f : A -> M B) :
  Opens x m -> (forall a, Opens x (f a)) -> Opens x (bind m f).
Proof.
  intros Hm Hf r b r'' (a & r' & H1 & H2)%bind_Ok Hwf.
  destruct (Hm _ _ _ H1 Hwf) as (j & He1 & Hwf1 & Hd1).
  destruct (Hf _ _ _ _ H2 Hwf1) as (k & He2 & Hwf2 & Hd2).
  exists (k + j). split; [by eapply ext_trans|]. split; [done|].
  eapply descends_app; [done|]. by eapply descends_ext.
Qed.

(** The loop of [close], one iteration at a time. *)
Lemma close_loop_step (node : Node) (fuel : nat) r h sc :
  cur r = Some h -> store r !! h = Some sc ->
  close_loop (S fuel) node r =
    if same_node node (Scope.block sc) then
      close_loop fuel node
        (set_cur (Scope.upper sc)
           (set_store (<[h := Scope.__close sc]> (store r)) r))
    else Ok tt r.
Proof.
  intros Hc Hsc. cbn [close_loop].
  unfold bind at 1. unfold currentScope. rewrite Hc.
  unfold bind at 1. unfold getScope at 1. rewrite Hsc.
  destruct (same_node node (Scope.block sc)); [|done].
  unfold bind at 1. unfold bind at 1.
  unfold Scope___close, bind, getScope, updateScope. rewrite Hsc.
  cbv beta iota. rewrite Hsc. done.
Qed.

Lemma close_loop_None (node : Node) (fuel : nat) r :
  cur r = None -> close_loop (S fuel) node r = Ok tt r.
Proof. intros Hc. cbn [close_loop]. unfold bind, currentScope. by rewrite Hc. Qed.

Lemma closes_only_refl r : closes_only r r.
Proof. repeat split; auto. Qed.

Lemma closes_only_ext r r' : closes_only r r' -> ext [] r r'.
Proof.
  intros (Ho & _ & Hl & Hs). split; [done| |].
  - intros h sc Hsc. destruct (Hs _ _ Hsc); eauto using scope_le_refl, Monotone_close.
  - intros h sc Hh Hsc%lookup_lt_Some. lia.
Qed.

Lemma close_loop_run (node : Node) (fuel : nat) r k c0 :
  wf r ->
  descends (store r) (nid node) k (cur r) c0 ->
  (forall c sc, c0 = Some c -> store r !! c = Some sc ->
                nid (Scope.block sc) <> nid node) ->
  k < fuel ->
  exists r',
    close_loop fuel node r = Ok tt r' /\ cur r' = c0 /\
    closes_only r r' /\ wf r' /\
    chain (fun sc => nid (Scope.block sc) = nid node /\
                     Scope.closed sc = true)
          (store r') k (cur r) c0.
Proof.
  revert r k. induction fuel as [|fuel IH]; intros r k Hwf Hd Hbase Hk;
    [lia|].
  destruct k as [|k]; simpl in Hd.
  - (* the current scope is not a scope of the node *)
    subst c0. exists r.
    split; [|split; [done|split; [apply closes_only_refl|by split]]].
    destruct (cur r) as [c|] eqn:Hc; [|by apply close_loop_None].
    destruct (lookup_lt_is_Some_2 (store r) c) as [sc Hsc];
      [by apply Hwf|].
    rewrite (close_loop_step _ _ _ _ _ Hc Hsc). unfold same_node.
    destruct (Nat.eqb_spec (nid node) (nid (Scope.block sc))) as [Heq|_];
      [|done].
    exfalso. by eapply Hbase.
  - destruct Hd as (h & sc & Hc & Hsc & Hx & Hd).
    rewrite (close_loop_step _ _ _ _ _ Hc Hsc). unfold same_node.
    rewrite Hx, Nat.eqb_refl.
    set (r1 := set_cur _ _).
    destruct (set_store_insert_ext h sc (Scope.__close sc) r)
      as [Hext0 Hwf0]; auto using Monotone_close.
    assert (Hwf1 : wf r1).
    { split.
      - intros c. unfold r1. rewrite cur_set_cur, store_set_cur,
          store_set_store, length_insert.
        intros Hu. pose proof (wf_upper _ Hwf _ _ _ Hsc Hu).
        apply lookup_lt_Some in Hsc. lia.
      - apply Hwf0.
      - apply Hwf0. }
    assert (Hco1 : closes_only r r1).
    { repeat split; try done.
      - unfold r1. by rewrite store_set_cur, store_set_store, length_insert.
      - intros h' sc' Hsc'. unfold r1.
        rewrite store_set_cur, store_set_store.
        destruct (decide (h = h')) as [<-|Hne].
        + rewrite list_lookup_insert_eq by (by eapply lookup_lt_Some).
          right. congruence.
        + rewrite list_lookup_insert_ne by done. by left. }
    destruct (IH r1 k Hwf1) as (r' & Hrun & Hcur & Hco & Hwf' & Hch).
    + eapply (descends_ext []); [|done]. by apply closes_only_ext.
    + intros c sc' -> Hsc'.
      destruct Hco1 as (_ & _ & Hlen & Hs).
      destruct (lookup_lt_is_Some_2 (store r) c) as [sc0 Hsc0].
      { apply lookup_lt_Some in Hsc'. lia. }
      destruct (Hs _ _ Hsc0) as [Hsame|Hcl];
        assert (nid (Scope.block sc') = nid (Scope.block sc0)) as ->
          by (by simplify_eq); by eapply Hbase.
    + lia.
    + exists r'. split; [done|]. split; [done|]. split; [|split; [done|]].
      * destruct Hco1 as (Ho1 & Hi1 & Hl1 & Hs1).
        destruct Hco as (Ho & Hi & Hl & Hs).
        repeat split; try congruence.
        intros h' sc' Hsc'.
        destruct (Hs1 _ _ Hsc') as [H1|H1];
          destruct (Hs _ _ H1) as [H2|H2]; auto.
      * simpl. destruct Hco as (_ & _ & _ & Hs).
        destruct (Hs h (Scope.__close sc)) as [Hh|Hh].
        { unfold r1. rewrite store_set_cur, store_set_store.
          by rewrite list_lookup_insert_eq by (by eapply lookup_lt_Some). }
        all: eexists h, _; split; [done|]; split; [exact Hh|]; done.
Qed.

(** The run of scopes of a node on top of the current scope. *)
Lemma descends_max (x : nat) r :
  wf r ->
  exists k c0,
    descends (store r) x k (cur r) c0 /\
    (forall c sc, c0 = Some c -> store r !! c = Some sc ->
                  nid (Scope.block sc) <> x).
Proof.
  intros Hwf.
  assert (Hgen : forall n from,
            (forall c, from = Some c -> c < n) ->
            (forall c, from = Some c -> c < length (store r)) ->
            exists k c0,
              descends (store r) x k from c0 /\
              (forall c sc, c0 = Some c -> store r !! c = Some sc ->
                            nid (Scope.block sc) <> x)).
  { induction n as [|n IH]; intros from Hlt Hlen.
    - destruct from as [c|]; [specialize (Hlt c eq_refl); lia|].
      exists 0, None. split; [done|]. by intros c sc ?.
    - destruct from as [c|]; [|exists 0, None; split; [done|by intros]].
      destruct (lookup_lt_is_Some_2 (store r) c) as [sc Hsc]; [by auto|].
      destruct (decide (nid (Scope.block sc) = x)) as [Hx|Hx].
      + destruct (IH (Scope.upper sc)) as (k & c0 & Hd & Hb).
        * intros u Hu. pose proof (wf_upper _ Hwf _ _ _ Hsc Hu).
          specialize (Hlt c eq_refl). lia.
        * intros u Hu. pose proof (wf_upper _ Hwf _ _ _ Hsc Hu).
          specialize (Hlen c eq_refl). lia.
        * exists (S k), c0. split; [|done]. simpl. eauto 8.
      + exists 0, (Some c). split; [done|].
        intros c' sc' [= <-] Hsc'. congruence. }
  apply (Hgen (length (store r))); apply Hwf.
Qed.

Lemma close_run (node : Node) r k c0 :
  wf r ->
  descends (store r) (nid node) k (cur r) c0 ->
  (forall c sc, c0 = Some c -> store r !! c = Some sc ->
                nid (Scope.block sc) <> nid node) ->
  exists r',
    close node r = Ok tt r' /\ cur r' = c0 /\
    closes_only r r' /\ wf r' /\
    chain (fun sc => nid (Scope.block sc) = nid node /\
                     Scope.closed sc = true)
          (store r') k (cur r) c0.
Proof.
  intros Hwf Hd Hb. unfold close. apply close_loop_run; try done.
  destruct (cur r) as [h|] eqn:Hc.
  - pose proof (descends_bound _ _ _ _ _ Hwf Hd).
    pose proof (wf_cur _ Hwf _ Hc). fold (store r). lia.
  - destruct k as [|k]; [lia|]. by destruct Hd as (? & ? & ? & _).
Qed.

(** ** Computations that end with [close] *)

Lemma Closes_close (I : list nat) (node : Node) (k : nat) :
  Closes I (nid node) k (close node).
Proof.
  intros r a r' Hrun Hwf c0 Hd Hb.
  destruct (close_run node r k c0) as (r2 & Hrun2 & Hc & Hco & Hwf2 & _);
    try done.
  { intros c sc Hc Hsc Hx. eapply Hb; [done..|]. rewrite Hx. by left. }
  rewrite Hrun in Hrun2. destruct a. injection Hrun2 as <-.
  split; [|done]. eapply ext_mono; [|by apply closes_only_ext].
  by intros x ?%elem_of_nil.
Qed.

Lemma chain_lt (P : Scope.t -> Prop) r k from to c :
  wf r -> (forall h, from = Some h -> h < length (store r)) ->
  chain P (store r) k from to -> to = Some c -> c < length (store r).
Proof.
  intros Hwf. revert from. induction k as [|k IH]; simpl.
  - intros from Hfrom <- ?. auto.
  - intros from Hfrom (h & sc & -> & Hsc & _ & Hd) Hto.
    apply (IH (Scope.upper sc)); [|done..].
    intros u Hu. pose proof (wf_upper _ Hwf _ _ _ Hsc Hu).
    specialize (Hfrom h eq_refl). lia.
Qed.

Lemma Closes_bind_Bal {A B} (I : list nat) x k (m : M A) (f : A -> M B) :
  x ∉ I -> Bal I m -> (forall a, Closes I x k (f a)) ->
  Closes I x k (bind m f).
Proof.
  intros Hx Hm Hf r b r'' (a & r' & H1 & H2)%bind_Ok Hwf c0 Hd Hb.
  destruct (Hm _ _ _ H1 Hwf) as (He1 & Hwf1 & Hc1).
  { intros c sc Hc Hsc. destruct k as [|k]; simpl in Hd.
    - subst c0. intros Hin. eapply Hb; [done..|]. by right.
    - destruct Hd as (h & sc' & Hh & Hsc' & Hx' & _).
      assert (sc' = sc) as -> by congruence. by rewrite Hx'. }
  assert (He1' : ext (x :: I) r r').
  { eapply ext_mono; [|done]. intros y ?. by right. }
  destruct (Hf _ _ _ _ H2 Hwf1 c0) as (He2 & Hwf2 & Hc2).
  - rewrite Hc1. by eapply descends_ext.
  - intros c sc' -> Hsc'.
    destruct (lookup_lt_is_Some_2 (store r) c) as [sc Hsc].
    { eapply chain_lt; [done| |done..]. apply Hwf. }
    destruct (ext_old _ _ _ He1 _ _ Hsc) as (sc2 & Hsc2 & Hle).
    assert (sc2 = sc') as -> by congruence.
    rewrite <- (le_block _ _ Hle). by eapply Hb.
  - split; [by eapply ext_trans|done].
Qed.

Lemma Closes_bind_Opens {A B} (I : list nat) x k (m : M A) (f : A -> M B) :
  Opens x m -> (forall a j, Closes I x j (f a)) ->
  Closes I x k (bind m f).
Proof.
  intros Hm Hf r b r'' (a & r' & H1 & H2)%bind_Ok Hwf c0 Hd Hb.
  destruct (Hm _ _ _ H1 Hwf) as (j & He1 & Hwf1 & Hd1).
  assert (He1' : ext (x :: I) r r').
  { eapply ext_mono; [|done]. intros y ->%list_elem_of_singleton. by left. }
  destruct (Hf a (j + k) _ _ _ H2 Hwf1 c0) as (He2 & Hwf2 & Hc2).
  - eapply descends_app; [done|]. by eapply descends_ext.
  - intros c sc' -> Hsc'.
    destruct (lookup_lt_is_Some_2 (store r) c) as [sc Hsc].
    { eapply chain_lt; [done| |done..]. apply Hwf. }
    destruct (ext_old _ _ _ He1 _ _ Hsc) as (sc2 & Hsc2 & Hle).
    assert (sc2 = sc') as -> by congruence.
    rewrite <- (le_block _ _ Hle). by eapply Hb.
  - split; [by eapply ext_trans|done].
Qed.

(** A computation that closes what it opened is balanced. *)
Lemma Closes_Bal {A} (I : list nat) x (m : M A) :
  Closes I x 0 m -> Bal (x :: I) m.
Proof.
  intros Hm r a r' Hrun Hwf Hok.
  apply (Hm _ _ _ Hrun Hwf (cur r)); [done|].
  intros c sc Hc Hsc. by eapply Hok.
Qed.

(** ** Patterns *)

Lemma length_ids_elem (c : Node) (l : list Node) :
  c ∈ l -> length (ids c) <= length (flat_map ids l).
Proof.
  induction l as [|d l IH]; simpl; [by intros ?%elem_of_nil|].
  rewrite length_app. intros [->|Hc]%elem_of_cons; [lia|].
  specialize (IH Hc). lia.
Qed.

(** Induction on trees: a property that passes from the children of a node
    to the node holds of every node. *)
Lemma Node_children_ind (P : Node -> Prop) :
  (forall n, (forall c, c ∈ children n -> P c) -> P n) -> forall n, P n.
Proof.
  intros Hstep n.
  remember (length (ids n)) as size eqn:Hsize.
  revert n Hsize. induction size as [size IH] using lt_wf_ind.
  intros n ->. apply Hstep. intros c Hc. eapply IH; [|done].
  rewrite (ids_children n). simpl.
  pose proof (length_ids_elem _ _ Hc). lia.
Qed.

(** Membership in an explicit list. *)
Ltac mem := simpl; rewrite ?elem_of_app, ?elem_of_cons; eauto 10.

Lemma psub_cons c m n : c ∈ children m -> psub m n -> psub c n.
Proof. intros Hc Hm. eapply psub_trans; [by apply psub_child|done]. Qed.

Lemma elem_of_concat_map {A B} (f : A -> list B) (l : list A) (x : B) :
  x ∈ concat (map f l) <-> exists y, y ∈ l /\ x ∈ f y.
Proof.
  rewrite list_elem_of_In, in_concat. split.
  - intros (ys & (y & <- & Hy)%in_map_iff & Hx).
    exists y. by rewrite !list_elem_of_In.
  - intros (y & Hy & Hx). exists (f y). rewrite in_map_iff.
    split; [exists y|]; by rewrite <- ?list_elem_of_In.
Qed.

(** The right-hand nodes that the decomposition of a pattern collects are
    proper descendants of the pattern. *)
Lemma rightHandNodes_psub (node : Node) :
  forall root assignments restElements rn,
    rn ∈ (PatternVisitor.visit root assignments restElements node).2 ->
    psub rn node.
Proof.
  induction node as [node IH] using Node_children_ind.
  intros root assignments restElements rn.
  destruct node; try (simpl; by intros ?%elem_of_nil);
    cbn [PatternVisitor.visit].
  - (* AssignmentPattern *)
    destruct (PatternVisitor.visit _ _ _ node1) as [lv rh] eqn:Hv. simpl.
    intros [Hrn| ->%list_elem_of_singleton]%elem_of_app.
    + eapply psub_trans; [|apply psub_child; simpl; by left].
      eapply (IH node1); [simpl; by left|]. by rewrite Hv.
    + apply psub_child. mem.
  - (* ArrayPattern *)
    cbn [snd]. rewrite map_map.
    intros ([e|] & He & Hrn)%elem_of_concat_map;
      [|by apply elem_of_nil in Hrn].
    assert (He' : e ∈ flat_map opt_nodes elements).
    { apply list_elem_of_In, in_flat_map. exists (Some e).
      split; [by apply list_elem_of_In|by left]. }
    eapply psub_trans; [by eapply (IH e He')|by apply psub_child].
  - (* ObjectPattern *)
    cbn [snd]. rewrite map_map.
    intros (e & He & Hrn)%elem_of_concat_map.
    eapply psub_trans; [by eapply IH|by apply psub_child].
  - (* RestElement *)
    intros Hrn. eapply psub_trans; [|apply psub_child; simpl; by left].
    eapply (IH node); [simpl; by left|done].
  - (* Property *)
    destruct (PatternVisitor.visit _ _ _ node2) as [lv rh] eqn:Hv. simpl.
    intros [Hrn|Hrn]%elem_of_app.
    + destruct computed; [|by apply elem_of_nil in Hrn].
      apply list_elem_of_singleton in Hrn as ->.
      apply psub_child. simpl. by left.
    + eapply psub_trans; [|apply psub_child; mem].
      eapply (IH node2); [mem|]. by rewrite Hv.
  - (* MemberExpression *)
    cbn [snd]. intros [Hrn| ->%list_elem_of_singleton]%elem_of_app.
    + destruct computed; [|by apply elem_of_nil in Hrn].
      apply list_elem_of_singleton in Hrn as ->.
      apply psub_child. mem.
    + apply psub_child. simpl. by left.
Qed.

(** ** The walk is balanced *)

(** Purity of a composed computation, by its structure. *)
Ltac pure :=
  repeat first
    [ apply Pure_ret | apply Pure_throw
    | apply Pure_currentScope_throw | apply Pure_currentScope
    | apply Pure_getScope | apply Pure_getOptions | apply Pure_assert
    | apply Pure_get_isInnerMethodDefinition
    | apply Pure_define | apply Pure_referencing
    | apply Pure_referencingDefaultValue
    | apply Pure_pushInnerMethodDefinition
    | apply Pure_popInnerMethodDefinition
    | apply Pure_updateScope; solve [auto with walk]
    | apply Pure_bind; [|intros ?]
    | match goal with
      | |- Pure (match ?x with _ => _ end) => destruct x
      end ].

Lemma Pure_visitPattern_callback visit p (callback : PatternVisitorCallback) :
  (forall pattern info, Pure (callback pattern info)) ->
  Pure (visitPattern_callback visit p callback).
Proof.
  intros Hcb. unfold visitPattern_callback, visitPattern,
    traverseIdentifierInPattern. simpl.
  apply Pure_bind; [|intros _; apply Pure_ret].
  apply Pure_forEach. intros [pattern info] _. apply Hcb.
Qed.

Lemma Pure_Importer_visit visit fuel d c : Pure (Importer_visit visit fuel d c).
Proof.
  revert c. induction fuel as [|fuel IH]; intros c; [apply Pure_throw|].
  cbn [Importer_visit]. unfold Importer_dispatch.
  destruct c; try (by apply Pure_forEach; intros ? _; apply IH).
  unfold Importer_visitImport. apply Pure_visitPattern_callback.
  intros pattern info. pure.
Qed.

Section Dispatch.
Context `{StrictnessInference}.
Variable visit : Node -> M unit.
Variable Importer_visit : Node -> Node -> M unit.
Hypothesis Hvisit : forall c, distinct_nodes c -> Bal (ids c) (visit c).
Hypothesis HImporter : forall d c, Pure (Importer_visit d c).

Lemma Bal_visit_psub n c :
  distinct_nodes n -> psub c n -> Bal (flat_map ids (children n)) (visit c).
Proof using Hvisit.
  intros Hn Hc. eapply Bal_mono; [by apply psub_ids|].
  apply Hvisit. by eapply psub_distinct.
Qed.

Lemma Bal_visitChildren n :
  distinct_nodes n -> Bal (flat_map ids (children n)) (visitChildren visit n).
Proof using Hvisit.
  intros Hn. apply Bal_forEach. intros c Hc.
  by apply Bal_visit_psub, psub_child.
Qed.

Lemma Bal_visitPattern n p opts (callback : PatternVisitorCallback) :
  distinct_nodes n -> psub p n ->
  (forall pattern info, Pure (callback pattern info)) ->
  Bal (flat_map ids (children n)) (visitPattern visit p opts callback).
Proof using Hvisit.
  intros Hn Hp Hcb. unfold visitPattern, traverseIdentifierInPattern.
  apply Bal_bind.
  - apply Pure_Bal, Pure_forEach. intros [pattern info] _. apply Hcb.
  - intros _. destruct (PatternVisitor.processRightHandNodes opts);
      [|apply Pure_Bal, Pure_ret].
    apply Bal_forEach. intros rn Hrn. apply Bal_visit_psub; [done|].
    eapply psub_trans; [|done]. by eapply rightHandNodes_psub.
Qed.

(** Balance of the parts of a handler that visit descendants of [n]. *)
Ltac bal_step Hn :=
  match type of Hn with
  | distinct_nodes ?n =>
      match goal with
      | |- Bal _ (match ?x with _ => _ end) => destruct x
      | |- Bal _ (visit_opt _ ?o) => destruct o; unfold visit_opt
      | |- Bal _ (visitChildren _ _) =>
          first [apply (Bal_visitChildren n Hn)|unfold visitChildren]
      | |- Bal _ (visitPattern _ _ _ _) =>
          apply (Bal_visitPattern n); [exact Hn| |intros ? ?; solve [pure]]
      | |- Bal _ (visitPattern_callback _ _ _) =>
          apply Pure_Bal, Pure_visitPattern_callback; intros ? ?;
          solve [pure]
      | |- Bal _ (visit _) => apply (Bal_visit_psub n); [exact Hn|]
      | |- Bal _ (forEach _ _) => apply Bal_forEach; intros ? ?
      | |- Bal _ (forEachIndexed _ _ _) =>
          apply Bal_forEachIndexed; intros ? ? ?
      | |- Bal _ (bind _ _) => apply Bal_bind; [|intros ?]
      | |- Bal _ _ => apply Pure_Bal; solve [pure]
      end
  end.

Ltac bal Hn := repeat bal_step Hn.

(** Descendants named by their position in the tree. *)
Ltac sub :=
  first
    [ apply psub_child; solve [mem]
    | eapply psub_trans; [apply psub_child; solve [mem]|];
      apply psub_child; solve [mem]
    | eapply psub_trans; [apply psub_child; solve [mem]|];
      eapply psub_trans; [apply psub_child; solve [mem]|];
      apply psub_child; solve [mem] ].

(** The handlers that end with [close]. *)
Ltac nests :=
  unfold __nestGlobalScope, __nestModuleScope, __nestFunctionScope,
    __nestFunctionExpressionNameScope, __nestBlockScope, __nestSwitchScope,
    __nestCatchScope, __nestWithScope, __nestClassScope, __nestForScope.

(** Computations that only nest scopes for [n]. *)
Ltac opens :=
  nests;
  repeat first
    [ match goal with
      | |- Opens _ (__nestScope _ _ _ _) => apply Opens_nestScope
      | |- Opens _ (match ?x with _ => _ end) => destruct x
      | |- Opens _ (bind _ _) => apply Opens_bind; [|intros ?]
      | |- Opens _ _ => apply Opens_Pure; solve [pure]
      end ].

Ltac closes Hn :=
  repeat first
    [ match goal with
      | |- Closes _ _ _ (close _) => apply Closes_close
      | |- Closes _ _ _ (match ?x with _ => _ end) => destruct x
      | |- Closes _ _ _ (bind _ _) =>
          first
            [ apply Closes_bind_Opens; [solve [opens]|intros ? ?]
            | apply Closes_bind_Bal;
              [by apply distinct_root|bal Hn|intros ?] ]
      end ].

(** The start of every proof below: the handler of a node of the wrong
    type throws; otherwise the identities of the node split into its own
    and those of its descendants. *)
Ltac handler Hn :=
  match type of Hn with
  | distinct_nodes ?n =>
      rewrite (ids_children n);
      destruct n; try apply Pure_Bal, Pure_throw
  end.

Ltac flat Hn := eapply Bal_mono; [intros ? ?; by right|]; bal Hn; try sub.

Lemma Bal_AssignmentExpression n :
  distinct_nodes n -> Bal (ids n) (AssignmentExpression visit n).
Proof using Hvisit.
  intros Hn. handler Hn. unfold AssignmentExpression. flat Hn.
Qed.

Lemma Bal_UpdateExpression n :
  distinct_nodes n -> Bal (ids n) (UpdateExpression visit n).
Proof using Hvisit.
  intros Hn. handler Hn. unfold UpdateExpression. flat Hn.
Qed.

Lemma Bal_MemberExpression n :
  distinct_nodes n -> Bal (ids n) (MemberExpression visit n).
Proof using Hvisit.
  intros Hn. handler Hn. unfold MemberExpression. flat Hn.
Qed.

Lemma Bal_visitProperty n :
  distinct_nodes n -> Bal (ids n) (visitProperty visit n).
Proof using Hvisit.
  intros Hn. handler Hn; unfold visitProperty; flat Hn.
Qed.

Lemma Bal_LabeledStatement n :
  distinct_nodes n -> Bal (ids n) (LabeledStatement visit n).
Proof using Hvisit.
  intros Hn. handler Hn. unfold LabeledStatement. flat Hn.
Qed.

Lemma Bal_CallExpression n :
  distinct_nodes n -> Bal (ids n) (CallExpression visit n).
Proof using Hvisit.
  intros Hn. handler Hn. unfold CallExpression. flat Hn.
Qed.

Lemma Bal_visitExportDeclaration n :
  distinct_nodes n -> Bal (ids n) (visitExportDeclaration visit n).
Proof using Hvisit.
  intros Hn. handler Hn. unfold visitExportDeclaration. flat Hn.
Qed.

Lemma Bal_ExportSpecifier n :
  distinct_nodes n -> Bal (ids n) (ExportSpecifier visit n).
Proof using Hvisit.
  intros Hn. handler Hn. unfold ExportSpecifier. flat Hn.
Qed.

Lemma Bal_ImportDeclaration n : Bal (ids n) (ImportDeclaration Importer_visit n).
Proof using HImporter.
  apply Pure_Bal. unfold ImportDeclaration. pure. apply HImporter.
Qed.

Lemma Bal_VariableDeclaration n :
  distinct_nodes n -> Bal (ids n) (VariableDeclaration visit n).
Proof using Hvisit.
  intros Hn. handler Hn. unfold VariableDeclaration.
  eapply Bal_mono; [intros ? ?; by right|].
  apply Bal_bind; [apply Pure_Bal; pure|]. intros c.
  apply Bal_bind; [apply Pure_Bal; pure|]. intros target.
  apply Bal_forEachIndexed. intros i decl Hdecl.
  apply Bal_bind.
  - unfold visitVariableDeclaration.
    destruct (declarations !! i) as [d|] eqn:Hd;
      [|apply Pure_Bal, Pure_throw].
    apply list_elem_of_lookup_2 in Hd.
    destruct d; try apply Pure_Bal, Pure_throw.
    bal Hn. eapply psub_trans; apply psub_child; [|done]. mem.
  - intros _. destruct decl; try apply Pure_Bal, Pure_ret.
    bal Hn. eapply psub_trans; apply psub_child; [|done]. mem.
Qed.

Lemma Bal_BlockStatement n :
  distinct_nodes n -> Bal (ids n) (BlockStatement visit n).
Proof using Hvisit.
  intros Hn. rewrite (ids_children n). unfold BlockStatement.
  apply Closes_Bal. closes Hn.
Qed.

Lemma Bal_ForStatement n :
  distinct_nodes n -> Bal (ids n) (ForStatement visit n).
Proof using Hvisit.
  intros Hn. handler Hn. unfold ForStatement.
  apply Closes_Bal. closes Hn.
Qed.

Lemma Bal_SwitchStatement n :
  distinct_nodes n -> Bal (ids n) (SwitchStatement visit n).
Proof using Hvisit.
  intros Hn. handler Hn. unfold SwitchStatement.
  apply Bal_bind; [flat Hn|]. intros _.
  apply Closes_Bal. closes Hn. sub.
Qed.

Lemma Bal_WithStatement n :
  distinct_nodes n -> Bal (ids n) (WithStatement visit n).
Proof using Hvisit.
  intros Hn. handler Hn. unfold WithStatement.
  apply Bal_bind; [flat Hn|]. intros _.
  apply Closes_Bal. closes Hn. sub.
Qed.

Lemma Bal_CatchClause n :
  distinct_nodes n -> Bal (ids n) (CatchClause visit n).
Proof using Hvisit.
  intros Hn. handler Hn. unfold CatchClause.
  apply Closes_Bal. closes Hn; sub.
Qed.

Lemma Bal_Program n :
  distinct_nodes n -> Bal (ids n) (Program visit n).
Proof using Hvisit.
  intros Hn. rewrite (ids_children n). unfold Program.
  apply Closes_Bal. unfold Program_scopes. closes Hn.
Qed.

Lemma Bal_visitClass n :
  distinct_nodes n -> Bal (ids n) (visitClass visit n).
Proof using Hvisit.
  intros Hn. handler Hn. unfold visitClass.
  apply Bal_bind; [flat Hn|]. intros _.
  apply Bal_bind; [flat Hn|]. intros _.
  apply Closes_Bal. closes Hn; sub.
Qed.

Lemma Bal_visitForIn n :
  distinct_nodes n -> Bal (ids n) (visitForIn visit n).
Proof using Hvisit.
  intros Hn. handler Hn. unfold visitForIn.
  apply Closes_Bal. closes Hn; try sub.
Qed.

Lemma Bal_visitFunction n :
  distinct_nodes n -> Bal (ids n) (visitFunction visit n).
Proof using Hvisit.
  intros Hn. handler Hn. unfold visitFunction.
  apply Bal_bind; [flat Hn|]. intros _.
  apply Closes_Bal. closes Hn; try sub.
Qed.

Lemma Bal_dispatch n :
  distinct_nodes n -> Bal (ids n) (dispatch visit Importer_visit n).
Proof using Hvisit HImporter.
  intros Hn.
  destruct n; cbn [dispatch];
    first
      [ by apply Bal_AssignmentExpression | by apply Bal_CatchClause
      | by apply Bal_Program | by apply Bal_UpdateExpression
      | by apply Bal_MemberExpression | by apply Bal_visitProperty
      | by apply Bal_LabeledStatement | by apply Bal_ForStatement
      | by apply Bal_visitClass | by apply Bal_CallExpression
      | by apply Bal_BlockStatement | by apply Bal_WithStatement
      | by apply Bal_VariableDeclaration | by apply Bal_SwitchStatement
      | by apply Bal_visitFunction | by apply Bal_visitForIn
      | by apply Bal_ImportDeclaration | by apply Bal_visitExportDeclaration
      | by apply Bal_ExportSpecifier
      | apply Pure_Bal; unfold Identifier, ThisExpression; solve [pure]
      | rewrite ids_children; eapply Bal_mono; [intros ? ?; by right|];
        by apply Bal_visitChildren ].
Qed.

End Dispatch.

(** The walk is balanced: a visit of a tree of distinct nodes, started in a
    store whose current scope belongs to none of them, creates scopes for
    nodes of the tree only, keeps the scopes that exist, and ends with the
    current scope it started with. *)
Lemma visit_Bal `{StrictnessInference} (fuel : nat) (n : Node) :
  distinct_nodes n -> Bal (ids n) (visit fuel n).
Proof.
  revert n. induction fuel as [|fuel IH]; intros n Hn;
    [apply Pure_Bal, Pure_throw|].
  cbn [visit]. apply Bal_dispatch; [done| |done].
  intros d c. apply Pure_Importer_visit.
Qed.

(** ** Deciding the hypotheses *)

Lemma wfb_sound r : wfb r = true -> wf r.
Proof.
  unfold wfb. intros [Hc Hs]%andb_true_iff.
  assert (Hall : forall h sc, store r !! h = Some sc ->
            match Scope.upper sc with Some u => Nat.ltb u h | None => true end
            && Nat.leb (Scope.variableScope sc) h = true).
  { intros h sc Hsc. rewrite forallb_forall in Hs. apply Hs.
    apply list_elem_of_In, list_elem_of_lookup. exists h.
    by rewrite list_lookup_imap, Hsc. }
  split.
  - intros c Hcur. rewrite Hcur in Hc. by apply Nat.ltb_lt.
  - intros h sc u Hsc Hu. apply Hall in Hsc. rewrite Hu in Hsc.
    apply andb_true_iff in Hsc as [?%Nat.ltb_lt _]. done.
  - intros h sc Hsc. apply Hall in Hsc.
    apply andb_true_iff in Hsc as [_ ?%Nat.leb_le]. done.
Qed.

Lemma cur_okb_sound I r : cur_okb I r = true -> cur_ok I r.
Proof.
  unfold cur_okb. intros Hb c sc Hc Hsc. rewrite Hc in Hb. simpl in Hb.
  rewrite Hsc in Hb. apply negb_true_iff, bool_decide_eq_false in Hb. done.
Qed.

Lemma distinct_nodesb_sound n : distinct_nodesb n = true -> distinct_nodes n.
Proof. apply bool_decide_eq_true_1. Qed.

Lemma wf_new opts : wf (new_Referencer (new_ScopeManager opts)).
Proof. by apply wfb_sound. Qed.


(** ** Loops *)

Lemma forEach_app {A} (f : A -> M unit) (xs ys : list A) r :
  forEach f (xs ++ ys) r = (forEach f xs ;; forEach f ys) r.
Proof.
  revert r. induction xs as [|x xs IH]; intros r.
  { reflexivity. }
  simpl.
  unfold bind. destruct (f x r) as [[] r1|e]; [|reflexivity].
  by rewrite IH.
Qed.


(** ** Observing one scope along a run *)

Lemma currentScope_throw_run r c r' :
  currentScope_throw r = Ok c r' -> cur r = Some c /\ r' = r.
Proof.
  unfold currentScope_throw, bind, currentScope.
  destruct (cur r) as [h|]; [|done]. by intros [= <- <-].
Qed.

Lemma getScope_run h r sc r' :
  getScope h r = Ok sc r' -> store r !! h = Some sc /\ r' = r.
Proof.
  unfold getScope. destruct (store r !! h) as [sc0|]; [|done].
  by intros [= <- <-].
Qed.

Lemma getOptions_run r o r' :
  getOptions r = Ok o r' -> o = options (scopeManager r) /\ r' = r.
Proof. by intros [= <- <-]. Qed.

(** A scope object and the handle of its update. *)
Lemma updateScope_obs h f r a r' :
  updateScope h f r = Ok a r' ->
  cur r' = cur r /\ is_Some (store r !! h) /\
  forall h',
    store r' !! h' =
    if decide (h' = h) then f <$> store r !! h' else store r !! h'.
Proof.
  intros (sc & Hsc & ->)%updateScope_run. split; [done|]. split; [by eauto|].
  intros h'. rewrite store_set_store. case_decide as Hh.
  - subst h'. rewrite list_lookup_insert_eq by (by eapply lookup_lt_Some).
    by rewrite Hsc.
  - by rewrite list_lookup_insert_ne.
Qed.

Lemma define_obs h n d r a r' :
  __define h n d r = Ok a r' ->
  cur r' = cur r /\
  (forall h', defs r' h' = defs r h' ++ if decide (h' = h) then [d] else [])
  /\ (forall h', refs r' h' = refs r h')
  /\ (forall h', strictAt r' h' = strictAt r h').
Proof.
  intros (Hc & [sc Hsc] & Hs)%updateScope_obs. split; [done|].
  unfold defs, refs, strictAt.
  repeat split; intros h'; rewrite Hs; case_decide; subst;
    rewrite ?Hsc; try destruct (store r !! h'); simpl;
    by rewrite ?app_nil_r.
Qed.

Lemma referencing_obs h x r a r' :
  __referencing h x r = Ok a r' ->
  cur r' = cur r /\
  (forall h', refs r' h' = refs r h' ++ if decide (h' = h) then [x] else [])
  /\ (forall h', defs r' h' = defs r h')
  /\ (forall h', strictAt r' h' = strictAt r h').
Proof.
  intros (Hc & [sc Hsc] & Hs)%updateScope_obs. split; [done|].
  unfold defs, refs, strictAt.
  repeat split; intros h'; rewrite Hs; case_decide; subst;
    rewrite ?Hsc; try destruct (store r !! h'); simpl;
    by rewrite ?app_nil_r.
Qed.

(** A loop whose steps each append to an observation. *)
Lemma forEach_obs {A X} (f : A -> M unit) (P : Referencer -> Prop)
    (obs : Referencer -> list X) (D : A -> list X) (xs : list A) :
  (forall x r r', x ∈ xs -> P r -> f x r = Ok tt r' ->
                  P r' /\ obs r' = obs r ++ D x) ->
  forall r r', P r -> forEach f xs r = Ok tt r' ->
               P r' /\ obs r' = obs r ++ flat_map D xs.
Proof.
  induction xs as [|x xs IH]; simpl; intros Hf r r' HP Hrun.
  - apply ret_Ok in Hrun as [_ <-]. by rewrite app_nil_r.
  - apply bind_Ok in Hrun as ([] & r1 & H1 & H2).
    destruct (Hf x r r1) as [HP1 Ho1]; [by left|done..|].
    destruct (IH (fun y r r' Hy => Hf y r r' (list_elem_of_further _ _ _ Hy))
                r1 r' HP1 H2) as [HP' Ho'].
    split; [done|]. by rewrite Ho', Ho1, app_assoc.
Qed.

Lemma flat_map_singleton_map {A B} (f : A -> B) (l : list A) :
  flat_map (fun x => [f x]) l = map f l.
Proof. induction l as [|x l IH]; simpl; by rewrite ?IH. Qed.

(** The writes of the default values of a leaf. *)
Lemma referencingDefaultValue_obs pattern assignments mig init c b r r' :
  at_scope c b r ->
  referencingDefaultValue pattern assignments mig init r = Ok tt r' ->
  at_scope c b r' /\
  refs r' c = refs r c ++ defaultValueReferences pattern assignments mig init.
Proof.
  intros HP Hrun. unfold defaultValueReferences.
  rewrite <- flat_map_singleton_map.
  eapply (forEach_obs _ (at_scope c b) (fun r => refs r c)); [|done..].
  clear. intros a r r' _ [Hc Hb] Hrun. inv_run Hrun.
  apply currentScope_throw_run in Hrun0 as [Hc0 ->].
  assert (a0 = c) as -> by congruence.
  apply referencing_obs in Hrun as (Hc' & Hr & _ & Hs).
  split; [split; congruence|]. rewrite Hr. by rewrite decide_True.
Qed.

(** ** Visits of descendants *)

Lemma Bal_visit_sub `{StrictnessInference} (fuel : nat) (n c : Node) :
  distinct_nodes n -> psub c n -> Bal (ids n) (visit fuel c).
Proof.
  intros Hn Hc. eapply Bal_mono; [|apply visit_Bal].
  - rewrite (ids_children n). intros x Hx. right. by eapply psub_ids.
  - by eapply psub_distinct.
Qed.


(** What an extension keeps of a scope. *)
Lemma ext_refs (I : list nat) r r' h :
  ext I r r' -> h < length (store r) ->
  exists more, refs r' h = refs r h ++ more.
Proof.
  intros He Hh. destruct (lookup_lt_is_Some_2 _ _ Hh) as [sc Hsc].
  destruct (ext_old _ _ _ He _ _ Hsc) as (sc' & Hsc' & Hle).
  unfold refs. rewrite Hsc, Hsc'. apply (le_references _ _ Hle).
Qed.

Lemma ext_defs (I : list nat) r r' h :
  ext I r r' -> h < length (store r) ->
  exists more, defs r' h = defs r h ++ more.
Proof.
  intros He Hh. destruct (lookup_lt_is_Some_2 _ _ Hh) as [sc Hsc].
  destruct (ext_old _ _ _ He _ _ Hsc) as (sc' & Hsc' & Hle).
  unfold defs. rewrite Hsc, Hsc'. apply (le_definitions _ _ Hle).
Qed.

Lemma Bal_visit_psub' `{StrictnessInference} (fuel : nat) (n c : Node) :
  distinct_nodes n -> psub c n ->
  Bal (flat_map ids (children n)) (visit fuel c).
Proof.
  intros Hn Hc. eapply Bal_mono; [by apply psub_ids|].
  apply visit_Bal. by eapply psub_distinct.
Qed.

Lemma cur_ok_root (n : Node) r :
  cur_ok (ids n) r -> cur_ok (flat_map ids (children n)) r.
Proof.
  apply cur_ok_mono. rewrite (ids_children n). intros x Hx. by right.
Qed.

(** [close] closes scopes and does nothing else. *)
Lemma close_closes_only (node : Node) r a r' :
  wf r -> close node r = Ok a r' -> closes_only r r' /\ wf r'.
Proof.
  intros Hwf Hrun.
  destruct (descends_max (nid node) r Hwf) as (k & c0 & Hd & Hb).
  destruct (close_run node r k c0 Hwf Hd Hb)
    as (r2 & Hrun2 & _ & Hco & Hwf2 & _).
  rewrite Hrun in Hrun2. destruct a. by injection Hrun2 as <-.
Qed.

Lemma closes_only_refs r r' h : closes_only r r' -> refs r' h = refs r h.
Proof.
  intros (_ & _ & Hlen & Hs). unfold refs.
  destruct (store r !! h) as [sc|] eqn:Hsc.
  - by destruct (Hs _ _ Hsc) as [-> | ->].
  - apply lookup_ge_None in Hsc. rewrite lookup_ge_None_2 by lia. done.
Qed.

Lemma closes_only_defs r r' h : closes_only r r' -> defs r' h = defs r h.
Proof.
  intros (_ & _ & Hlen & Hs). unfold defs.
  destruct (store r !! h) as [sc|] eqn:Hsc.
  - by destruct (Hs _ _ Hsc) as [-> | ->].
  - apply lookup_ge_None in Hsc. rewrite lookup_ge_None_2 by lia. done.
Qed.

(** The state after a scope is nested. *)
Lemma nestScope_obs `{StrictnessInference} type block isMethod ds r a r' :
  __nestScope type block isMethod ds r = Ok a r' ->
  cur r' = Some (length (store r)) /\
  length (store r') = S (length (store r)) /\
  refs r' (length (store r)) = [] /\
  defs r' (length (store r)) = ds /\
  (forall h, h < length (store r) -> store r' !! h = store r !! h).
Proof.
  intros (sc & Hst & Hcur & _ & _ & _ & Hd & Hr & _)%nestScope_run.
  split; [done|]. unfold refs, defs. rewrite Hst, length_app.
  rewrite list_lookup_middle by done. simpl.
  repeat split; [lia|done|done|].
  intros h Hh. by rewrite lookup_app_l.
Qed.

Lemma referencingDefaultValue_defs pattern assignments mig init r r' h :
  referencingDefaultValue pattern assignments mig init r = Ok tt r' ->
  defs r' h = defs r h.
Proof.
  unfold referencingDefaultValue. revert r.
  induction assignments as [|a assignments IH]; simpl; intros r Hrun.
  - by apply ret_Ok in Hrun as [_ <-].
  - apply bind_Ok in Hrun as ([] & r1 & Hrun1 & Hrun).
    apply bind_Ok in Hrun1 as (c & ? & [_ ->]%currentScope_throw_run & Hrun1).
    apply referencing_obs in Hrun1 as (_ & _ & Hd & _).
    rewrite (IH _ Hrun). apply Hd.
Qed.

Lemma Bal_visit_rightHandNodes' `{StrictnessInference} (fuel : nat)
    (n p : Node) :
  distinct_nodes n -> psub p n ->
  Bal (flat_map ids (children n))
      (forEach (visit fuel) (PatternVisitor.rightHandNodes p)).
Proof.
  intros Hn Hp. apply Bal_forEach. intros rn Hrn.
  apply Bal_visit_psub'; [done|].
  eapply psub_trans; [|done]. by eapply rightHandNodes_psub.
Qed.

(** The purity of a run, from the purity of its computation. *)
Lemma Pure_of_run {A} (m : M A) r r' (a : A) :
  m r = Ok a r' -> wf r -> Pure m -> ext [] r r' /\ wf r' /\ cur r' = cur r.
Proof. intros Hrun Hwf Hm. by eapply Hm. Qed.

(** The declarators of a variable declaration, from the index
    [length pre] on. *)
Lemma VariableDeclaration_loop `{StrictnessInference} (fuel j : nat)
    (kind : string) (declarations : list Node) (target : nat) :
  let node := TSESTree.VariableDeclaration j kind declarations in
  distinct_nodes node ->
  forall xs pre r r',
    declarations = pre ++ xs ->
    forEachIndexed
      (fun i decl =>
         visitVariableDeclaration (visit fuel) target VariableType.Variable_
                                  node i ;;
         match decl with
         | TSESTree.VariableDeclarator _ _ (Some init) => visit fuel init
         | _ => ret tt
         end)
      (length pre) xs r = Ok tt r' ->
    wf r -> cur_ok (flat_map ids (children node)) r ->
    target < length (store r) ->
    exists added,
      defs r' target = defs r target ++ added /\
      variableDefinitions node kind (length pre) xs `sublist_of` added /\
      wf r' /\ cur r' = cur r /\ ext (flat_map ids (children node)) r r'.
Proof.
  intros node Hn xs.
  induction xs as [|x xs IH]; intros pre r r' Hdecl Hrun Hwf Hok Ht.
  - apply ret_Ok in Hrun as [_ <-]. exists []. rewrite app_nil_r.
    eauto 10 using ext_refl.
  - cbn [forEachIndexed] in Hrun.
    apply bind_Ok in Hrun as ([] & r3 & Hx & Hrun).
    apply bind_Ok in Hx as ([] & r2 & Hvisit & Hinit).
    unfold visitVariableDeclaration, node in Hvisit.
    cbv beta iota in Hvisit. fold node in Hvisit.
    assert (Hlook : declarations !! length pre = Some x).
    { by rewrite Hdecl, list_lookup_middle. }
    rewrite Hlook in Hvisit.
    assert (Hxin : x ∈ children node).
    { simpl. rewrite Hdecl. apply elem_of_app. right. by left. }
    destruct x as [| | | | | |d id init| | | | | | | | | | | | | | | | | |
                   | | | | | | |]; try done.
    unfold visitPattern, traverseIdentifierInPattern in Hvisit.
    cbn [PatternVisitor.processRightHandNodes] in Hvisit.
    apply bind_Ok in Hvisit as ([] & r1 & Hleaves & Hrhn).
    set (decl := TSESTree.VariableDeclarator d id init) in *.
    assert (Hid : psub id node).
    { eapply psub_trans; [|by apply psub_child]. apply psub_child. mem. }
    (* the leaves of the pattern *)
    destruct (Pure_of_run _ _ _ _ Hleaves Hwf) as (He1 & Hwf1 & Hc1).
    { apply Pure_forEach. intros [pattern info] _. pure. }
    eapply (forEach_obs _ (fun _ => True) (fun r => defs r target)
              (fun '(pattern, _) =>
                 [new_Definition VariableType.Variable_ pattern decl
                                 (Some node) (Some (length pre))
                                 (Some kind)]))
      in Hleaves as [_ Hdefs1]; [| |done].
    2:{ intros [pattern info] ra rb _ _ Hcb.
        apply bind_Ok in Hcb as ([] & rc & Hdef & Hcb).
        apply bind_Ok in Hcb as ([] & rd & Hdv & Hcb).
        split; [done|].
        assert (defs rb target = defs rd target) as ->.
        { destruct init as [init|].
          - apply bind_Ok in Hcb
              as (c' & ? & [_ ->]%currentScope_throw_run & Hcb).
            by apply referencing_obs in Hcb as (_ & _ & -> & _).
          - by apply ret_Ok in Hcb as [_ <-]. }
        rewrite (referencingDefaultValue_defs _ _ _ _ _ _ _ Hdv).
        apply define_obs in Hdef as (_ & -> & _).
        by rewrite decide_True. }
    (* the right-hand nodes of the pattern, and the initializer *)
    assert (Hok1 : cur_ok (flat_map ids (children node)) r1)
      by (by eapply cur_ok_ext).
    destruct (Bal_visit_rightHandNodes' fuel node id Hn Hid
                _ _ _ Hrhn Hwf1 Hok1) as (He2 & Hwf2 & Hc2).
    assert (Hok2 : cur_ok (flat_map ids (children node)) r2)
      by (by eapply cur_ok_ext).
    assert (Hinit' : ext (flat_map ids (children node)) r2 r3 /\ wf r3 /\
                     cur r3 = cur r2).
    { destruct init as [init|].
      - eapply (Bal_visit_psub' fuel node init); try done.
        eapply psub_trans; [|by apply psub_child]. apply psub_child. mem.
      - apply ret_Ok in Hinit as [_ <-]. eauto using ext_refl. }
    destruct Hinit' as (He3 & Hwf3 & Hc3).
    (* the declarators that follow *)
    destruct (IH (pre ++ [decl]) r3 r') as (added & Hadded & Hsub & Hwf' & Hc' & He').
    { by rewrite <- app_assoc. }
    { rewrite length_app. simpl. by rewrite Nat.add_1_r. }
    { done. }
    { eapply cur_ok_ext; [exact He3|done..]. }
    { pose proof (ext_length _ _ _ He1). pose proof (ext_length _ _ _ He2).
      pose proof (ext_length _ _ _ He3). lia. }
    destruct (ext_defs _ _ _ target (ext_trans _ _ _ _ He2 He3))
      as [more Hmore].
    { pose proof (ext_length _ _ _ He1). lia. }
    rewrite length_app in Hsub. simpl in Hsub.
    rewrite Nat.add_1_r in Hsub.
    eexists. split; [|split; [|split; [done|split]]].
    + rewrite Hadded, Hmore, Hdefs1, <- !app_assoc. reflexivity.
    + cbn [variableDefinitions]. unfold decl.
      apply sublist_app.
      * match goal with
        | |- ?L `sublist_of` ?R => assert (R = L) as ->; [|done]
        end.
        rewrite <- flat_map_singleton_map. apply flat_map_ext.
        by intros [pattern info].
      * by apply sublist_inserts_l.
    + congruence.
    + eapply ext_trans; [|exact He'].
      eapply ext_trans; [|exact He3].
      eapply ext_trans; [|exact He2].
      eapply ext_mono; [|exact He1]. by intros y ?%elem_of_nil.
Qed.


Lemma referencingDefaultValue_cur pattern assignments mig init r r' :
  referencingDefaultValue pattern assignments mig init r = Ok tt r' ->
  cur r' = cur r.
Proof.
  unfold referencingDefaultValue. revert r.
  induction assignments as [|a assignments IH]; simpl; intros r Hrun.
  - by apply ret_Ok in Hrun as [_ <-].
  - apply bind_Ok in Hrun as ([] & r1 & Hrun1 & Hrun).
    apply bind_Ok in Hrun1 as (c & ? & [_ ->]%currentScope_throw_run & Hrun1).
    apply referencing_obs in Hrun1 as (Hc & _).
    rewrite (IH _ Hrun). apply Hc.
Qed.

(** The parameters of a function, from the index [i] on, visited in the
    Function scope [kf]. *)
Lemma parameters_loop `{StrictnessInference} (fuel : nat) (node : Node)
    (kf : nat) :
  distinct_nodes node ->
  forall xs i r r',
    (forall x, x ∈ xs -> psub x node) ->
    forEachIndexed
      (fun i param =>
         visitPattern (visit fuel) param
           {| PatternVisitor.processRightHandNodes := true |}
           (fun pattern info =>
              (let* c := currentScope_throw in
               __define c pattern
                 (new_ParameterDefinition pattern node i
                    (PatternVisitor.rest info))) ;;
              referencingDefaultValue pattern
                (PatternVisitor.assignments info) None true))
      i xs r = Ok tt r' ->
    wf r -> cur_ok (flat_map ids (children node)) r -> cur r = Some kf ->
    exists added,
      defs r' kf = defs r kf ++ added /\
      parameterDefinitions node i xs `sublist_of` added /\
      wf r' /\ cur r' = cur r /\ ext (flat_map ids (children node)) r r'.
Proof.
  intros Hn xs.
  induction xs as [|x xs IH]; intros i r r' Hsub Hrun Hwf Hok Hc.
  - apply ret_Ok in Hrun as [_ <-]. exists []. rewrite app_nil_r.
    eauto 10 using ext_refl.
  - cbn [forEachIndexed] in Hrun.
    apply bind_Ok in Hrun as ([] & r2 & Hx & Hrun).
    unfold visitPattern, traverseIdentifierInPattern in Hx.
    cbn [PatternVisitor.processRightHandNodes] in Hx.
    apply bind_Ok in Hx as ([] & r1 & Hleaves & Hrhn).
    assert (Hxsub : psub x node) by (apply Hsub; by left).
    destruct (Pure_of_run _ _ _ _ Hleaves Hwf) as (He1 & Hwf1 & Hc1).
    { apply Pure_forEach. intros [pattern info] _. pure. }
    eapply (forEach_obs _ (fun r => cur r = Some kf) (fun r => defs r kf)
              (fun '(pattern, info) =>
                 [new_ParameterDefinition pattern node i
                    (PatternVisitor.rest info)]))
      in Hleaves as [_ Hdefs1]; [| |done].
    2:{ intros [pattern info] ra rb _ Hca Hcb.
        apply bind_Ok in Hcb as ([] & rc & Hdef & Hdv).
        apply bind_Ok in Hdef
          as (c' & ? & [Hc' ->]%currentScope_throw_run & Hdef).
        rewrite Hca in Hc'. injection Hc' as <-.
        apply define_obs in Hdef as (Hcc & Hd & _).
        rewrite (referencingDefaultValue_cur _ _ _ _ _ _ Hdv).
        rewrite (referencingDefaultValue_defs _ _ _ _ _ _ _ Hdv).
        split; [congruence|]. by rewrite Hd, decide_True. }
    assert (Hok1 : cur_ok (flat_map ids (children node)) r1)
      by (by eapply cur_ok_ext).
    destruct (Bal_visit_rightHandNodes' fuel node x Hn Hxsub
                _ _ _ Hrhn Hwf1 Hok1) as (He2 & Hwf2 & Hc2).
    destruct (IH (S i) r2 r') as (added & Hadded & Hs & Hwf' & Hc' & He').
    { intros y Hy. apply Hsub. by right. }
    { done. }
    { done. }
    { by eapply cur_ok_ext. }
    { congruence. }
    destruct (ext_defs _ _ _ kf He2) as [more Hmore].
    { pose proof (ext_length _ _ _ He1). pose proof (wf_cur _ Hwf _ Hc).
      lia. }
    eexists. split; [|split; [|split; [done|split]]].
    + rewrite Hadded, Hmore, Hdefs1, <- !app_assoc. reflexivity.
    + cbn [parameterDefinitions]. apply sublist_app.
      * match goal with
        | |- ?L `sublist_of` ?R => assert (R = L) as ->; [|done]
        end.
        rewrite <- flat_map_singleton_map. apply flat_map_ext.
        by intros [pattern info].
      * by apply sublist_inserts_l.
    + congruence.
    + eapply ext_trans; [|exact He']. eapply ext_trans; [|exact He2].
      eapply ext_mono; [|exact He1]. by intros y ?%elem_of_nil.
Qed.

(** Everything about the state after a scope is nested. *)
Lemma nestScope_step `{StrictnessInference} type block isMethod ds r a r' :
  __nestScope type block isMethod ds r = Ok a r' -> wf r ->
  wf r' /\ cur r' = Some (length (store r)) /\
  length (store r') = S (length (store r)) /\
  ext [nid block] r r' /\
  (exists sc,
     store r' !! length (store r) = Some sc /\
     Scope.type sc = type /\ Scope.block sc = block /\
     Scope.upper sc = cur r /\ Scope.definitions sc = ds /\
     Scope.references sc = []).
Proof.
  intros Hrun Hwf.
  destruct (nestScope_ext _ _ _ _ _ _ _ Hrun Hwf) as (He & Hwf' & _).
  pose proof (nestScope_run _ _ _ _ _ _ _ Hrun)
    as (sc & Hst & Hcur & Hty & Hb & Hup & Hd & Hr & _).
  split; [done|]. split; [done|].
  split; [by rewrite Hst, length_app, Nat.add_1_r|]. split; [done|].
  exists sc. by rewrite Hst, list_lookup_middle.
Qed.

(** The body of a function: the statements of a block body are visited
    directly, any other body is visited as a node. *)
Lemma Bal_function_body `{StrictnessInference} (fuel : nat) (node b : Node) :
  distinct_nodes node -> b ∈ children node ->
  Bal (flat_map ids (children node))
      (match b with
       | TSESTree.BlockStatement _ _ => visitChildren (visit fuel) b
       | _ => visit fuel b
       end).
Proof.
  intros Hn Hb.
  destruct b; try (by apply Bal_visit_psub'; [|apply psub_child]).
  unfold visitChildren. apply Bal_forEach. intros x Hx.
  apply Bal_visit_psub'; [done|].
  eapply psub_trans; by apply psub_child.
Qed.

Lemma ids_root (n : Node) : [nid n] ⊆ ids n.
Proof.
  rewrite (ids_children n). intros x ->%list_elem_of_singleton. by left.
Qed.

Lemma ids_descendants (n : Node) : flat_map ids (children n) ⊆ ids n.
Proof. rewrite (ids_children n). intros x Hx. by right. Qed.

Lemma nil_subseteq (I : list nat) : [] ⊆ I.
Proof. by intros x ?%elem_of_nil. Qed.

(** An extension by scopes of [n] or of its descendants is an extension by
    scopes of the tree of [n]. *)
Ltac ext_tree :=
  first
    [ eassumption
    | eapply ext_mono; [apply ids_root|eassumption]
    | eapply ext_mono; [apply ids_descendants|eassumption]
    | eapply ext_mono; [apply nil_subseteq|eassumption]
    | eapply ext_mono; [apply nil_subseteq|];
      apply closes_only_ext; eassumption ].

Ltac ext_chain :=
  repeat first [ ext_tree | eapply ext_trans; [ext_tree|] ].

(** The bindings of a variable declaration. *)
Lemma VariableDeclaration_defs `{StrictnessInference} (fuel j : nat)
    (kind : string) (declarations : list Node) (r r' : Referencer)
    (c : nat) (sc : Scope.t) :
  let node := TSESTree.VariableDeclaration j kind declarations in
  let target := if String.eqb kind "var" then Scope.variableScope sc else c in
  distinct_nodes node -> wf r -> cur_ok (ids node) r ->
  cur r = Some c -> store r !! c = Some sc ->
  visit fuel node r = Ok tt r' ->
  exists added,
    defs r' target = defs r target ++ added /\
    variableDefinitions node kind 0 declarations `sublist_of` added /\
    cur r' = Some c.
Proof.
  intros node target Hn Hwf Hok Hc Hsc Hrun.
  destruct fuel as [|fuel]; [done|]. unfold node in Hrun.
  cbn [visit dispatch] in Hrun. unfold VariableDeclaration in Hrun.
  fold node in Hrun.
  apply bind_Ok in Hrun as (c' & ? & [Hc' ->]%currentScope_throw_run & Hrun).
  rewrite Hc in Hc'. injection Hc' as <-.
  apply bind_Ok in Hrun as (target' & r1 & Htarget & Hrun).
  assert (target' = target /\ r1 = r) as [-> ->].
  { unfold target. destruct (String.eqb kind "var").
    - apply bind_Ok in Htarget as (sc' & ? & [Hsc' ->]%getScope_run & Hret).
      apply ret_Ok in Hret as [<- <-]. split; congruence.
    - by apply ret_Ok in Htarget as [<- <-]. }
  destruct (VariableDeclaration_loop fuel j kind declarations target Hn
              declarations [] r r' eq_refl Hrun Hwf)
    as (added & Hadded & Hsub & _ & Hc' & _).
  - by apply cur_ok_root.
  - unfold target. pose proof (wf_cur _ Hwf _ Hc).
    pose proof (wf_variableScope _ Hwf _ _ Hsc).
    destruct (String.eqb kind "var"); lia.
  - exists added. split; [done|]. split; [done|]. congruence.
Qed.






(** The ids of one node of a list are ids of the list. *)
Lemma ids_elem (x : Node) (xs : list Node) :
  x ∈ xs -> ids x ⊆ flat_map ids xs.
Proof.
  intros Hx y Hy. apply list_elem_of_In, in_flat_map.
  exists x. by rewrite <- !list_elem_of_In.
Qed.

(** A pattern visited on its own creates scopes for its own nodes only. *)
Lemma Bal_visitPattern_root `{StrictnessInference} (fuel : nat) (p : Node)
    opts (callback : PatternVisitorCallback) :
  distinct_nodes p ->
  (forall pattern info, Pure (callback pattern info)) ->
  Bal (ids p) (visitPattern (visit fuel) p opts callback).
Proof.
  intros Hp Hcb. unfold visitPattern, traverseIdentifierInPattern.
  apply Bal_bind.
  - apply Pure_Bal, Pure_forEach. intros [pattern info] _. apply Hcb.
  - intros _. destruct (PatternVisitor.processRightHandNodes opts);
      [|apply Pure_Bal, Pure_ret].
    apply Bal_forEach. intros rn Hrn. apply Bal_visit_sub; [done|].
    by eapply rightHandNodes_psub.
Qed.

(** A list of statements visited in order creates scopes for the nodes of
    the statements only. *)
Lemma Bal_statements `{StrictnessInference} (fuel : nat)
    (statements : list Node) :
  (forall x, x ∈ statements -> distinct_nodes x) ->
  Bal (flat_map ids statements) (forEach (visit fuel) statements).
Proof.
  intros Hd. apply Bal_forEach. intros x Hx.
  eapply Bal_mono; [by apply ids_elem|]. apply visit_Bal. by apply Hd.
Qed.

(** The start of [visitFunction], up to the nesting of the Function scope. *)
Lemma function_prelude `{StrictnessInference} (node : Node)
    (type : TSESTree.FunctionType) (id : option Node)
    (r r1 r2 r3 : Referencer) :
  wf r ->
  match type, id with
  | TSESTree.FunctionDeclaration, Some id =>
      let* c := currentScope_throw in
      __define c id
        (new_Definition VariableType.FunctionName id node None None None)
  | _, _ => ret tt
  end r = Ok tt r1 ->
  match type, id with
  | TSESTree.FunctionExpression, Some _ =>
      __nestFunctionExpressionNameScope node
  | _, _ => ret tt
  end r1 = Ok tt r2 ->
  (let* inner := get_isInnerMethodDefinition in
   __nestFunctionScope node inner) r2 = Ok tt r3 ->
  exists fs s,
    length (store r) <= fs /\ length (store r3) = S fs /\
    wf r3 /\ cur r3 = Some fs /\ ext [nid node] r r3 /\
    store r3 !! fs = Some s /\
    Scope.type s = FunctionScope /\ Scope.block s = node /\
    Scope.variableScope s = fs.
Proof.
  intros Hwf Hname Hfen Hfs.
  destruct (Pure_of_run _ _ _ _ Hname Hwf) as (He1 & Hwf1 & Hc1).
  { destruct type, id; pure. }
  assert (H2 : wf r2 /\ ext [nid node] r1 r2).
  { destruct type, id;
      try (apply ret_Ok in Hfen as [_ <-]; split; [done|apply ext_refl]).
    unfold __nestFunctionExpressionNameScope in Hfen.
    by destruct (nestScope_step _ _ _ _ _ _ _ Hfen Hwf1)
      as (? & _ & _ & ? & _). }
  destruct H2 as [Hwf2 He2].
  apply bind_Ok in Hfs as (inner & ? & [= <- <-] & Hfs).
  unfold __nestFunctionScope in Hfs.
  destruct (nestScope_step _ _ _ _ _ _ _ Hfs Hwf2)
    as (Hwf3 & Hc3 & Hl3 & He3 & s & Hs & Hty & Hb & _).
  pose proof (nestScope_run _ _ _ _ _ _ _ Hfs)
    as (s' & Hst & _ & _ & _ & _ & _ & _ & _ & _ & Hvs & _).
  rewrite Hst, list_lookup_middle in Hs by done. injection Hs as <-.
  exists (length (store r2)), s'.
  pose proof (ext_length _ _ _ He1). pose proof (ext_length _ _ _ He2).
  split; [lia|]. split; [done|]. split; [done|]. split; [done|].
  split.
  { eapply ext_trans; [|exact He3]. eapply ext_trans; [|exact He2].
    eapply ext_mono; [apply nil_subseteq|exact He1]. }
  split; [by rewrite Hst, list_lookup_middle|].
  split; [done|]. split; [done|]. by apply Hvs.
Qed.

(** ** The scopes of the program *)

Lemma Blind_ret {A} (a : A) : Blind (ret a).
Proof. by intros b r a' r' [= <- <-]. Qed.

Lemma Blind_bind {A B} (m : M A) (k : A -> M B) :
  Blind m -> (forall a, Blind (k a)) -> Blind (bind m k).
Proof.
  intros Hm Hk b r x r' (a & r1 & H1 & H2)%bind_Ok.
  apply bind_Ok. exists a, (with_impliedStrict b r1).
  split; [by apply Hm|by apply Hk].
Qed.

Lemma Blind_nestScope `{StrictnessInference} type block isMethod ds :
  Blind (__nestScope type block isMethod ds).
Proof.
  intros b r a r'. unfold __nestScope.
  change (store (with_impliedStrict b r)) with (store r).
  change (cur (with_impliedStrict b r)) with (cur r).
  destruct (if isVariableScope type then _ else _); [|done].
  by intros [= <- <-].
Qed.

Lemma Blind_updateScope_current (f : Scope.t -> Scope.t) :
  Blind (let* c := currentScope_throw in updateScope c f).
Proof.
  intros b r a r'. unfold bind, currentScope_throw, bind, currentScope.
  change (cur (with_impliedStrict b r)) with (cur r).
  destruct (cur r) as [c|]; [|done]. unfold ret, updateScope.
  change (store (with_impliedStrict b r)) with (store r).
  destruct (store r !! c); [|done]. by intros [= <- <-].
Qed.

(** Setting a field of the current scope. *)
Lemma updateScope_current (f : Scope.t -> Scope.t) r c sc :
  cur r = Some c -> store r !! c = Some sc ->
  (let* c := currentScope_throw in updateScope c f) r
  = Ok tt (set_store (<[c := f sc]> (store r)) r).
Proof.
  intros Hc Hsc. unfold bind, currentScope_throw, bind, currentScope.
  rewrite Hc. unfold ret, updateScope. by rewrite Hsc.
Qed.

(** Global, Function and Module scopes can always be nested. *)
Lemma nestScope_variableScope `{StrictnessInference} type block isMethod ds r :
  isVariableScope type = true ->
  exists r' sc,
    __nestScope type block isMethod ds r = Ok tt r' /\
    store r' = store r ++ [sc] /\ cur r' = Some (length (store r)) /\
    Scope.type sc = type /\ Scope.block sc = block.
Proof.
  intros Hv.
  assert (exists r', __nestScope type block isMethod ds r = Ok tt r')
    as [r' Hrun] by (unfold __nestScope; rewrite Hv; eauto).
  pose proof (nestScope_run _ _ _ _ _ _ _ Hrun)
    as (sc & ? & ? & ? & ? & _).
  by exists r', sc.
Qed.

(** The scopes that [Program] nests, whatever comes last. *)
Lemma Program_nesting `{StrictnessInference} (node : Node)
    (opts : Options) (r : Referencer) :
  exists r3 sc,
    cur r3 = Some (rootScope opts (length (store r))) /\
    store r3 !! rootScope opts (length (store r)) = Some sc /\
    Scope.type sc = rootScopeType opts /\ Scope.block sc = node /\
    forall (last : M unit) r',
      last r3 = Ok tt r' ->
      (__nestGlobalScope node ;;
       (if __isNodejsScope opts then
          (let* c := currentScope_throw in
           updateScope c (Scope.set_isStrict false)) ;;
          __nestFunctionScope node false
        else ret tt) ;;
       (if __isES6 opts && isModule opts then __nestModuleScope node
        else ret tt) ;;
       last) r = Ok tt r'.
Proof.
  unfold rootScope, rootScopeType.
  destruct (nestScope_variableScope GlobalScope node false [] r eq_refl)
    as (r1 & sc1 & Hrun1 & Hst1 & Hc1 & Hty1 & Hb1).
  assert (Hsc1 : store r1 !! length (store r) = Some sc1)
    by (by rewrite Hst1, list_lookup_middle).
  assert (H2 : exists r2 sc2,
    (if __isNodejsScope opts then
       (let* c := currentScope_throw in
        updateScope c (Scope.set_isStrict false)) ;;
       __nestFunctionScope node false
     else ret tt) r1 = Ok tt r2 /\
    cur r2 = Some (length (store r)
                   + (if __isNodejsScope opts then 1 else 0)) /\
    S (length (store r) + (if __isNodejsScope opts then 1 else 0))
      = length (store r2) /\
    store r2 !! (length (store r)
                 + (if __isNodejsScope opts then 1 else 0)) = Some sc2 /\
    Scope.type sc2 = (if __isNodejsScope opts then FunctionScope
                      else GlobalScope) /\
    Scope.block sc2 = node).
  { destruct (__isNodejsScope opts).
    - pose proof (updateScope_current (Scope.set_isStrict false) _ _ _
                    Hc1 Hsc1) as Hset.
      destruct (nestScope_variableScope FunctionScope node false []
                  (set_store
                     (<[length (store r) := Scope.set_isStrict false sc1]>
                        (store r1)) r1) eq_refl)
        as (r2 & sc2 & Hrun2 & Hst2 & Hc2 & Hty2 & Hb2).
      exists r2, sc2. split.
      { apply bind_Ok. eexists tt, _. split; [exact Hset|exact Hrun2]. }
      rewrite store_set_store in Hc2, Hst2.
      rewrite length_insert, Hst1, length_app in Hc2. simpl in Hc2.
      split; [done|]. split.
      { rewrite Hst2, length_app, length_insert, Hst1, length_app.
        simpl. lia. }
      split; [|done]. rewrite Hst2. apply list_lookup_middle.
      by rewrite length_insert, Hst1, length_app.
    - exists r1, sc1. rewrite Nat.add_0_r, Hst1, length_app. simpl.
      split; [done|]. split; [done|]. split; [lia|].
      split; [|done]. by apply list_lookup_middle. }
  destruct H2 as (r2 & sc2 & Hrun2 & Hc2 & Hl2 & Hsc2 & Hty2 & Hb2).
  assert (H3 : exists r3 sc,
    (if __isES6 opts && isModule opts then __nestModuleScope node
     else ret tt) r2 = Ok tt r3 /\
    cur r3 = Some (length (store r)
                   + (if __isNodejsScope opts then 1 else 0)
                   + (if __isES6 opts && isModule opts then 1 else 0)) /\
    store r3 !! (length (store r)
                 + (if __isNodejsScope opts then 1 else 0)
                 + (if __isES6 opts && isModule opts then 1 else 0))
      = Some sc /\
    Scope.type sc = (if __isES6 opts && isModule opts then ModuleScope
                     else if __isNodejsScope opts then FunctionScope
                     else GlobalScope) /\
    Scope.block sc = node).
  { destruct (__isES6 opts && isModule opts).
    - destruct (nestScope_variableScope ModuleScope node false [] r2 eq_refl)
        as (r3 & sc & Hrun3 & Hst3 & Hc3 & Hty3 & Hb3).
      exists r3, sc. split; [done|]. rewrite <- Hl2 in Hc3.
      rewrite Nat.add_1_r. split; [done|]. split; [|done].
      rewrite Hst3. by apply list_lookup_middle.
    - exists r2, sc2. by rewrite Nat.add_0_r. }
  destruct H3 as (r3 & sc & Hrun3 & Hc3 & Hsc3 & Hty3 & Hb3).
  exists r3, sc. split; [done|]. split; [done|]. split; [done|].
  split; [done|]. intros last r' Hlast.
  apply bind_Ok. exists tt, r1. split; [exact Hrun1|].
  apply bind_Ok. exists tt, r2. split; [exact Hrun2|].
  apply bind_Ok. exists tt, r3. split; [exact Hrun3|exact Hlast].
Qed.

(** * Termination: the walk returns *)

Lemma Runs_bind {A B} (P : Referencer -> Prop) (Q : A -> Referencer -> Prop)
    (R : B -> Referencer -> Prop) (m : M A) (k : A -> M B) :
  Runs P m Q -> (forall a, Runs (Q a) (k a) R) -> Runs P (bind m k) R.
Proof.
  intros Hm Hk r HP. destruct (Hm r HP) as (a & r1 & H1 & HQ).
  destruct (Hk a r1 HQ) as (b & r2 & H2 & HR).
  exists b, r2. split; [|done]. apply bind_Ok. eauto.
Qed.

Lemma Runs_pre {A} (phi : Prop) (P : Referencer -> Prop) (m : M A) Q :
  (phi -> Runs P m Q) -> Runs (fun r => phi /\ P r) m Q.
Proof. intros Hm r [Hphi HP]. by apply Hm. Qed.

Lemma Runs_pre_ex {A X} (P : X -> Referencer -> Prop) (m : M A) Q :
  (forall x, Runs (P x) m Q) -> Runs (fun r => exists x, P x r) m Q.
Proof. intros Hm r [x HP]. by eapply Hm. Qed.

Lemma Runs_weaken {A} (P P' : Referencer -> Prop) (m : M A)
    (Q Q' : A -> Referencer -> Prop) :
  Runs P m Q -> (forall r, P' r -> P r) -> (forall a r, Q a r -> Q' a r) ->
  Runs P' m Q'.
Proof.
  intros Hm HP HQ r HP'. destruct (Hm r (HP r HP')) as (a & r' & ? & ?).
  eauto.
Qed.

Lemma Runs_ret {A} (P : Referencer -> Prop) (a : A) :
  Runs P (ret a) (fun _ => P).
Proof. intros r HP. by exists a, r. Qed.

Lemma Runs_forEach {A} (P : Referencer -> Prop) (f : A -> M unit)
    (xs : list A) :
  (forall x, x ∈ xs -> Runs P (f x) (fun _ => P)) ->
  Runs P (forEach f xs) (fun _ => P).
Proof.
  induction xs as [|x xs IH]; intros Hf; [apply Runs_ret|].
  cbn [forEach]. eapply Runs_bind; [apply Hf; by left|].
  intros ?. apply IH. intros y Hy. apply Hf. by right.
Qed.

(** The loop with an index, over the elements of [xs] and their
    positions. *)
Lemma Runs_forEachIndexed {A} (P : Referencer -> Prop)
    (f : nat -> A -> M unit) (xs : list A) :
  (forall i x, xs !! i = Some x -> Runs P (f i x) (fun _ => P)) ->
  Runs P (forEachIndexed f 0 xs) (fun _ => P).
Proof.
  intros Hf.
  assert (Hgen : forall ys pre,
            xs = pre ++ ys ->
            Runs P (forEachIndexed f (length pre) ys) (fun _ => P)).
  { induction ys as [|y ys IH]; intros pre Hxs; [apply Runs_ret|].
    cbn [forEachIndexed]. eapply Runs_bind.
    - apply Hf. rewrite Hxs. by apply list_lookup_middle.
    - intros ?. specialize (IH (pre ++ [y])).
      rewrite length_app, Nat.add_1_r in IH. apply IH.
      by rewrite <- app_assoc. }
  by apply (Hgen xs []).
Qed.

(** The invariant of the walk survives what is pure or balanced. *)
Lemma open_at_ext (I J : list nat) md c r r' :
  ext J r r' -> wf r' -> cur r' = cur r ->
  open_at I md c r -> open_at I md c r'.
Proof.
  intros He Hwf' Hc (Hwf & Hcur & Hok & Hmd).
  split; [done|]. split; [congruence|]. split; [by eapply cur_ok_ext|].
  unfold moduleMode. by rewrite (ext_options _ _ _ He).
Qed.

Lemma open_at_mono (I J : list nat) md c r :
  I ⊆ J -> open_at J md c r -> open_at I md c r.
Proof.
  intros HIJ (Hwf & Hcur & Hok & Hmd). split; [done|]. split; [done|].
  split; [by eapply cur_ok_mono|done].
Qed.

Lemma Runs_Pure {A} (I : list nat) md c (m : M A) (phi : A -> Prop) :
  Pure m ->
  (forall r, open_at I md c r -> exists a r', m r = Ok a r' /\ phi a) ->
  Runs (open_at I md c) m (fun a r => phi a /\ open_at I md c r).
Proof.
  intros Hpure Hex r HP. destruct (Hex r HP) as (a & r' & Hrun & Hphi).
  exists a, r'. split; [done|]. split; [done|].
  destruct (Hpure _ _ _ Hrun) as (He & Hwf' & Hc); [apply HP|].
  by eapply open_at_ext.
Qed.

Lemma Runs_Bal {A} (J : list nat) md c (m : M A) :
  Bal J m ->
  Runs (open_at J md c) m (fun _ _ => True) ->
  Runs (open_at J md c) m (fun _ => open_at J md c).
Proof.
  intros Hbal Hex r HP. destruct (Hex r HP) as (a & r' & Hrun & _).
  exists a, r'. split; [done|].
  destruct (Hbal _ _ _ Hrun) as (He & Hwf' & Hc); [apply HP..|].
  by eapply open_at_ext.
Qed.

(** ** The operations of the scope manager *)

Lemma Runs_currentScope_throw I md c :
  Runs (open_at I md c) currentScope_throw
       (fun a r => a = c /\ open_at I md c r).
Proof.
  apply Runs_Pure; [apply Pure_currentScope_throw|].
  intros r (_ & Hc & _). exists c, r.
  unfold currentScope_throw, bind, currentScope. by rewrite Hc.
Qed.

Lemma open_at_lookup I md c r h :
  open_at I md c r -> h <= c -> is_Some (store r !! h).
Proof.
  intros (Hwf & Hc & _) Hh. apply lookup_lt_is_Some_2.
  pose proof (wf_cur _ Hwf _ Hc). lia.
Qed.

Lemma Runs_getScope I md c h :
  h <= c ->
  Runs (open_at I md c) (getScope h)
       (fun sc r => Scope.variableScope sc <= c /\ open_at I md c r).
Proof.
  intros Hh. apply Runs_Pure; [apply Pure_getScope|].
  intros r HP. destruct (open_at_lookup _ _ _ _ _ HP Hh) as [sc Hsc].
  exists sc, r. unfold getScope. rewrite Hsc. split; [done|].
  pose proof (wf_variableScope _ (proj1 HP) _ _ Hsc). lia.
Qed.

Lemma Runs_updateScope I md c h f :
  h <= c -> Monotone f ->
  Runs (open_at I md c) (updateScope h f) (fun _ => open_at I md c).
Proof.
  intros Hh Hf.
  eapply Runs_weaken;
    [apply (Runs_Pure I md c _ (fun _ => True)); [by apply Pure_updateScope|]
    |done|by intros ? ? [_ ?]].
  intros r HP. destruct (open_at_lookup _ _ _ _ _ HP Hh) as [sc Hsc].
  unfold updateScope. rewrite Hsc. eauto.
Qed.

Lemma Runs_getOptions I md c :
  Runs (open_at I md c) getOptions
       (fun o r => __isES6 o && isModule o = md /\ open_at I md c r).
Proof.
  apply Runs_Pure; [apply Pure_getOptions|].
  intros r HP. eexists _, r. split; [done|]. apply HP.
Qed.

Lemma Runs_pure_total {A} I md c (m : M A) :
  Pure m -> (forall r, exists a r', m r = Ok a r') ->
  Runs (open_at I md c) m (fun _ => open_at I md c).
Proof.
  intros Hp Hex.
  eapply Runs_weaken;
    [apply (Runs_Pure I md c _ (fun _ => True)); [done|]
    |done|by intros ? ? [_ ?]].
  intros r _. destruct (Hex r) as (a & r' & ?). eauto.
Qed.

(** ** Blocks of operations on the current scope *)

Lemma Runs_referencingDefaultValue I md c pattern assignments mig init :
  Runs (open_at I md c)
       (referencingDefaultValue pattern assignments mig init)
       (fun _ => open_at I md c).
Proof.
  unfold referencingDefaultValue. apply Runs_forEach. intros x _.
  eapply Runs_bind; [apply Runs_currentScope_throw|].
  intros a. apply Runs_pre. intros ->.
  unfold __referencing. apply Runs_updateScope; [lia|auto with walk].
Qed.

(** The scope that receives the bindings of a declaration. *)
Lemma Runs_variableTargetScope I md c (kind : string) :
  Runs (open_at I md c)
       (if String.eqb kind "var"
        then let* sc := getScope c in ret (Scope.variableScope sc)
        else ret c)
       (fun target r => target <= c /\ open_at I md c r).
Proof.
  destruct (String.eqb kind "var").
  - eapply Runs_bind; [by apply Runs_getScope|].
    intros sc r [Hvs HP]. by exists (Scope.variableScope sc), r.
  - intros r HP. by exists c, r.
Qed.

(** One step of a block of operations that leaves the scopes as they
    are. *)
Ltac runs_step :=
  lazymatch goal with
  | |- Runs (fun r => _ /\ _) _ _ => apply Runs_pre; intros ?
  | |- Runs _ (let x := _ in _) _ => cbv zeta
  | |- Runs _ (bind currentScope_throw _) _ =>
      eapply Runs_bind;
      [apply Runs_currentScope_throw|intros ?; apply Runs_pre; intros ->]
  | |- Runs _ (bind (getScope _) _) _ =>
      eapply Runs_bind;
      [apply Runs_getScope; lia|intros ?; apply Runs_pre; intros ?]
  | |- Runs _ (bind getOptions _) _ =>
      eapply Runs_bind;
      [apply Runs_getOptions|intros ?; apply Runs_pre; intros ?]
  | |- Runs ?P (bind _ _) _ =>
      apply (Runs_bind P (fun _ => P)); [|intros ?; cbv beta]
  | |- Runs _ (updateScope _ _) _ =>
      apply Runs_updateScope; [lia|auto with walk]
  | |- Runs _ (__define _ _ _) _ =>
      unfold __define; apply Runs_updateScope; [lia|auto with walk]
  | |- Runs _ (__referencing _ _) _ =>
      unfold __referencing; apply Runs_updateScope; [lia|auto with walk]
  | |- Runs _ (referencingDefaultValue _ _ _ _) _ =>
      apply Runs_referencingDefaultValue
  | |- Runs _ (ret _) _ => apply Runs_ret
  | |- Runs _ (match ?x with _ => _ end) _ => destruct x
  end.

Ltac runs_pure := repeat runs_step.

Lemma Runs_value_free {A} I md c (m : M A) (phi : A -> Prop) :
  Runs (open_at I md c) m (fun a r => phi a /\ open_at I md c r) ->
  Runs (open_at I md c) m (fun _ => open_at I md c).
Proof. intros Hm. eapply Runs_weaken; [exact Hm|done|by intros ? ? [_ ?]]. Qed.

Ltac runs_leaf :=
  lazymatch goal with
  | |- Runs _ getOptions _ =>
      eapply Runs_value_free; apply Runs_getOptions
  | |- Runs _ get_isInnerMethodDefinition _ =>
      apply Runs_pure_total;
      [apply Pure_get_isInnerMethodDefinition|intros ?; by eexists _, _]
  | |- Runs _ (pushInnerMethodDefinition _) _ =>
      apply Runs_pure_total;
      [apply Pure_pushInnerMethodDefinition|intros ?; by eexists _, _]
  | |- Runs _ (popInnerMethodDefinition _) _ =>
      apply Runs_pure_total;
      [apply Pure_popInnerMethodDefinition|intros ?; by eexists _, _]
  end.

Ltac runs_block := repeat first [runs_step | runs_leaf].

(** ** The handlers *)

Section Returns.
Context `{StrictnessInference}.
Variable md : bool.
Variable visit : Node -> M unit.
Variable Importer_visit : Node -> Node -> M unit.
Variable good : Node -> Prop.
Hypothesis Hvisit : forall c, distinct_nodes c -> Bal (ids c) (visit c).
Hypothesis HImporter : forall d c, Pure (Importer_visit d c).
Hypothesis Hgood : forall x c,
  good x -> distinct_nodes x ->
  Runs (open_at (ids x) md c) (visit x) (fun _ _ => True).
Hypothesis Hshape : forall x, good x -> shape_ok md x = true.

Lemma open_under_of_open_at node c r :
  open_at (ids node) md c r -> open_under md node r.
Proof using Type.
  intros HP. exists c. eapply open_at_mono; [|exact HP].
  apply ids_descendants.
Qed.

Lemma Runs_under_block {A} node (m : M A) :
  (forall c,
     Runs (open_at (flat_map ids (children node)) md c) m
          (fun _ => open_at (flat_map ids (children node)) md c)) ->
  Runs (open_under md node) m (fun _ => open_under md node).
Proof using Type.
  intros Hm. apply Runs_pre_ex. intros c.
  eapply Runs_weaken; [apply Hm|done|]. intros ? r HP. by exists c.
Qed.

Lemma Runs_visit_psub node x c :
  distinct_nodes node -> (forall x, psub x node -> good x) ->
  psub x node ->
  Runs (open_at (flat_map ids (children node)) md c) (visit x)
       (fun _ => open_at (flat_map ids (children node)) md c).
Proof using Hvisit Hgood.
  intros Hn Hsub Hx.
  apply Runs_Bal.
  - by apply Bal_visit_psub.
  - eapply Runs_weaken; [apply (Hgood x c)|..].
    + by apply Hsub.
    + by eapply psub_distinct.
    + intros r HP. eapply open_at_mono; [|exact HP]. by apply psub_ids.
    + done.
Qed.

Lemma Runs_under_visit node x :
  distinct_nodes node -> (forall x, psub x node -> good x) ->
  psub x node ->
  Runs (open_under md node) (visit x) (fun _ => open_under md node).
Proof using Hvisit Hgood.
  intros Hn Hsub Hx. apply Runs_under_block. intros c.
  by apply Runs_visit_psub.
Qed.

Lemma Runs_visitPattern_psub node p opts (callback : PatternVisitorCallback)
    c :
  distinct_nodes node -> (forall x, psub x node -> good x) ->
  psub p node ->
  (forall pattern info,
     Runs (open_at (flat_map ids (children node)) md c)
          (callback pattern info)
          (fun _ => open_at (flat_map ids (children node)) md c)) ->
  Runs (open_at (flat_map ids (children node)) md c)
       (visitPattern visit p opts callback)
       (fun _ => open_at (flat_map ids (children node)) md c).
Proof using Hvisit Hgood.
  intros Hn Hsub Hp Hcb. unfold visitPattern, traverseIdentifierInPattern.
  eapply Runs_bind.
  - apply Runs_forEach. intros [pattern info] _. apply Hcb.
  - intros ?. destruct (PatternVisitor.processRightHandNodes opts);
      [|apply Runs_ret].
    apply Runs_forEach. intros rn Hrn. apply Runs_visit_psub; [done..|].
    eapply psub_trans; [|done]. by eapply rightHandNodes_psub.
Qed.

Lemma Runs_under_visitPattern node p opts (callback : PatternVisitorCallback) :
  distinct_nodes node -> (forall x, psub x node -> good x) ->
  psub p node ->
  (forall c pattern info,
     Runs (open_at (flat_map ids (children node)) md c)
          (callback pattern info)
          (fun _ => open_at (flat_map ids (children node)) md c)) ->
  Runs (open_under md node) (visitPattern visit p opts callback)
       (fun _ => open_under md node).
Proof using Hvisit Hgood.
  intros Hn Hsub Hp Hcb. apply Runs_under_block. intros c.
  apply Runs_visitPattern_psub; [done..|]. apply Hcb.
Qed.

Lemma Runs_under_nest node type isMethod ds :
  distinct_nodes node ->
  Runs (open_under md node) (__nestScope type node isMethod ds)
       (fun _ => open_under md node).
Proof using Type.
  intros Hn r (c & Hwf & Hc & Hok & Hmd).
  assert (exists r', __nestScope type node isMethod ds r = Ok tt r')
    as [r' Hrun].
  { unfold __nestScope. rewrite Hc. simpl.
    destruct (lookup_lt_is_Some_2 (store r) c) as [sc Hsc];
      [by apply Hwf|].
    rewrite Hsc. simpl. destruct (isVariableScope type); eauto. }
  exists tt, r'. split; [done|].
  destruct (nestScope_step _ _ _ _ _ _ _ Hrun Hwf)
    as (Hwf' & Hc' & _ & He & sc & Hsc & _ & Hb & _).
  exists (length (store r)). split; [done|]. split; [done|]. split.
  - intros c' sc' Hc'' Hsc'. rewrite Hc' in Hc''. injection Hc'' as <-.
    rewrite Hsc in Hsc'. injection Hsc' as <-. rewrite Hb.
    by apply distinct_root.
  - unfold moduleMode. by rewrite (ext_options _ _ _ He).
Qed.

Lemma Runs_under_close node x :
  Runs (open_under md x) (close node) (fun _ _ => True).
Proof using Type.
  intros r (c & Hwf & _).
  destruct (descends_max (nid node) r Hwf) as (k & c0 & Hd & Hb).
  destruct (close_run node r k c0 Hwf Hd Hb) as (r' & Hrun & _).
  by exists tt, r'.
Qed.

Ltac child :=
  first
    [ solve [apply psub_child; first [assumption|cbn [children]; mem]]
    | solve [eapply psub_trans;
             [apply psub_child; eassumption
             |apply psub_child; cbn [children]; mem]] ].

Ltac block :=
  first [ apply Runs_under_block
        | eapply Runs_weaken; [apply Runs_under_block|done|done] ];
  intros ?; runs_block.

Ltac runs :=
  repeat lazymatch goal with
  | |- Runs _ (visit_opt _ ?o) _ => destruct o; unfold visit_opt
  | |- Runs _ (match ?x with _ => _ end) _ => destruct x
  | |- Runs ?P (bind _ _) ?R =>
      first [ solve [block]
            | apply (Runs_bind P (fun _ => P) R); [|intros ?; cbv beta] ]
  | |- Runs _ (close _) _ => apply Runs_under_close
  | |- Runs ?P ?m (fun _ _ => True) =>
      apply (Runs_weaken P P m (fun _ => P) (fun _ _ => True));
      [|done|done]
  | |- Runs _ (visitChildren _ _) _ => unfold visitChildren
  | |- Runs _ (forEach _ _) _ => apply Runs_forEach; intros ? ?
  | |- Runs _ (forEachIndexed _ 0 _) _ =>
      apply Runs_forEachIndexed; intros ? ? ?%list_elem_of_lookup_2
  | |- Runs _ (visit _) _ => apply Runs_under_visit; [eassumption..|]
  | |- Runs _ (__nestScope _ _ _ _) _ => apply Runs_under_nest; eassumption
  | |- Runs _ (ret _) _ => apply Runs_ret
  | |- Runs _ (visitPattern _ _ _ _) _ =>
      apply Runs_under_visitPattern;
      [eassumption..| |intros ? ? ?; solve [runs_block]]
  | |- Runs _ (visitPattern_callback _ _ _) _ =>
      unfold visitPattern_callback;
      apply Runs_under_visitPattern;
      [eassumption..| |intros ? ? ?; solve [runs_block]]
  | |- Runs _ _ _ => solve [block]
  end.

Lemma isVariableDeclarator_lookup (declarations : list Node) i decl :
  forallb isVariableDeclarator declarations = true ->
  declarations !! i = Some decl ->
  exists j id init, decl = TSESTree.VariableDeclarator j id init.
Proof using Type.
  intros Hall Hdecl. rewrite forallb_forall in Hall.
  specialize (Hall decl). destruct decl; try (by discriminate Hall;
    apply list_elem_of_In; eapply list_elem_of_lookup_2).
  eauto.
Qed.

Lemma Runs_VariableDeclaration i kind declarations :
  let node := TSESTree.VariableDeclaration i kind declarations in
  distinct_nodes node -> (forall x, psub x node -> good x) ->
  shape_ok md node = true ->
  Runs (open_under md node) (VariableDeclaration visit node)
       (fun _ => open_under md node).
Proof using Hvisit Hgood.
  intros node Hn Hsub Hnode. unfold VariableDeclaration, node.
  fold node. apply Runs_under_block. intros c.
  eapply Runs_bind; [apply Runs_currentScope_throw|].
  intros ?. apply Runs_pre. intros ->.
  eapply Runs_bind; [apply Runs_variableTargetScope|].
  intros target. apply Runs_pre. intros Htarget.
  apply Runs_forEachIndexed. intros k decl Hdecl.
  destruct (isVariableDeclarator_lookup _ _ _ Hnode Hdecl)
    as (j & id & init & ->).
  assert (Hd : psub (TSESTree.VariableDeclarator j id init) node).
  { apply psub_child. by eapply list_elem_of_lookup_2. }
  eapply Runs_bind.
  - unfold visitVariableDeclaration, node. rewrite Hdecl. fold node.
    apply Runs_visitPattern_psub; [done..| |].
    + eapply psub_trans; [|exact Hd]. apply psub_child. mem.
    + intros pattern info. runs_block.
  - intros ?. destruct init as [init|]; [|apply Runs_ret].
    apply Runs_visit_psub; [done..|].
    eapply psub_trans; [|exact Hd]. apply psub_child. mem.
Qed.

Lemma Runs_visitForIn i type lhs rhs body :
  distinct_nodes (TSESTree.ForIn i type lhs rhs body) ->
  (forall x, psub x (TSESTree.ForIn i type lhs rhs body) -> good x) ->
  shape_ok md (TSESTree.ForIn i type lhs rhs body) = true ->
  Runs (open_under md (TSESTree.ForIn i type lhs rhs body))
       (visitForIn visit (TSESTree.ForIn i type lhs rhs body))
       (fun _ _ => True).
Proof using Hvisit Hgood Hshape.
  intros Hn Hsub Hnode.
  assert (Hlhs : shape_ok md lhs = true).
  { apply Hshape, Hsub, psub_child. mem. }
  unfold visitForIn, __nestForScope.
  destruct lhs; try (runs; child).
  destruct declarations as [|[] ?]; try discriminate.
  runs; try child.
  match goal with
  | |- psub _ (TSESTree.ForIn _ _
                 (TSESTree.VariableDeclaration ?a ?b (?d :: ?ds)) _ _) =>
      apply (psub_trans _ d); [apply psub_child; mem|];
      apply (psub_trans _ (TSESTree.VariableDeclaration a b (d :: ds)));
      apply psub_child; mem
  end.
Qed.

Lemma Runs_ImportDeclaration i specifiers source :
  shape_ok md (TSESTree.ImportDeclaration i specifiers source) = true ->
  (forall I c,
     Runs (open_at I md c)
          (Importer_visit (TSESTree.ImportDeclaration i specifiers source)
                          (TSESTree.ImportDeclaration i specifiers source))
          (fun _ _ => True)) ->
  Runs (open_under md (TSESTree.ImportDeclaration i specifiers source))
       (ImportDeclaration Importer_visit
          (TSESTree.ImportDeclaration i specifiers source))
       (fun _ _ => True).
Proof using Type.
  intros Hnode Himport. unfold ImportDeclaration.
  apply Runs_pre_ex. intros c.
  eapply Runs_bind; [apply Runs_getOptions|].
  intros o. apply Runs_pre. intros Ho. simpl in Hnode.
  destruct (__isES6 o && isModule o); [|congruence]. unfold assert.
  eapply Runs_bind; [apply Runs_ret|]. intros ?. apply Himport.
Qed.

Lemma Runs_dispatch node c :
  distinct_nodes node -> (forall x, psub x node -> good x) ->
  shape_ok md node = true ->
  (forall I c,
     Runs (open_at I md c) (Importer_visit node node) (fun _ _ => True)) ->
  Runs (open_at (ids node) md c) (dispatch visit Importer_visit node)
       (fun _ _ => True).
Proof using All.
  intros Hn Hsub Hnode Himport.
  apply (Runs_weaken (open_under md node) _ _ (fun _ _ => True)
           (fun _ _ => True)); [|apply open_under_of_open_at|done].
  destruct node; cbn [dispatch].
  all: unfold Identifier, ThisExpression,
    AssignmentExpression, CatchClause, Program, Program_scopes,
    UpdateExpression, MemberExpression, visitProperty, LabeledStatement,
    ForStatement, visitClass, CallExpression, BlockStatement, WithStatement,
    SwitchStatement, visitFunction, visitExportDeclaration, ExportSpecifier,
    __nestGlobalScope, __nestModuleScope, __nestFunctionScope,
    __nestFunctionExpressionNameScope, __nestBlockScope, __nestSwitchScope,
    __nestCatchScope, __nestWithScope, __nestForScope, __nestClassScope.
  all: first
         [ by apply Runs_visitForIn
         | by apply Runs_ImportDeclaration
         | eapply Runs_weaken;
           [by apply Runs_VariableDeclaration|done|done]
         | runs; child ].
Qed.

(** A program can be visited with no scope open: it opens its own. *)
Lemma Runs_Program i body :
  distinct_nodes (TSESTree.Program i body) ->
  (forall x, psub x (TSESTree.Program i body) -> good x) ->
  Runs (fun r => wf r /\ moduleMode r = md)
       (Program visit (TSESTree.Program i body)) (fun _ _ => True).
Proof using Hvisit Hgood.
  intros Hn Hsub. unfold Program.
  apply (Runs_bind _ (fun _ => open_under md (TSESTree.Program i body)));
    [|intros ?; runs; child].
  unfold Program_scopes.
  apply (Runs_bind _ (fun _ r => wf r /\ moduleMode r = md)).
  { intros r Hr. exists (options (scopeManager r)), r. by split. }
  intros opts.
  apply (Runs_bind _ (fun _ => open_under md (TSESTree.Program i body)));
    [|intros ?; unfold __nestFunctionScope, __nestModuleScope; runs].
  intros r [Hwf Hmd]. unfold __nestGlobalScope.
  destruct (nestScope_variableScope GlobalScope (TSESTree.Program i body)
              false [] r eq_refl) as (r' & sc & Hrun & _).
  exists tt, r'. split; [done|].
  destruct (nestScope_step _ _ _ _ _ _ _ Hrun Hwf)
    as (Hwf' & Hc' & _ & He & sc' & Hsc & _ & Hb & _).
  exists (length (store r)). split; [done|]. split; [done|]. split.
  - intros c' sc'' Hc'' Hsc'. rewrite Hc' in Hc''. injection Hc'' as <-.
    rewrite Hsc in Hsc'. injection Hsc' as <-. rewrite Hb.
    by apply distinct_root.
  - unfold moduleMode. by rewrite (ext_options _ _ _ He).
Qed.

End Returns.

(** ** Trees of bounded depth *)

Lemma shaped_within_S depth md n :
  shaped_within (S depth) md n = true <->
  shape_ok md n = true /\
  forall c, c ∈ children n -> shaped_within depth md c = true.
Proof.
  cbn [shaped_within]. rewrite andb_true_iff, forallb_forall.
  split; intros [Hs Hc]; (split; [done|]); intros c Hin; apply Hc.
  - by apply list_elem_of_In.
  - by apply list_elem_of_In.
Qed.

Lemma shaped_within_mono md depth :
  forall n depth',
    shaped_within depth md n = true -> depth <= depth' ->
    shaped_within depth' md n = true.
Proof.
  induction depth as [|depth IH]; intros n depth' Hn Hle; [done|].
  destruct depth' as [|depth']; [lia|].
  apply shaped_within_S in Hn as [Hs Hc]. apply shaped_within_S.
  split; [done|]. intros c Hin. apply IH; [by apply Hc|lia].
Qed.

Lemma shaped_within_psub md x n :
  psub x n ->
  forall depth,
    shaped_within (S depth) md n = true -> shaped_within depth md x = true.
Proof.
  induction 1 as [c n Hc|c m n _ IH1 _ IH2]; intros depth Hn.
  - apply shaped_within_S in Hn as [_ Hn]. by apply Hn.
  - apply IH2 in Hn. destruct depth as [|depth]; [done|].
    eapply shaped_within_mono; [by apply IH1|lia].
Qed.

(** ** The walk of an import declaration *)

Lemma Runs_Importer_visit visit md (fuel : nat) :
  forall I c declaration node,
    shaped_within fuel md node = true ->
    Runs (open_at I md c) (Importer_visit visit fuel declaration node)
         (fun _ => open_at I md c).
Proof.
  induction fuel as [|fuel IH]; intros I c declaration node Hnode; [done|].
  apply shaped_within_S in Hnode as [_ Hc].
  cbn [Importer_visit]. unfold Importer_dispatch.
  destruct node;
    try (apply Runs_forEach; intros x Hx; apply IH; by apply Hc).
  unfold Importer_visitImport, visitPattern_callback, visitPattern,
    traverseIdentifierInPattern.
  cbn [PatternVisitor.processRightHandNodes].
  eapply Runs_bind; [|intros ?; apply Runs_ret].
  apply Runs_forEach. intros [pattern info] _. runs_block.
Qed.

(** ** The walk returns *)

Lemma visit_Runs `{StrictnessInference} md (depth : nat) :
  forall node c,
    shaped_within depth md node = true -> distinct_nodes node ->
    Runs (open_at (ids node) md c) (visit (S depth) node) (fun _ _ => True).
Proof.
  induction depth as [|depth IH]; intros node c Hnode Hn; [done|].
  cbn [visit].
  apply (Runs_dispatch md (visit (S depth))
           (Importer_visit (visit (S depth)) (S depth))
           (fun x => shaped_within depth md x = true)).
  - intros x. apply visit_Bal.
  - intros d x. apply Pure_Importer_visit.
  - intros x c' Hx Hdx. by apply IH.
  - intros x Hx. destruct depth as [|depth]; [done|].
    by apply shaped_within_S in Hx as [? _].
  - done.
  - intros x Hx. by eapply shaped_within_psub.
  - by apply shaped_within_S in Hnode as [? _].
  - intros I c'. eapply Runs_weaken;
      [by apply Runs_Importer_visit|done|done].
Qed.

(** A visit returns: on a tree of distinct nodes that have the shapes the
    handlers rely on, started with a scope open that belongs to none of the
    nodes, and given fuel for the depth of the tree. *)
Theorem visit_returns `{StrictnessInference} (depth fuel : nat) (node : Node)
    (r : Referencer) (c : nat) :
  shaped_within depth (moduleMode r) node = true -> depth < fuel ->
  distinct_nodes node -> wf r -> cur_ok (ids node) r -> cur r = Some c ->
  exists r', visit fuel node r = Ok tt r'.
Proof.
  intros Hnode Hfuel Hn Hwf Hok Hc.
  destruct fuel as [|fuel]; [lia|].
  destruct (visit_Runs (moduleMode r) fuel node c) with (r := r)
    as ([] & r' & Hrun & _); [|done|done|by exists r'].
  eapply shaped_within_mono; [done|lia].
Qed.

(** The analysis of a whole program returns, whether or not a scope is
    open when it starts. *)
Theorem program_returns `{StrictnessInference} (depth fuel i : nat)
    (body : list Node) (r : Referencer) :
  let node := TSESTree.Program i body in
  shaped_within depth (moduleMode r) node = true -> S depth < fuel ->
  distinct_nodes node -> wf r ->
  exists r', visit fuel node r = Ok tt r'.
Proof.
  intros node Hnode Hfuel Hn Hwf.
  destruct fuel as [|[|fuel]]; [lia..|].
  assert (Hshaped : shaped_within (S fuel) (moduleMode r) node = true)
    by (eapply shaped_within_mono; [done|lia]).
  cbn [visit dispatch].
  destruct (Runs_Program (moduleMode r) (visit (S fuel))
              (fun x => shaped_within fuel (moduleMode r) x = true))
    with (i := i) (body := body) (r := r) as ([] & r' & Hrun & _).
  - intros x. apply visit_Bal.
  - intros x c' Hx Hdx. by apply visit_Runs.
  - done.
  - intros x Hx. by eapply shaped_within_psub.
  - done.
  - by exists r'.
Qed.

(** * The claims *)

(** ** C1: [close] *)




(** ** C4: import declarations outside module mode *)

(** C4 (as amended).  An import declaration met while the analysis is not
    in module mode (the edition has no modules, or the program is a script)
    fails the assertion of its handler: the visit of the declaration throws,
    the statements that follow it are not visited, and the error leaves the
    walk of the whole program, which produces no result. *)
Theorem import_outside_module_aborts `{StrictnessInference}
    (fuel i : nat) (specifiers : list Node) (source : Node) (r : Referencer) :
  let node := TSESTree.ImportDeclaration i specifiers source in
  let error :=
    AssertionError
      "ImportDeclaration should appear when the mode is ES6 and in the module context." in
  __isES6 (options (scopeManager r)) && isModule (options (scopeManager r))
  = false ->
  visit (S fuel) node r = Throw error /\
  (forall pre post r0,
     forEach (visit (S fuel)) pre r0 = Ok tt r ->
     forEach (visit (S fuel)) (pre ++ node :: post) r0 = Throw error) /\
  (forall j pre post r0 r1,
     Program_scopes (TSESTree.Program j (pre ++ node :: post)) r0
     = Ok tt r1 ->
     forEach (visit (S fuel)) pre r1 = Ok tt r ->
     visit (S (S fuel)) (TSESTree.Program j (pre ++ node :: post)) r0
     = Throw error).
Proof.
  intros node error Hmode. subst node error.
  set (node := TSESTree.ImportDeclaration i specifiers source).
  set (error := AssertionError _).
  assert (Hthrow : visit (S fuel) node r = Throw error).
  { unfold node. cbn [visit dispatch].
    unfold ImportDeclaration, bind, getOptions.
    cbv beta iota. by rewrite Hmode. }
  assert (Hseq : forall pre post r0,
             forEach (visit (S fuel)) pre r0 = Ok tt r ->
             forEach (visit (S fuel)) (pre ++ node :: post) r0
             = Throw error).
  { intros pre post r0 Hpre. rewrite forEach_app. unfold bind at 1.
    rewrite Hpre. simpl. apply bind_Throw. exact Hthrow. }
  split; [exact Hthrow|]. split; [exact Hseq|].
  intros j pre post r0 r1 Hscopes Hpre.
  cbn [visit dispatch]. unfold Program. unfold bind at 1. rewrite Hscopes.
  apply bind_Throw. unfold visitChildren. cbn [children].
  by apply Hseq.
Qed.

(** C4 at a sample input: an import declaration visited in the global scope
    of a script. *)
Lemma import_outside_module_aborts_witness :
  __isES6 (options (scopeManager in_global_scope))
  && isModule (options (scopeManager in_global_scope)) = false /\
  visit (H := sloppy) 4 sample_import in_global_scope
  = Throw (AssertionError
             "ImportDeclaration should appear when the mode is ES6 and in the module context.").
Proof.
  split; [reflexivity|].
  exact (proj1 (import_outside_module_aborts (H := sloppy) 3 1 _ _
                  in_global_scope eq_refl)).
Defined.

(** C4 as stated fails: the analysis of a script that holds an import
    declaration does not skip the declaration and go on; the run ends with
    the assertion error. *)
Lemma script_with_import_throws :
  visit (H := sloppy) 5 sample_script_with_import
        (fresh_referencer script_options)
  = Throw (AssertionError
             "ImportDeclaration should appear when the mode is ES6 and in the module context.").
Proof. reflexivity. Qed.

(** ** C5: assignment expressions *)





(** ** C10: the declaration on the left of a for-in or for-of statement *)

(** C10 (as amended).  A for-in or for-of statement whose left-hand side is
    a variable declaration, visited in the open scope [c] with fuel for the
    depth of its well-shaped tree, is visited to the end.  The scope of the
    loop (the For scope when the declaration is block-scoped, the enclosing
    scope [c] when it is a [var] declaration) receives, after the references
    of the declaration itself and before those of the iterated expression
    and of the body, one write reference per leaf of the pattern of the first
    declarator: each has the iterated expression as its write source and
    both the partial and the init flag set.  Nothing else is recorded
    between the visit of the declaration and the visit of the iterated
    expression: the patterns of the further declarators play no part in
    these references. *)
Theorem loop_declaration_write_references `{StrictnessInference}
    (fuel i j d : nat) (type : TSESTree.ForInType) (kind : string)
    (id : Node) (init : option Node) (declarations : list Node)
    (rhs body : Node) (r : Referencer) (c : nat) (depth : nat) :
  let lhs :=
    TSESTree.VariableDeclaration j kind
      (TSESTree.VariableDeclarator d id init :: declarations) in
  let node := TSESTree.ForIn i type lhs rhs body in
  let loopScope :=
    if negb (String.eqb kind "var") then length (store r) else c in
  distinct_nodes node -> wf r -> cur_ok (ids node) r -> cur r = Some c ->
  shaped_within depth (moduleMode r) node = true -> depth < fuel ->
  exists r',
    visit fuel node r = Ok tt r' /\
    exists r1 r2 r3 r5 declared more,
      (* the declaration is visited in the scope of the loop *)
      cur r1 = Some loopScope /\ refs r1 loopScope = refs r loopScope /\
      visit (pred fuel) lhs r1 = Ok tt r2 /\
      refs r2 loopScope = refs r1 loopScope ++ declared /\
      (* the writes of the iterated value *)
      refs r3 loopScope = refs r2 loopScope ++ loopReferences id rhs /\
      (* the iterated expression and the body *)
      (visit (pred fuel) rhs ;; visit (pred fuel) body) r3 = Ok tt r5 /\
      refs r5 loopScope = refs r3 loopScope ++ more /\
      refs r' loopScope =
        refs r loopScope ++ declared ++ loopReferences id rhs ++ more.
Proof.
  intros lhs node loopScope Hn Hwf Hok Hc Hshape Hfuel.
  destruct (visit_returns depth fuel node r c) as [r' Hrun]; try done.
  exists r'. split; [exact Hrun|]. clear Hshape Hfuel.
  subst lhs node.
  destruct fuel as [|fuel]; [done|]. cbn [visit dispatch] in Hrun.
  unfold visitForIn in Hrun. cbv beta iota in Hrun.
  set (lhs := TSESTree.VariableDeclaration j kind _) in *.
  set (node := TSESTree.ForIn i type lhs rhs body) in *.
  apply bind_Ok in Hrun as ([] & r1 & Hnest & Hrun).
  apply bind_Ok in Hrun as ([] & r3 & Hleft & Hrun).
  apply bind_Ok in Hleft as ([] & r2 & Hleft & Hloop).
  apply bind_Ok in Hrun as ([] & r4 & Hrhs & Hrun).
  apply bind_Ok in Hrun as ([] & r5 & Hbody & Hclose).
  (* the scope of the loop is current once the For scope is nested *)
  assert (Hstart : wf r1 /\ cur r1 = Some loopScope /\
                   cur_ok (flat_map ids (children node)) r1 /\
                   refs r1 loopScope = refs r loopScope /\
                   loopScope < length (store r1)).
  { unfold loopScope. destruct (negb (String.eqb kind "var")).
    - unfold __nestForScope in Hnest.
      pose proof (nestScope_run _ _ _ _ _ _ _ Hnest)
        as (sc & Hst & Hcur & _ & Hb & _).
      destruct (nestScope_ext _ _ _ _ _ _ _ Hnest Hwf) as (_ & Hwf1 & _).
      apply nestScope_obs in Hnest as (_ & Hlen & Hr & _).
      split; [done|]. split; [done|]. split.
      { intros c' sc' Hc' Hsc'. rewrite Hcur in Hc'. injection Hc' as <-.
        rewrite Hst, list_lookup_middle in Hsc' by done.
        injection Hsc' as <-. rewrite Hb. by apply distinct_root. }
      split; [|lia]. rewrite Hr. unfold refs.
      by rewrite lookup_ge_None_2.
    - apply ret_Ok in Hnest as [_ <-]. split; [done|]. split; [done|].
      split; [by apply cur_ok_root|]. split; [done|]. by apply Hwf. }
  destruct Hstart as (Hwf1 & Hc1 & Hok1 & Hr1 & Hlt1).
  assert (Hlhs : psub lhs node) by (apply psub_child; mem).
  assert (Hrhs' : psub rhs node) by (apply psub_child; mem).
  assert (Hbody' : psub body node) by (apply psub_child; mem).
  (* the declaration *)
  destruct (Bal_visit_psub' fuel node lhs Hn Hlhs
              _ _ _ Hleft Hwf1 Hok1) as (He2 & Hwf2 & Hc2).
  destruct (ext_refs _ _ _ loopScope He2 Hlt1) as [declared Hdeclared].
  (* the writes of the iterated value *)
  unfold visitPattern_callback, visitPattern, traverseIdentifierInPattern
    in Hloop.
  cbn [PatternVisitor.processRightHandNodes] in Hloop.
  apply bind_Ok in Hloop as ([] & r2' & Hloop & [_ ->]%ret_Ok).
  assert (Hpure : Pure (forEach
            (fun '(pattern, _) =>
               let* c := currentScope_throw in
               __referencing c
                 (Reference.mk pattern ReferenceFlag.WRITE (Some rhs) None
                               true true))
            (PatternVisitor.leaves id))).
  { apply Pure_forEach. intros [pattern info] _. pure. }
  destruct (Hpure _ _ _ Hloop Hwf2) as (He3 & Hwf3 & Hc3).
  eapply (forEach_obs _ (fun r => cur r = Some loopScope)
            (fun r => refs r loopScope)
            (fun '(pattern, _) =>
               [Reference.mk pattern ReferenceFlag.WRITE (Some rhs) None
                             true true]))
    in Hloop as [_ Hrefs3]; [| |congruence].
  2:{ intros [pattern info] ra rb _ Hca Hcb.
      apply bind_Ok in Hcb
        as (c' & ? & [Hc' ->]%currentScope_throw_run & Hcb).
      rewrite Hca in Hc'. injection Hc' as <-.
      apply referencing_obs in Hcb as (Hcb' & Hr & _).
      split; [congruence|]. by rewrite Hr, decide_True. }
  (* the iterated value and the body *)
  assert (Hok3 : cur_ok (flat_map ids (children node)) r3).
  { eapply cur_ok_ext; [exact He3|done..|].
    eapply cur_ok_ext; [exact He2|done..]. }
  destruct (Bal_visit_psub' fuel node rhs Hn Hrhs'
              _ _ _ Hrhs Hwf3 Hok3) as (He4 & Hwf4 & Hc4).
  destruct (Bal_visit_psub' fuel node body Hn Hbody'
              _ _ _ Hbody Hwf4) as (He5 & Hwf5 & Hc5).
  { by eapply cur_ok_ext. }
  destruct (ext_refs _ _ _ loopScope (ext_trans _ _ _ _ He4 He5))
    as [more Hmore].
  { pose proof (ext_length _ _ _ He2). pose proof (ext_length _ _ _ He3).
    lia. }
  apply close_closes_only in Hclose as [Hco _]; [|done].
  assert (Hloops : refs r3 loopScope
                   = refs r2 loopScope ++ loopReferences id rhs).
  { rewrite Hrefs3. unfold loopReferences.
    rewrite <- flat_map_singleton_map. f_equal.
    apply flat_map_ext. by intros [pattern info]. }
  exists r1, r2, r3, r5, declared, more. cbn [pred].
  split; [done|]. split; [done|]. split; [done|]. split; [done|].
  split; [done|]. split.
  { apply bind_Ok. by exists tt, r4. }
  split; [done|].
  rewrite (closes_only_refs _ _ _ Hco), Hmore, Hloops, Hdeclared, Hr1.
  by rewrite <- !app_assoc.
Qed.

(** C10 at a sample input: [for (let [a, b] of xs) { }] in the global scope
    of a script; the For scope is the scope [1]. *)
Lemma loop_declaration_write_references_witness :
  exists r',
    visit (H := sloppy) 6 sample_for_of in_global_scope = Ok tt r' /\
    exists declared more,
      refs r' 1
      = refs in_global_scope 1 ++ declared
        ++ loopReferences sample_loop_pattern (TSESTree.Identifier 7 "xs")
        ++ more.
Proof.
  destruct (loop_declaration_write_references (H := sloppy) 6 1 2 3
              TSESTree.ForOfStatement "let" sample_loop_pattern None []
              (TSESTree.Identifier 7 "xs") (TSESTree.BlockStatement 8 [])
              in_global_scope 0 5)
    as (r' & Hrun & r1 & r2 & r3 & r5 & declared & more & Hrefs).
  - by apply distinct_nodesb_sound.
  - by apply wfb_sound.
  - by apply cur_okb_sound.
  - reflexivity.
  - reflexivity.
  - lia.
  - exists r'. split; [exact Hrun|]. exists declared, more.
    apply Hrefs.
Defined.

(** C10 as stated fails: the pattern of the first declarator has two leaves
    and the loop records two write references of the iterated value, one
    per leaf (followed by the read of the iterated value itself). *)
Lemma loop_declaration_two_write_references :
  refs (run_state (visit (H := sloppy) 6 sample_for_of) in_global_scope) 1
  = [Reference.mk (TSESTree.Identifier 5 "a") ReferenceFlag.WRITE
       (Some (TSESTree.Identifier 7 "xs")) None true true;
     Reference.mk (TSESTree.Identifier 6 "b") ReferenceFlag.WRITE
       (Some (TSESTree.Identifier 7 "xs")) None true true;
     Reference.mk (TSESTree.Identifier 7 "xs") ReferenceFlag.READ
       None None false false].
Proof. vm_compute. reflexivity. Qed.

(** ** C3: variable declarations *)



(** ** C2: functions *)

(** C2.  A function node visited in the open scope [c], with fuel for the
    depth of its well-shaped tree, is visited to the end.  The name of a
    named function declaration is defined in [c], before anything else
    happens to [c]; for a named function expression a FunctionExpressionName
    scope is nested first (it is the next scope created, its upper scope is
    [c] and it binds the name) and the Function scope is nested in it;
    otherwise the Function scope is nested in [c].  The parameters are
    defined in the Function scope, each leaf as a Parameter binding that
    carries the position of its parameter, in the order of the parameters
    and of their leaves.  The visit ends with [c] current again. *)
Theorem function_scopes_and_parameters `{StrictnessInference}
    (fuel i : nat) (type : TSESTree.FunctionType) (id : option Node)
    (params : list Node) (body : option Node) (r : Referencer) (c : nat)
    (depth : nat) :
  let node := TSESTree.Function i type id params body in
  let named_expression :=
    match type, id with
    | TSESTree.FunctionExpression, Some _ => true
    | _, _ => false
    end in
  let k := length (store r) in
  let functionScope := if named_expression then S k else k in
  distinct_nodes node -> wf r -> cur_ok (ids node) r -> cur r = Some c ->
  shaped_within depth (moduleMode r) node = true -> depth < fuel ->
  exists r',
    visit fuel node r = Ok tt r' /\
    ((forall name,
       type = TSESTree.FunctionDeclaration -> id = Some name ->
       exists more,
         defs r' c =
           defs r c
           ++ [new_Definition VariableType.FunctionName name node
                              None None None]
           ++ more) /\
    (forall name,
       type = TSESTree.FunctionExpression -> id = Some name ->
       exists fen,
         store r' !! k = Some fen /\
         Scope.type fen = FunctionExpressionNameScope /\
         Scope.block fen = node /\ Scope.upper fen = Some c /\
         [new_Definition VariableType.FunctionName name node None None None]
           `prefix_of` Scope.definitions fen) /\
    (exists fs,
       store r' !! functionScope = Some fs /\
       Scope.type fs = FunctionScope /\ Scope.block fs = node /\
       Scope.upper fs = (if named_expression then Some k else Some c) /\
       parameterDefinitions node 0 params `sublist_of` Scope.definitions fs) /\
    cur r' = Some c).
Proof.
  intros node named k kf Hn Hwf Hok Hc Hshape Hfuel.
  destruct (visit_returns depth fuel node r c) as [r' Hrun]; try done.
  exists r'. split; [exact Hrun|]. clear Hshape Hfuel.
  pose proof (visit_Bal fuel node Hn _ _ _ Hrun Hwf Hok) as (_ & _ & Hcur').
  destruct fuel as [|fuel]; [done|]. unfold node in Hrun.
  cbn [visit dispatch] in Hrun. unfold visitFunction in Hrun.
  fold node in Hrun.
  apply bind_Ok in Hrun as ([] & r1 & Hname & Hrun).
  apply bind_Ok in Hrun as ([] & r2 & Hfen & Hrun).
  apply bind_Ok in Hrun as ([] & r3 & Hfs & Hrun).
  apply bind_Ok in Hrun as ([] & r4 & Hparams & Hrun).
  apply bind_Ok in Hrun as ([] & r5 & Hbody & Hclose).
  (* the name of a declaration *)
  assert (H1 : wf r1 /\ cur r1 = Some c /\ ext (ids node) r r1 /\
               length (store r1) = length (store r) /\
               forall name,
                 type = TSESTree.FunctionDeclaration -> id = Some name ->
                 defs r1 c =
                   defs r c
                   ++ [new_Definition VariableType.FunctionName name node
                                      None None None]).
  { destruct type, id as [name|];
      try (apply ret_Ok in Hname as [_ <-];
           split; [done|]; split; [done|]; split; [apply ext_refl|];
           split; [done|]; by intros ? ? ?).
    destruct (Pure_of_run _ _ _ _ Hname Hwf) as (He & Hwf1 & Hc1);
      [pure|].
    apply bind_Ok in Hname
      as (c' & ? & [Hc' ->]%currentScope_throw_run & Hname).
    rewrite Hc in Hc'. injection Hc' as <-.
    pose proof Hname as (sc & Hsc & ->)%updateScope_run.
    apply define_obs in Hname as (_ & Hd & _).
    split; [done|]. split; [congruence|]. split; [ext_tree|].
    split; [by rewrite store_set_store, length_insert|].
    intros name' _ [= <-]. by rewrite Hd, decide_True. }
  destruct H1 as (Hwf1 & Hc1 & He1 & Hl1 & Hdef1).
  (* the scope of the name of a function expression *)
  assert (H2 : wf r2 /\ cur r2 = (if named then Some k else Some c) /\
               ext (ids node) r1 r2 /\
               length (store r2) = kf /\
               forall name,
                 type = TSESTree.FunctionExpression -> id = Some name ->
                 exists fen,
                   store r2 !! k = Some fen /\
                   Scope.type fen = FunctionExpressionNameScope /\
                   Scope.block fen = node /\ Scope.upper fen = Some c /\
                   Scope.definitions fen =
                     [new_Definition VariableType.FunctionName name node
                                     None None None]).
  { unfold kf, named, k.
    destruct type, id as [name|];
      try (apply ret_Ok in Hfen as [_ <-];
           split; [done|]; split; [done|]; split; [apply ext_refl|];
           split; [done|]; by intros ? ? ?).
    unfold __nestFunctionExpressionNameScope in Hfen.
    destruct (nestScope_step _ _ _ _ _ _ _ Hfen Hwf1)
      as (Hwf2 & Hc2 & Hl2 & He2 & fen & Hfen' & Hty & Hb & Hup & Hd & _).
    rewrite Hl1 in *. split; [done|]. split; [done|].
    split; [ext_tree|]. split; [done|].
    intros name' _ [= <-]. exists fen. unfold node in Hd.
    repeat split; try done. congruence. }
  destruct H2 as (Hwf2 & Hc2 & He2 & Hl2 & Hfen2).
  (* the Function scope *)
  apply bind_Ok in Hfs as (inner & ? & [= <- <-] & Hfs).
  unfold __nestFunctionScope in Hfs.
  destruct (nestScope_step _ _ _ _ _ _ _ Hfs Hwf2)
    as (Hwf3 & Hc3 & Hl3 & He3 & fs & Hfs3 & Hty3 & Hb3 & Hup3 & Hd3 & _).
  rewrite Hl2 in *.
  assert (Hok3 : cur_ok (flat_map ids (children node)) r3).
  { intros c' sc' Hc' Hsc'. rewrite Hc3 in Hc'. injection Hc' as <-.
    rewrite Hfs3 in Hsc'. injection Hsc' as <-. rewrite Hb3.
    by apply distinct_root. }
  (* the parameters *)
  destruct (parameters_loop fuel node kf Hn params 0 r3 r4)
    as (added & Hadded & Hsub & Hwf4 & Hc4 & He4); try done.
  { intros x Hx. apply psub_child. unfold node. mem. }
  assert (Hd3' : defs r3 kf = []) by (unfold defs; by rewrite Hfs3, Hd3).
  rewrite Hd3' in Hadded. simpl in Hadded.
  (* the body *)
  assert (H5 : ext (flat_map ids (children node)) r4 r5 /\ wf r5).
  { destruct body as [b|].
    - destruct (Bal_function_body fuel node b Hn ltac:(unfold node; mem)
                  _ _ _ Hbody Hwf4) as (He5 & Hwf5 & _); [|done].
      by eapply cur_ok_ext.
    - apply ret_Ok in Hbody as [_ <-]. eauto using ext_refl. }
  destruct H5 as [He5 Hwf5].
  apply close_closes_only in Hclose as [Hco _]; [|done].
  (* the scopes at the end *)
  assert (He3' : ext (ids node) r3 r') by ext_chain.
  assert (He2' : ext (ids node) r2 r').
  { eapply ext_trans; [|exact He3']. ext_tree. }
  assert (He1' : ext (ids node) r1 r').
  { eapply ext_trans; [|exact He2']. ext_tree. }
  split; [|split; [|split; [|congruence]]].
  - intros name Hty Hid.
    destruct (ext_defs _ _ _ c He1') as [more Hmore].
    { rewrite Hl1. by apply Hwf. }
    exists more. by rewrite Hmore, (Hdef1 name Hty Hid), <- app_assoc.
  - intros name Hty Hid.
    destruct (Hfen2 name Hty Hid) as (fen & Hfen' & Hty' & Hb' & Hup' & Hd').
    destruct (ext_old _ _ _ He2' _ _ Hfen') as (fen' & Hfen'' & Hle).
    exists fen'. split; [done|].
    rewrite <- (le_type _ _ Hle), <- (le_block _ _ Hle),
      <- (le_upper _ _ Hle).
    repeat split; try done. rewrite <- Hd'. apply (le_definitions _ _ Hle).
  - destruct (ext_old _ _ _ He3' _ _ Hfs3) as (fs' & Hfs' & Hle).
    exists fs'. split; [done|].
    rewrite <- (le_type _ _ Hle), <- (le_block _ _ Hle),
      <- (le_upper _ _ Hle).
    split; [done|]. split; [done|]. split.
    { rewrite Hup3, Hc2. unfold named. by destruct type, id. }
    destruct (ext_defs _ _ _ kf He5) as [more Hmore].
    { pose proof (ext_length _ _ _ He4). lia. }
    assert (Scope.definitions fs' = defs r' kf) as ->.
    { unfold defs. by rewrite Hfs'. }
    rewrite (closes_only_defs _ _ _ Hco), Hmore, Hadded.
    by apply sublist_inserts_r.
Qed.

(** C2 at a sample input: [(function f(f, [a = f]) { })] in the global scope
    of a script; the scope of the name is the scope [1], the Function scope
    is the scope [2]. *)
Lemma function_scopes_and_parameters_witness :
  exists r',
    visit (H := sloppy) 6 sample_function_expression in_global_scope
    = Ok tt r' /\
    (exists fen,
       store r' !! 1 = Some fen /\
       Scope.type fen = FunctionExpressionNameScope /\
       Scope.block fen = sample_function_expression /\
       Scope.upper fen = Some 0 /\
       [new_Definition VariableType.FunctionName (TSESTree.Identifier 3 "f")
                       sample_function_expression None None None]
         `prefix_of` Scope.definitions fen) /\
    (exists fs,
       store r' !! 2 = Some fs /\
       Scope.type fs = FunctionScope /\
       Scope.block fs = sample_function_expression /\
       Scope.upper fs = Some 1 /\
       parameterDefinitions sample_function_expression 0 sample_parameters
         `sublist_of` Scope.definitions fs) /\
    cur r' = Some 0.
Proof.
  destruct (function_scopes_and_parameters (H := sloppy) 6 2
              TSESTree.FunctionExpression
              (Some (TSESTree.Identifier 3 "f")) sample_parameters
              (Some (TSESTree.BlockStatement 9 [])) in_global_scope 0 5)
    as (r' & Hrun & _ & Hfen & Hfs & Hcur).
  - by apply distinct_nodesb_sound.
  - by apply wfb_sound.
  - by apply cur_okb_sound.
  - reflexivity.
  - reflexivity.
  - lia.
  - exists r'. split; [exact Hrun|].
    split; [exact (Hfen _ eq_refl eq_refl)|]. split; [exact Hfs|exact Hcur].
Defined.

(** ** C7: classes *)



(** ** C8: loops and their scope *)



(** A [var] loop nests no scope of its own: no scope of the final store has
    the loop as its block, and the global scope has gained the binding of the
    loop variable. *)
Example var_loop_opens_no_scope :
  let r' := run_state (visit (H := sloppy) 6 sample_for_var) in_global_scope in
  forallb (fun s => negb (same_node sample_for_var (Scope.block s)))
          (store r') = true /\
  defs r' 0
  = defs in_global_scope 0
    ++ variableDefinitions sample_for_var_head "var" 0
         [TSESTree.VariableDeclarator 3 (TSESTree.Identifier 4 "i") None].
Proof. vm_compute. done. Qed.

(** ** C9: the body of a function *)

(** C9.  A function whose body is a block statement, visited with a scope
    open and with fuel for the depth of its well-shaped tree, is visited to
    the end, whatever the options of the analysis.  No scope created during
    the visit has the body block as its block, so the body opens no Block
    scope (nor any other); the statements of the body are visited in order
    with the Function scope of the function current, which is still current
    after them and is then closed; and the bindings of every variable
    declaration among these statements, [let] and [const] included, are
    bindings of the Function scope. *)
Theorem function_body_block_opens_no_scope `{StrictnessInference}
    (fuel i : nat) (type : TSESTree.FunctionType) (id : option Node)
    (params : list Node) (j : nat) (statements : list Node)
    (r : Referencer) (c : nat) (depth : nat) :
  let body := TSESTree.BlockStatement j statements in
  let node := TSESTree.Function i type id params (Some body) in
  distinct_nodes node -> wf r -> cur_ok (ids node) r -> cur r = Some c ->
  shaped_within depth (moduleMode r) node = true -> depth <= fuel ->
  exists r',
    visit (S fuel) node r = Ok tt r' /\
    ((forall h s,
       length (store r) <= h -> store r' !! h = Some s ->
       nid (Scope.block s) <> j) /\
    exists fs r4 r5,
      length (store r) <= fs /\
      (exists s,
         store r4 !! fs = Some s /\
         Scope.type s = FunctionScope /\ Scope.block s = node) /\
      cur r4 = Some fs /\
      forEach (visit fuel) statements r4 = Ok tt r5 /\
      cur r5 = Some fs /\
      close node r5 = Ok tt r' /\
      forall k kind declarations,
        TSESTree.VariableDeclaration k kind declarations ∈ statements ->
        variableDefinitions (TSESTree.VariableDeclaration k kind declarations)
                            kind 0 declarations
          `sublist_of` defs r' fs).
Proof.
  intros body node Hn Hwf Hok Hc Hshape Hfuel.
  destruct (visit_returns depth (S fuel) node r c) as [r' Hrun];
    try done; [lia|].
  exists r'. split; [exact Hrun|]. clear Hshape Hfuel.
  unfold node in Hrun. cbn [visit dispatch] in Hrun.
  unfold visitFunction in Hrun. fold body in Hrun. fold node in Hrun.
  apply bind_Ok in Hrun as ([] & r1 & Hname & Hrun).
  apply bind_Ok in Hrun as ([] & r2 & Hfen & Hrun).
  apply bind_Ok in Hrun as ([] & r3 & Hfs & Hrun).
  apply bind_Ok in Hrun as ([] & r4 & Hparams & Hrun).
  apply bind_Ok in Hrun as ([] & r5 & Hbody & Hclose).
  unfold body, visitChildren in Hbody. cbn [children] in Hbody.
  fold body in Hbody.
  destruct (function_prelude node type id r r1 r2 r3 Hwf Hname Hfen Hfs)
    as (fs & s & Hfs_new & Hl3 & Hwf3 & Hc3 & He3 & Hs3 & Hty & Hb & Hvs).
  (* the nodes of the function *)
  assert (Hbody_sub : psub body node) by (apply psub_child; unfold node; mem).
  assert (Hparam_sub : forall x, x ∈ params -> psub x node)
    by (intros x Hx; apply psub_child; unfold node; mem).
  assert (Hstmt_sub : forall x, x ∈ statements -> psub x node).
  { intros x Hx. eapply psub_trans; [|exact Hbody_sub]. by apply psub_child. }
  assert (Hparams_ids :
            flat_map ids params ⊆ flat_map ids (children node)).
  { intros y (x & Hx & Hy)%list_elem_of_In%in_flat_map.
    apply list_elem_of_In in Hx, Hy. by eapply psub_ids; [apply Hparam_sub|]. }
  assert (Hstmts_ids :
            flat_map ids statements ⊆ flat_map ids (children node)).
  { intros y (x & Hx & Hy)%list_elem_of_In%in_flat_map.
    apply list_elem_of_In in Hx, Hy. by eapply psub_ids; [apply Hstmt_sub|]. }
  assert (Hj : j ∉ nid node :: flat_map ids params
                     ++ flat_map ids statements).
  { pose proof Hn as Hn'. unfold distinct_nodes in Hn'.
    rewrite (ids_children node) in Hn'. unfold node in Hn' at 2.
    cbn [children] in Hn'. rewrite !flat_map_app in Hn'.
    cbn [opt_nodes flat_map] in Hn'. rewrite app_nil_r in Hn'.
    rewrite (ids_children body) in Hn'. cbn [nid children body] in Hn'.
    apply NoDup_cons in Hn' as [Hi Hn'].
    apply NoDup_app in Hn' as (_ & _ & Hn').
    apply NoDup_app in Hn' as (_ & Hpj & Hn').
    apply NoDup_cons in Hn' as [Hjs _].
    rewrite !not_elem_of_cons, not_elem_of_app. split; [|split; [|done]].
    - intros Hij. apply Hi. rewrite !elem_of_app, elem_of_cons.
      right. right. left. by symmetry.
    - intros Hp. apply (Hpj _ Hp). by left. }
  (* the Function scope is current, and it is the scope of [node] *)
  assert (Hok3 : cur_ok (flat_map ids (children node)) r3).
  { intros c' sc' Hc' Hsc'. rewrite Hc3 in Hc'. injection Hc' as <-.
    rewrite Hs3 in Hsc'. injection Hsc' as <-. rewrite Hb.
    by apply distinct_root. }
  (* the parameters *)
  assert (Hp : ext (flat_map ids params) r3 r4 /\ wf r4 /\ cur r4 = cur r3).
  { eapply (Bal_forEachIndexed (flat_map ids params)); [|exact Hparams|done|].
    - intros k x Hx. eapply Bal_mono; [by apply ids_elem|].
      apply Bal_visitPattern_root; [|intros; pure].
      eapply psub_distinct; [|exact Hn]. by apply Hparam_sub.
    - by eapply cur_ok_mono. }
  destruct Hp as (He4 & Hwf4 & Hc4).
  assert (Hok4 : cur_ok (flat_map ids (children node)) r4).
  { eapply cur_ok_ext; [exact He4|done..]. }
  (* the statements of the body *)
  assert (Hb5 : ext (flat_map ids statements) r4 r5 /\ wf r5 /\
                cur r5 = cur r4).
  { eapply (Bal_statements fuel statements); [|exact Hbody|done|].
    - intros x Hx. eapply psub_distinct; [|exact Hn]. by apply Hstmt_sub.
    - by eapply cur_ok_mono. }
  destruct Hb5 as (He5 & Hwf5 & Hc5).
  pose proof Hclose as [Hco Hwf']%close_closes_only; [|done].
  destruct (ext_old _ _ _ He4 _ _ Hs3) as (s4 & Hs4 & Hle4).
  split.
  - (* no scope for the body *)
    intros h s' Hh Hs' Hblock. apply Hj.
    rewrite <- Hblock.
    assert (He : ext (nid node :: flat_map ids params
                        ++ flat_map ids statements) r r').
    { eapply ext_trans; [eapply ext_mono; [|exact He3]|].
      { intros y ->%list_elem_of_singleton. by left. }
      eapply ext_trans; [eapply ext_mono; [|exact He4]|].
      { intros y Hy. right. apply elem_of_app. by left. }
      eapply ext_trans; [eapply ext_mono; [|exact He5]|].
      { intros y Hy. right. apply elem_of_app. by right. }
      eapply ext_mono; [apply nil_subseteq|]. by apply closes_only_ext. }
    by apply (ext_new _ _ _ He h s').
  - exists fs, r4, r5. split; [done|]. split.
    { exists s4. split; [done|].
      by rewrite <- (le_type _ _ Hle4), <- (le_block _ _ Hle4). }
    split; [congruence|]. split; [done|]. split; [congruence|].
    split; [done|].
    (* a declaration among the statements *)
    intros k kind declarations (pre & post & Hsplit)%list_elem_of_split.
    rewrite Hsplit in Hbody, Hstmt_sub. rewrite forEach_app in Hbody.
    apply bind_Ok in Hbody as ([] & ra & Hpre & Hbody).
    cbn [forEach] in Hbody.
    apply bind_Ok in Hbody as ([] & rb & Hdecl & Hpost).
    set (d := TSESTree.VariableDeclaration k kind declarations) in *.
    destruct (Bal_forEach (flat_map ids (children node)) (visit fuel) pre)
      with (r := r4) (a := tt) (r' := ra) as (Hea & Hwfa & Hca);
      [|done..|].
    { intros x Hx. apply Bal_visit_psub'; [done|]. apply Hstmt_sub.
      apply elem_of_app. by left. }
    assert (Hoka : cur_ok (flat_map ids (children node)) ra)
      by (by eapply cur_ok_ext).
    destruct (ext_old _ _ _ Hea _ _ Hs4) as (sa & Hsa & Hlea).
    assert (Hd : psub d node).
    { apply Hstmt_sub. apply elem_of_app. right. by left. }
    destruct (VariableDeclaration_defs fuel k kind declarations ra rb fs sa)
      as (added & Hadded & Hsub & Hcb); try done.
    { by eapply psub_distinct. }
    { eapply cur_ok_mono; [|exact Hoka]. by apply psub_ids. }
    { congruence. }
    assert (Htarget : (if String.eqb kind "var"
                       then Scope.variableScope sa else fs) = fs).
    { destruct (String.eqb kind "var"); [|done].
      by rewrite <- (le_variableScope _ _ Hlea),
                 <- (le_variableScope _ _ Hle4). }
    rewrite Htarget in Hadded.
    destruct (Bal_visit_psub' fuel node d Hn Hd _ _ _ Hdecl Hwfa Hoka)
      as (Heb & Hwfb & _).
    destruct (Bal_forEach (flat_map ids (children node)) (visit fuel) post)
      with (r := rb) (a := tt) (r' := r5) as (Hee & _ & _);
      [|done..| |].
    { intros x Hx. apply Bal_visit_psub'; [done|]. apply Hstmt_sub.
      apply elem_of_app. right. by right. }
    { eapply cur_ok_ext; [exact Heb|done|congruence|done]. }
    destruct (ext_defs _ _ _ fs Hee) as [more Hmore].
    { pose proof (ext_length _ _ _ Heb). apply lookup_lt_Some in Hsa. lia. }
    rewrite (closes_only_defs _ _ _ Hco), Hmore, Hadded.
    apply sublist_inserts_r, sublist_inserts_l. exact Hsub.
Qed.

Lemma function_body_block_opens_no_scope_witness :
  exists r',
    visit (H := sloppy) 6 sample_function_declaration in_global_scope
    = Ok tt r' /\
    (forall h s,
       length (store in_global_scope) <= h -> store r' !! h = Some s ->
       nid (Scope.block s) <> 3) /\
    exists fs,
      length (store in_global_scope) <= fs /\
      variableDefinitions sample_let_declaration "let" 0
        [TSESTree.VariableDeclarator 5 (TSESTree.Identifier 6 "x") None]
        `sublist_of` defs r' fs.
Proof.
  destruct (function_body_block_opens_no_scope (H := sloppy) 5 1
              TSESTree.FunctionDeclaration
              (Some (TSESTree.Identifier 2 "f")) [] 3
              [sample_let_declaration] in_global_scope 0 5)
    as (r' & Hrun & Hnone & fs & r4 & r5 & Hfs & _ & _ & _ & _ & _ & Hdecl).
  - by apply distinct_nodesb_sound.
  - by apply wfb_sound.
  - by apply cur_okb_sound.
  - reflexivity.
  - reflexivity.
  - lia.
  - exists r'. split; [exact Hrun|]. split; [exact Hnone|].
    exists fs. split; [exact Hfs|]. apply Hdecl. by left.
Defined.

(** The same block visited as a statement of the program does open a Block
    scope in this edition of the language: the scope [1] of the final
    store. *)
Example block_statement_opens_block_scope :
  let r' :=
    run_state (visit (H := sloppy) 6 sample_function_body) in_global_scope in
  (fun s => (Scope.type s, nid (Scope.block s))) <$> store r' !! 1
  = Some (BlockScope, 3).
Proof. vm_compute. reflexivity. Qed.

(** ** C6: the hint that the program is already strict *)

(** C6, amended.  Take any state and run the part of [Program] that opens
    the scopes of the program, once with the hint switched off and once
    with the hint switched on.  Both runs succeed.  They end with the same
    current scope: the innermost scope opened for the program, which is the
    Module scope for a module of the 2015 edition, else the implicit
    Function scope under the Node.js hint, else the Global scope.  The final
    states differ in the hint itself and, when strict mode is supported, in
    the [isStrict] flag of that innermost scope, which the hint sets to
    [true]; nothing else differs, and nothing at all when strict mode is not
    supported. *)
Theorem implied_strict_sets_innermost_root_scope `{StrictnessInference}
    (node : Node) (r : Referencer) :
  let opts := options (scopeManager r) in
  let c := rootScope opts (length (store r)) in
  exists r_off sc,
    Program_scopes node (with_impliedStrict false r) = Ok tt r_off /\
    cur r_off = Some c /\ store r_off !! c = Some sc /\
    Scope.type sc = rootScopeType opts /\ Scope.block sc = node /\
    Program_scopes node (with_impliedStrict true r) =
      Ok tt (with_impliedStrict true
               (if isStrictModeSupported opts
                then set_store (<[c := Scope.set_isStrict true sc]>
                                  (store r_off)) r_off
                else r_off)).
Proof.
  intros opts c.
  destruct (Program_nesting node opts r)
    as (r3 & sc & Hc3 & Hsc3 & Hty & Hb & Hrun).
  assert (Hblind : forall last : M unit,
    Blind last ->
    Blind (__nestGlobalScope node ;;
           (if __isNodejsScope opts then
              (let* c := currentScope_throw in
               updateScope c (Scope.set_isStrict false)) ;;
              __nestFunctionScope node false
            else ret tt) ;;
           (if __isES6 opts && isModule opts then __nestModuleScope node
            else ret tt) ;;
           last)).
  { intros last Hlast. apply Blind_bind; [apply Blind_nestScope|intros _].
    apply Blind_bind; [|intros _; apply Blind_bind; [|by intros _]].
    - destruct (__isNodejsScope opts); [|apply Blind_ret].
      apply Blind_bind; [apply Blind_updateScope_current|intros _].
      apply Blind_nestScope.
    - destruct (__isES6 opts && isModule opts); [|apply Blind_ret].
      apply Blind_nestScope. }
  exists (with_impliedStrict false r3), sc.
  split; [|split; [|split; [|split; [|split]]]].
  all: try done.
  - unfold Program_scopes. unfold bind at 1, getOptions.
    cbn [with_impliedStrict scopeManager options isImpliedStrict
         __isNodejsScope __isES6 isModule isStrictModeSupported].
    fold opts. rewrite andb_false_r.
    apply (Hblind (ret tt) (Blind_ret tt) false r tt r3). by apply Hrun.
  - unfold Program_scopes. unfold bind at 1, getOptions.
    cbn [with_impliedStrict scopeManager options isImpliedStrict
         __isNodejsScope __isES6 isModule isStrictModeSupported].
    fold opts. rewrite andb_true_r.
    destruct (isStrictModeSupported opts).
    + apply (Hblind _ (Blind_updateScope_current _) true r tt
               (set_store (<[c := Scope.set_isStrict true sc]> (store r3))
                          r3)).
      apply Hrun. by apply updateScope_current.
    + apply (Hblind (ret tt) (Blind_ret tt) true r tt r3). by apply Hrun.
Qed.

(** C6 as stated fails under the Node.js scope hint: with and without the
    hint the Global scope [0] of an empty program is sloppy, and it is the
    implicit Function scope [1] that the hint makes strict. *)
Lemma implied_strict_under_nodejs_scope :
  let off :=
    run_state (visit (H := sloppy) 6 sample_program)
              (fresh_referencer (nodejs_options false)) in
  let on :=
    run_state (visit (H := sloppy) 6 sample_program)
              (fresh_referencer (nodejs_options true)) in
  visit (H := sloppy) 6 sample_program
        (fresh_referencer (nodejs_options true)) = Ok tt on /\
  Scope.type <$> store on !! 0 = Some GlobalScope /\
  strictAt off 0 = Some false /\ strictAt on 0 = Some false /\
  Scope.type <$> store on !! 1 = Some FunctionScope /\
  strictAt off 1 = Some false /\ strictAt on 1 = Some true.
Proof. vm_compute. repeat split; reflexivity. Qed.

(** * Invariants of the store along the walk *)

(** ** What exists is kept *)

Lemma scope_kept_refl a : scope_kept a a.
Proof. split; auto using scope_le_refl. Qed.

Lemma scope_kept_trans a b c :
  scope_kept a b -> scope_kept b c -> scope_kept a c.
Proof.
  intros [] []. split; eauto using scope_le_trans; try congruence. by etrans.
Qed.

Lemma keeps_refl r : keeps r r.
Proof. split; eauto using scope_kept_refl. Qed.

Lemma keeps_trans r r' r'' : keeps r r' -> keeps r' r'' -> keeps r r''.
Proof.
  intros [Ho1 Hi1 Hs1] [Ho2 Hi2 Hs2]. split; [congruence..|].
  intros h sc Hsc. destruct (Hs1 _ _ Hsc) as (sc' & Hsc' & Hk1).
  destruct (Hs2 _ _ Hsc') as (sc'' & Hsc'' & Hk2).
  eauto using scope_kept_trans.
Qed.

Lemma Kept_define n d : Kept (Scope.__define n d).
Proof.
  intros sc. split; [apply Monotone_define|simpl..]; try done.
  by apply prefix_app_r.
Qed.

Lemma Kept_referencing x : Kept (Scope.__referencing x).
Proof. intros sc. by split; [apply Monotone_referencing|simpl..]. Qed.

Lemma Kept_detectEval : Kept Scope.__detectEval.
Proof. intros sc. by split; [apply Monotone_detectEval|simpl..]. Qed.

Lemma Kept_detectThis : Kept Scope.__detectThis.
Proof. intros sc. by split; [apply Monotone_detectThis|simpl..]. Qed.

Lemma Kept_close : Kept Scope.__close.
Proof. intros sc. by split; [apply Monotone_close|simpl..]. Qed.

Lemma Stable_ret {A} (a : A) : Stable (ret a).
Proof. intros r b r' [_ <-]%ret_Ok. apply keeps_refl. Qed.

Lemma Stable_throw {A} e : Stable (@throw A e).
Proof. by intros r b r' ?. Qed.

Lemma Stable_bind {A B} (m : M A) (k : A -> M B) :
  Stable m -> (forall a, Stable (k a)) -> Stable (bind m k).
Proof.
  intros Hm Hk r b r'' (a & r' & H1 & H2)%bind_Ok.
  eapply keeps_trans; [by eapply Hm|by eapply Hk].
Qed.

Lemma Stable_forEach {A} (f : A -> M unit) (xs : list A) :
  (forall x, Stable (f x)) -> Stable (forEach f xs).
Proof.
  intros Hf. induction xs as [|x xs IH]; simpl; [apply Stable_ret|].
  apply Stable_bind; [apply Hf|]. by intros _.
Qed.

Lemma Stable_forEachIndexed {A} (f : nat -> A -> M unit) (xs : list A) i :
  (forall j x, Stable (f j x)) -> Stable (forEachIndexed f i xs).
Proof.
  intros Hf. revert i. induction xs as [|x xs IH]; simpl; intros i;
    [apply Stable_ret|].
  apply Stable_bind; [apply Hf|]. by intros _.
Qed.

Lemma Stable_updateScope h f : Kept f -> Stable (updateScope h f).
Proof.
  intros Hf r a r' (sc & Hsc & ->)%updateScope_run. split; [done..|].
  intros h' sc' Hsc'. rewrite store_set_store.
  destruct (decide (h = h')) as [<-|Hne].
  - rewrite list_lookup_insert_eq by (by eapply lookup_lt_Some).
    assert (sc' = sc) as -> by congruence. eauto.
  - rewrite list_lookup_insert_ne by done. eauto using scope_kept_refl.
Qed.

Lemma Stable_getOptions : Stable getOptions.
Proof. intros r a r' [= <- <-]. apply keeps_refl. Qed.

Lemma Stable_currentScope_throw : Stable currentScope_throw.
Proof. intros r a r' [_ ->]%currentScope_throw_run. apply keeps_refl. Qed.

Lemma Stable_getScope h : Stable (getScope h).
Proof. intros r a r' [_ ->]%getScope_run. apply keeps_refl. Qed.

Lemma Stable_get_isInnerMethodDefinition : Stable get_isInnerMethodDefinition.
Proof. intros r a r' [= <- <-]. apply keeps_refl. Qed.

Lemma Stable_assert c msg : Stable (assert c msg).
Proof. destruct c; [apply Stable_ret|apply Stable_throw]. Qed.

Lemma Stable_nestScope `{StrictnessInference} type block isMethod ds :
  Stable (__nestScope type block isMethod ds).
Proof.
  intros r a r' Hrun.
  pose proof (nestScope_run _ _ _ _ _ _ _ Hrun)
    as (sc & Hst & _ & _ & _ & _ & _ & _ & _ & _ & _ & _ & Ho & Hi).
  split; [done..|]. intros h sc' Hsc'. exists sc'.
  split; [|apply scope_kept_refl]. rewrite Hst. by apply lookup_app_l_Some.
Qed.

Lemma Stable_set_cur c : Stable (set__currentScope c).
Proof.
  intros r a r' [= <- <-]. split; [done..|]. intros h sc Hsc.
  exists sc. split; [done|apply scope_kept_refl].
Qed.

Lemma Stable_close_loop fuel node : Stable (close_loop fuel node).
Proof.
  induction fuel as [|fuel IH]; [apply Stable_throw|]. cbn [close_loop].
  apply Stable_bind; [by intros r a r' [= <- <-]; apply keeps_refl|].
  intros [h|]; [|apply Stable_ret].
  apply Stable_bind; [apply Stable_getScope|]. intros sc.
  destruct (same_node node (Scope.block sc)); [|apply Stable_ret].
  apply Stable_bind; [|by intros _].
  apply Stable_bind; [|intros up; apply Stable_set_cur].
  unfold Scope___close.
  apply Stable_bind; [apply Stable_getScope|]. intros sc'.
  apply Stable_bind; [apply Stable_updateScope, Kept_close|]. intros _.
  apply Stable_ret.
Qed.

Lemma Stable_close node : Stable (close node).
Proof. intros r a r'. unfold close. apply Stable_close_loop. Qed.

Lemma Stable_referencingDefaultValue pattern assignments mig init :
  Stable (referencingDefaultValue pattern assignments mig init).
Proof.
  apply Stable_forEach. intros a.
  apply Stable_bind; [apply Stable_currentScope_throw|]. intros c.
  apply Stable_updateScope, Kept_referencing.
Qed.

(** A computation between [pushInnerMethodDefinition] and
    [popInnerMethodDefinition] of the previous flag. *)
Lemma Stable_method {A} (b : bool) (m : M A) :
  Stable m ->
  Stable (let* previous := pushInnerMethodDefinition b in
          m ;; popInnerMethodDefinition (Some previous)).
Proof.
  intros Hm r a r' Hrun.
  apply bind_Ok in Hrun as (previous & r1 & [= <- <-] & Hrun).
  apply bind_Ok in Hrun as (x & r2 & Hrun & [= <- <-]).
  destruct (Hm _ _ _ Hrun) as [Ho _ Hs]. split; [done..|].
  intros h sc Hsc. by apply Hs.
Qed.

Lemma grown_keeps r0 r : grown r0 r -> keeps r0 r.
Proof.
  intros (Ho & Hi & [news Hst] & _). split; [done..|].
  intros h sc Hsc. exists sc. split; [|apply scope_kept_refl].
  rewrite Hst. by apply lookup_app_l_Some.
Qed.

Lemma grown_nestScope `{StrictnessInference} type block isMethod ds r0 r a r' :
  (r = r0 \/ grown r0 r) ->
  __nestScope type block isMethod ds r = Ok a r' -> grown r0 r'.
Proof.
  intros Hg Hrun.
  pose proof (nestScope_run _ _ _ _ _ _ _ Hrun)
    as (sc & Hst & Hc & _ & _ & _ & _ & _ & _ & _ & _ & _ & Ho & Hi).
  destruct Hg as [->|(Ho0 & Hi0 & [news Hst0] & _)].
  - repeat split; try done; [by exists [sc]|]. exists (length (store r0)). done.
  - repeat split; try congruence.
    + exists (news ++ [sc]). by rewrite Hst, Hst0, app_assoc.
    + exists (length (store r)). split; [done|]. rewrite Hst0, length_app. lia.
Qed.

Lemma grown_updateScope_current (f : Scope.t -> Scope.t) r0 r a r' :
  grown r0 r ->
  (let* c := currentScope_throw in updateScope c f) r = Ok a r' ->
  grown r0 r'.
Proof.
  intros (Ho & Hi & [news Hst] & c & Hc & Hle) Hrun.
  apply bind_Ok in Hrun as (c' & ? & [Hc' ->]%currentScope_throw_run & Hrun).
  assert (c' = c) as -> by congruence.
  apply updateScope_run in Hrun as (sc & Hsc & ->).
  repeat split; try done.
  - rewrite store_set_store, Hst.
    exists (<[c - length (store r0) := f sc]> news).
    by rewrite insert_app_r_alt.
  - by exists c.
Qed.

Lemma Program_scopes_grown `{StrictnessInference} node r a r' :
  Program_scopes node r = Ok a r' -> grown r r'.
Proof.
  intros Hrun. unfold Program_scopes in Hrun.
  apply bind_Ok in Hrun as (opts & ? & [_ ->]%getOptions_run & Hrun).
  apply bind_Ok in Hrun as ([] & r1 & Hglobal & Hrun).
  apply bind_Ok in Hrun as ([] & r2 & Hnodejs & Hrun).
  apply bind_Ok in Hrun as ([] & r3 & Hmodule & Hrun).
  apply (grown_nestScope _ _ _ _ r) in Hglobal; [|by left].
  assert (H2 : grown r r2).
  { destruct (__isNodejsScope opts).
    - apply bind_Ok in Hnodejs as ([] & r1' & Hset & Hnest).
      eapply grown_nestScope; [right|exact Hnest].
      by eapply grown_updateScope_current.
    - by apply ret_Ok in Hnodejs as [_ <-]. }
  assert (H3 : grown r r3).
  { destruct (__isES6 opts && isModule opts).
    - eapply grown_nestScope; [by right|exact Hmodule].
    - by apply ret_Ok in Hmodule as [_ <-]. }
  destruct (isStrictModeSupported opts && isImpliedStrict opts).
  - by eapply grown_updateScope_current.
  - by apply ret_Ok in Hrun as [_ <-].
Qed.

Lemma Stable_Program_scopes `{StrictnessInference} node :
  Stable (Program_scopes node).
Proof. intros r a r' Hrun. by eapply grown_keeps, Program_scopes_grown. Qed.

(** Stability of a composed computation, by its structure. *)
Ltac stable :=
  repeat first
    [ apply Stable_ret | apply Stable_throw
    | apply Stable_currentScope_throw | apply Stable_getScope
    | apply Stable_getOptions | apply Stable_assert
    | apply Stable_get_isInnerMethodDefinition
    | apply Stable_close | apply Stable_nestScope
    | apply Stable_referencingDefaultValue
    | apply Stable_Program_scopes
    | apply Stable_method
    | apply Stable_updateScope;
      first [ apply Kept_define | apply Kept_referencing
            | apply Kept_detectEval | apply Kept_detectThis ]
    | apply Stable_bind; [|intros ?]
    | apply Stable_forEach; intros ?
    | apply Stable_forEachIndexed; intros ? ?
    | match goal with
      | H : forall c, Stable (?visit c) |- Stable (?visit _) => apply H
      | H : forall d c, Stable (?visit d c) |- Stable (?visit _ _) => apply H
      | |- Stable (match ?x with _ => _ end) => destruct x
      end ].

Lemma Stable_Importer_visit visit fuel d c :
  Stable (Importer_visit visit fuel d c).
Proof.
  revert c. induction fuel as [|fuel IH]; intros c; [apply Stable_throw|].
  cbn [Importer_visit]. unfold Importer_dispatch.
  destruct c; try (by apply Stable_forEach).
  unfold Importer_visitImport, visitPattern_callback, visitPattern,
    traverseIdentifierInPattern, __define. simpl. stable.
Qed.

Lemma Stable_dispatch `{StrictnessInference} (visit : Node -> M unit)
    (Importer_visit : Node -> Node -> M unit) (n : Node) :
  (forall c, Stable (visit c)) ->
  (forall d c, Stable (Importer_visit d c)) ->
  Stable (dispatch visit Importer_visit n).
Proof.
  intros Hvisit HImporter.
  destruct n; cbn [dispatch];
    unfold AssignmentExpression, CatchClause, Program, Identifier,
      UpdateExpression, MemberExpression, visitProperty, LabeledStatement,
      ForStatement, visitClass, CallExpression, BlockStatement,
      ThisExpression, WithStatement, VariableDeclaration,
      visitVariableDeclaration, SwitchStatement,
      visitFunction, visitForIn, ImportDeclaration, visitExportDeclaration,
      ExportSpecifier, visitChildren, visit_opt, visitPattern_callback,
      visitPattern, traverseIdentifierInPattern, __define, __referencing,
      __nestGlobalScope, __nestModuleScope, __nestFunctionScope,
      __nestFunctionExpressionNameScope, __nestBlockScope, __nestSwitchScope,
      __nestCatchScope, __nestWithScope, __nestClassScope, __nestForScope;
    stable.
Qed.

Lemma visit_Stable `{StrictnessInference} (fuel : nat) (n : Node) :
  Stable (visit fuel n).
Proof.
  revert n. induction fuel as [|fuel IH]; intros n; [apply Stable_throw|].
  cbn [visit]. apply Stable_dispatch; [done|].
  intros d c. apply Stable_Importer_visit.
Qed.

(** ** Scopes that are not closed are on the chain of the current scope *)

Lemma chain_insert (s : list Scope.t) h sc (f : Scope.t -> Scope.t) k from to :
  s !! h = Some sc -> Scope.upper (f sc) = Scope.upper sc ->
  chain (fun _ => True) s k from to ->
  chain (fun _ => True) (<[h := f sc]> s) k from to.
Proof.
  intros Hsc Hup. revert from. induction k as [|k IH]; simpl; [done|].
  intros from (h' & sc' & -> & Hsc' & _ & Hch).
  destruct (decide (h = h')) as [<-|Hne].
  - exists h, (f sc).
    rewrite list_lookup_insert_eq by (by eapply lookup_lt_Some).
    assert (sc' = sc) as -> by congruence. rewrite Hup. eauto.
  - exists h', sc'. rewrite list_lookup_insert_ne by done. eauto.
Qed.

Lemma Tidy_ret {A} (a : A) : Tidy (ret a).
Proof. by intros B r b r' [_ <-]%ret_Ok. Qed.

Lemma Tidy_throw {A} e : Tidy (@throw A e).
Proof. by intros B r b r' ?. Qed.

Lemma Tidy_bind {A B} (m : M A) (k : A -> M B) :
  Tidy m -> (forall a, Tidy (k a)) -> Tidy (bind m k).
Proof.
  intros Hm Hk b r x r'' (a & r' & H1 & H2)%bind_Ok Hr.
  eapply Hk; [done|]. by eapply Hm.
Qed.

Lemma Tidy_forEach {A} (f : A -> M unit) (xs : list A) :
  (forall x, Tidy (f x)) -> Tidy (forEach f xs).
Proof.
  intros Hf. induction xs as [|x xs IH]; simpl; [apply Tidy_ret|].
  apply Tidy_bind; [apply Hf|]. by intros _.
Qed.

Lemma Tidy_forEachIndexed {A} (f : nat -> A -> M unit) (xs : list A) i :
  (forall j x, Tidy (f j x)) -> Tidy (forEachIndexed f i xs).
Proof.
  intros Hf. revert i. induction xs as [|x xs IH]; simpl; intros i;
    [apply Tidy_ret|].
  apply Tidy_bind; [apply Hf|]. by intros _.
Qed.

Lemma Tidy_updateScope h f :
  (forall sc, Scope.upper (f sc) = Scope.upper sc /\
              (Scope.closed (f sc) = false -> Scope.closed sc = false)) ->
  Tidy (updateScope h f).
Proof.
  intros Hf B r a r' (sc & Hsc & ->)%updateScope_run Hr h' sc'.
  rewrite store_set_store. intros Hh' Hsc' Hopen.
  destruct (Hf sc) as [Hup Hcl].
  assert (Hon : on_chain r h').
  { destruct (decide (h = h')) as [<-|Hne].
    - rewrite list_lookup_insert_eq in Hsc' by (by eapply lookup_lt_Some).
      injection Hsc' as <-. eapply Hr; eauto.
    - rewrite list_lookup_insert_ne in Hsc' by done. eapply Hr; eauto. }
  destruct Hon as [k Hk]. exists k. rewrite store_set_store, cur_set_store.
  by apply chain_insert.
Qed.

Lemma Tidy_updateScope_Kept h f : Kept f -> Tidy (updateScope h f).
Proof.
  intros Hf. apply Tidy_updateScope. intros sc.
  destruct (Hf sc) as [Hle _ _ _ _ Hcl].
  split; [symmetry; apply Hle|].
  destruct (Scope.closed sc); [|done]. intros Hopen. by rewrite Hcl in Hopen.
Qed.

Lemma Tidy_getOptions : Tidy getOptions.
Proof. by intros B r a r' [= <- <-]. Qed.

Lemma Tidy_currentScope_throw : Tidy currentScope_throw.
Proof. by intros B r a r' [_ ->]%currentScope_throw_run. Qed.

Lemma Tidy_getScope h : Tidy (getScope h).
Proof. by intros B r a r' [_ ->]%getScope_run. Qed.

Lemma Tidy_get_isInnerMethodDefinition : Tidy get_isInnerMethodDefinition.
Proof. by intros B r a r' [= <- <-]. Qed.

Lemma Tidy_pushInnerMethodDefinition b : Tidy (pushInnerMethodDefinition b).
Proof. by intros B r a r' [= <- <-]. Qed.

Lemma Tidy_popInnerMethodDefinition b : Tidy (popInnerMethodDefinition b).
Proof. by intros B r a r' [= <- <-]. Qed.

Lemma Tidy_assert c msg : Tidy (assert c msg).
Proof. destruct c; [apply Tidy_ret|apply Tidy_throw]. Qed.

Lemma chain_app_l (s : list Scope.t) sc k from to :
  chain (fun _ => True) s k from to ->
  chain (fun _ => True) (s ++ [sc]) k from to.
Proof.
  revert from. induction k as [|k IH]; simpl; [done|].
  intros from (h' & sc' & -> & Hsc' & _ & Hch).
  exists h', sc'. split; [done|]. split; [by apply lookup_app_l_Some|]. eauto.
Qed.

Lemma Tidy_nestScope `{StrictnessInference} type block isMethod ds :
  Tidy (__nestScope type block isMethod ds).
Proof.
  intros B r a r' Hrun Hr h sc' Hh Hsc' Hopen.
  pose proof (nestScope_run _ _ _ _ _ _ _ Hrun)
    as (sc & Hst & Hc & _ & _ & Hup & _).
  unfold on_chain. rewrite Hst, Hc. rewrite Hst in Hsc'.
  destruct (decide (h < length (store r))) as [Hlt|Hge].
  - rewrite lookup_app_l in Hsc' by done.
    destruct (Hr _ _ Hh Hsc' Hopen) as [k Hk]. exists (S k). simpl.
    exists (length (store r)), sc. split; [done|].
    split; [by apply list_lookup_middle|]. split; [done|].
    rewrite Hup. by apply chain_app_l.
  - assert (h = length (store r)) as ->.
    { apply lookup_lt_Some in Hsc'. rewrite length_app in Hsc'.
      simpl in Hsc'. lia. }
    by exists 0.
Qed.

Lemma Tidy_close_loop fuel node : Tidy (close_loop fuel node).
Proof.
  induction fuel as [|fuel IH]; [apply Tidy_throw|].
  intros B r a r' Hrun Hr.
  destruct (cur r) as [h|] eqn:Hc.
  2:{ rewrite close_loop_None in Hrun by done. by injection Hrun as <- <-. }
  destruct (store r !! h) as [sc|] eqn:Hsc.
  2:{ cbn [close_loop] in Hrun. unfold bind at 1 in Hrun.
      unfold currentScope in Hrun. rewrite Hc in Hrun.
      unfold bind at 1 in Hrun. unfold getScope in Hrun.
      by rewrite Hsc in Hrun. }
  rewrite (close_loop_step _ _ _ _ _ Hc Hsc) in Hrun.
  destruct (same_node node (Scope.block sc)); [|by injection Hrun as <- <-].
  eapply IH; [exact Hrun|]. clear Hrun.
  intros h' sc'. rewrite store_set_cur, store_set_store.
  intros Hh' Hsc' Hopen. unfold on_chain.
  rewrite store_set_cur, store_set_store, cur_set_cur.
  assert (Hne : h <> h').
  { intros <-. rewrite list_lookup_insert_eq in Hsc'
      by (by eapply lookup_lt_Some). by injection Hsc' as <-. }
  rewrite list_lookup_insert_ne in Hsc' by done.
  destruct (Hr _ _ Hh' Hsc' Hopen) as [k Hk]. rewrite Hc in Hk.
  destruct k as [|k]; simpl in Hk; [congruence|].
  destruct Hk as (h0 & sc0 & [= <-] & Hsc0 & _ & Hk).
  assert (sc0 = sc) as -> by congruence.
  exists k. by apply (chain_insert _ _ _ Scope.__close).
Qed.

Lemma Tidy_close node : Tidy (close node).
Proof. intros B r a r'. unfold close. apply Tidy_close_loop. Qed.

Lemma Tidy_referencingDefaultValue pattern assignments mig init :
  Tidy (referencingDefaultValue pattern assignments mig init).
Proof.
  apply Tidy_forEach. intros a.
  apply Tidy_bind; [apply Tidy_currentScope_throw|]. intros c.
  apply Tidy_updateScope_Kept, Kept_referencing.
Qed.

(** The same for [Tidy]. *)
Ltac tidy :=
  repeat first
    [ apply Tidy_ret | apply Tidy_throw
    | apply Tidy_currentScope_throw | apply Tidy_getScope
    | apply Tidy_getOptions | apply Tidy_assert
    | apply Tidy_get_isInnerMethodDefinition
    | apply Tidy_pushInnerMethodDefinition
    | apply Tidy_popInnerMethodDefinition
    | apply Tidy_close | apply Tidy_nestScope
    | apply Tidy_referencingDefaultValue
    | apply Tidy_updateScope_Kept;
      first [ apply Kept_define | apply Kept_referencing
            | apply Kept_detectEval | apply Kept_detectThis ]
    | apply Tidy_updateScope; intros ?; split; done
    | apply Tidy_bind; [|intros ?]
    | apply Tidy_forEach; intros ?
    | apply Tidy_forEachIndexed; intros ? ?
    | match goal with
      | H : forall c, Tidy (?visit c) |- Tidy (?visit _) => apply H
      | H : forall d c, Tidy (?visit d c) |- Tidy (?visit _ _) => apply H
      | |- Tidy (match ?x with _ => _ end) => destruct x
      end ].

Lemma Tidy_Importer_visit visit fuel d c :
  Tidy (Importer_visit visit fuel d c).
Proof.
  revert c. induction fuel as [|fuel IH]; intros c; [apply Tidy_throw|].
  cbn [Importer_visit]. unfold Importer_dispatch.
  destruct c; try (by apply Tidy_forEach).
  unfold Importer_visitImport, visitPattern_callback, visitPattern,
    traverseIdentifierInPattern, __define. simpl. tidy.
Qed.

Lemma Tidy_dispatch `{StrictnessInference} (visit : Node -> M unit)
    (Importer_visit : Node -> Node -> M unit) (n : Node) :
  (forall c, Tidy (visit c)) ->
  (forall d c, Tidy (Importer_visit d c)) ->
  Tidy (dispatch visit Importer_visit n).
Proof.
  intros Hvisit HImporter.
  destruct n; cbn [dispatch];
    unfold AssignmentExpression, CatchClause, Program, Program_scopes,
      Identifier,
      UpdateExpression, MemberExpression, visitProperty, LabeledStatement,
      ForStatement, visitClass, CallExpression, BlockStatement,
      ThisExpression, WithStatement, VariableDeclaration,
      visitVariableDeclaration, SwitchStatement,
      visitFunction, visitForIn, ImportDeclaration, visitExportDeclaration,
      ExportSpecifier, visitChildren, visit_opt, visitPattern_callback,
      visitPattern, traverseIdentifierInPattern, __define, __referencing,
      __nestGlobalScope, __nestModuleScope, __nestFunctionScope,
      __nestFunctionExpressionNameScope, __nestBlockScope, __nestSwitchScope,
      __nestCatchScope, __nestWithScope, __nestClassScope, __nestForScope;
    tidy.
Qed.

Lemma visit_Tidy `{StrictnessInference} (fuel : nat) (n : Node) :
  Tidy (visit fuel n).
Proof.
  revert n. induction fuel as [|fuel IH]; intros n; [apply Tidy_throw|].
  cbn [visit]. apply Tidy_dispatch; [done|].
  intros d c. apply Tidy_Importer_visit.
Qed.

(** The ancestors of a scope were created before it. *)
Lemma chain_le (P : Scope.t -> Prop) r k from h c :
  wf r -> chain P (store r) k from (Some h) -> from = Some c -> h <= c.
Proof.
  intros Hwf. revert from c. induction k as [|k IH]; simpl.
  - intros from c -> [= ->]. done.
  - intros from c (h' & sc & -> & Hsc & _ & Hch) [= <-].
    destruct (Scope.upper sc) as [u|] eqn:Hu.
    + pose proof (wf_upper _ Hwf _ _ _ Hsc Hu).
      specialize (IH _ u Hch eq_refl). lia.
    + destruct k; simpl in Hch; [done|]. by destruct Hch as (? & ? & ? & _).
Qed.

(** The scopes created by a balanced visit are closed when it returns. *)
Lemma created_scopes_closed `{StrictnessInference} fuel node r r' h sc :
  distinct_nodes node -> wf r -> cur_ok (ids node) r ->
  visit fuel node r = Ok tt r' ->
  length (store r) <= h -> store r' !! h = Some sc ->
  Scope.closed sc = true.
Proof.
  intros Hn Hwf Hok Hrun Hh Hsc.
  destruct (visit_Bal fuel node Hn _ _ _ Hrun Hwf Hok) as (_ & Hwf' & Hcur).
  destruct (Scope.closed sc) eqn:Hopen; [done|]. exfalso.
  destruct (visit_Tidy fuel node (length (store r)) _ _ _ Hrun)
    with (h := h) (sc := sc) as [k Hk]; try done.
  { intros h' sc' Hh' Hsc'. apply lookup_lt_Some in Hsc'. lia. }
  rewrite Hcur in Hk. destruct (cur r) as [c|] eqn:Hc.
  - pose proof (chain_le _ _ _ _ _ _ Hwf' Hk eq_refl).
    pose proof (wf_cur _ Hwf _ Hc). lia.
  - destruct k; simpl in Hk; [done|]. by destruct Hk as (? & ? & ? & _).
Qed.


(** * Further properties of the walker *)

(** ** The scope stack *)

(** X1.  The walk closes what it opens.  When the visit of a tree of
    distinct nodes returns, started in a well-formed store whose current
    scope (if there is one) belongs to none of the nodes, the current scope
    is again the one the visit started with, and every scope created during
    the visit has a node of the tree as its block and is closed. *)
Theorem visit_closes_what_it_opens `{StrictnessInference} (fuel : nat)
    (node : Node) (r r' : Referencer) :
  distinct_nodes node -> wf r -> cur_ok (ids node) r ->
  visit fuel node r = Ok tt r' ->
  cur r' = cur r /\ wf r' /\
  forall h sc,
    length (store r) <= h -> store r' !! h = Some sc ->
    nid (Scope.block sc) ∈ ids node /\ Scope.closed sc = true.
Proof.
  intros Hn Hwf Hok Hrun.
  destruct (visit_Bal fuel node Hn _ _ _ Hrun Hwf Hok) as (He & Hwf' & Hcur).
  split; [done|]. split; [done|]. intros h sc Hh Hsc. split.
  - by eapply (ext_new _ _ _ He).
  - by apply (created_scopes_closed fuel node r r' h sc).
Qed.

(** X1 at a sample input: a named function expression with parameters,
    visited in the global scope of a script. *)
Lemma visit_closes_what_it_opens_witness :
  let r' := run_state (visit (H := sloppy) 6 sample_function_expression)
                      in_global_scope in
  cur r' = Some 0 /\
  forall h sc, 1 <= h -> store r' !! h = Some sc -> Scope.closed sc = true.
Proof.
  intros r'.
  destruct (visit_closes_what_it_opens (H := sloppy) 6
              sample_function_expression in_global_scope r')
    as (Hcur & _ & Hnew).
  - by apply distinct_nodesb_sound.
  - by apply wfb_sound.
  - by apply cur_okb_sound.
  - vm_compute. reflexivity.
  - split; [exact Hcur|]. intros h sc Hh Hsc. by apply (Hnew h sc).
Defined.

(** X2.  The walk keeps what exists.  Whenever a visit returns, the options
    of the analysis and the flag [isInnerMethodDefinition] are what they
    were, and every scope that existed before the visit is still in its
    place with the same type, block, upper scope, variable scope and
    strictness; its bindings, the names they are registered under and its
    references have only grown at the end; a mark of [eval] or [this] that
    it had, it still has, and a closed scope is not opened again. *)
Theorem visit_keeps_existing_scopes `{StrictnessInference} (fuel : nat)
    (node : Node) (r r' : Referencer) :
  visit fuel node r = Ok tt r' -> keeps r r'.
Proof. apply visit_Stable. Qed.

(** X2 at a sample input. *)
Lemma visit_keeps_existing_scopes_witness :
  keeps in_global_scope
        (run_state (visit (H := sloppy) 6 sample_function_expression)
                   in_global_scope).
Proof.
  apply (visit_keeps_existing_scopes (H := sloppy) 6
           sample_function_expression).
  vm_compute. reflexivity.
Defined.

(** Computations that only nest scopes for a node, by their structure. *)
Ltac opens_only :=
  unfold __nestGlobalScope, __nestModuleScope, __nestFunctionScope,
    __nestFunctionExpressionNameScope, __nestBlockScope, __nestSwitchScope,
    __nestCatchScope, __nestWithScope, __nestClassScope, __nestForScope;
  repeat first
    [ match goal with
      | |- Opens _ (__nestScope _ _ _ _) => apply Opens_nestScope
      | |- Opens _ (match ?x with _ => _ end) => destruct x
      | |- Opens _ (bind _ _) => apply Opens_bind; [|intros ?]
      | |- Opens _ _ => apply Opens_Pure; solve [pure]
      end ].

(** The state in which [Program] walks the statements. *)
Lemma Program_scopes_run `{StrictnessInference} (node : Node) r r1 :
  wf r -> Program_scopes node r = Ok tt r1 ->
  wf r1 /\ ext [nid node] r r1 /\
  (exists c sc,
     cur r1 = Some c /\ store r1 !! c = Some sc /\
     nid (Scope.block sc) = nid node) /\
  exists g,
    store r1 !! length (store r) = Some g /\
    Scope.type g = GlobalScope /\ Scope.block g = node /\
    Scope.upper g = cur r.
Proof.
  intros Hwf Hrun.
  pose proof (Program_scopes_grown _ _ _ _ Hrun)
    as (_ & _ & _ & c & Hc & Hle).
  assert (Hopens : Opens (nid node) (Program_scopes node))
    by (unfold Program_scopes; opens_only).
  destruct (Hopens _ _ _ Hrun Hwf) as (k & He & Hwf1 & _).
  split; [done|]. split; [done|]. split.
  - destruct (lookup_lt_is_Some_2 (store r1) c) as [sc Hsc];
      [by apply Hwf1|].
    exists c, sc. split; [done|]. split; [done|].
    by apply list_elem_of_singleton, (ext_new _ _ _ He c).
  - unfold Program_scopes in Hrun.
    apply bind_Ok in Hrun as (opts & ? & [_ ->]%getOptions_run & Hrun).
    apply bind_Ok in Hrun as ([] & rg & Hglobal & Hrun).
    unfold __nestGlobalScope in Hglobal.
    destruct (nestScope_step _ _ _ _ _ _ _ Hglobal Hwf)
      as (Hwfg & _ & _ & _ & g & Hg & Hty & Hb & Hup & _).
    match type of Hrun with
    | ?m rg = _ => assert (Hrest : Opens (nid node) m) by opens_only
    end.
    destruct (Hrest _ _ _ Hrun Hwfg) as (j & Heg & _ & _).
    destruct (ext_old _ _ _ Heg _ _ Hg) as (g' & Hg' & Hle').
    exists g'. split; [done|].
    by rewrite <- (le_type _ _ Hle'), <- (le_block _ _ Hle'),
      <- (le_upper _ _ Hle').
Qed.

(** X3.  The analysis of a whole program.  Started from a new Referencer
    (no scope exists, none is open), on a program of distinct nodes that
    have the shapes the handlers rely on and with fuel for its depth, the
    visit of the program returns.  At the end no scope is open, the flag
    [isInnerMethodDefinition] is still off, the first scope of the store is
    the Global scope of the program, which has no upper scope, and every
    scope of the store belongs to a node of the program and is closed. *)
Theorem program_analysis_from_scratch `{StrictnessInference}
    (depth fuel i : nat) (body : list Node) (opts : Options) :
  let node := TSESTree.Program i body in
  let r := new_Referencer (new_ScopeManager opts) in
  distinct_nodes node ->
  shaped_within depth (__isES6 opts && isModule opts) node = true ->
  S depth < fuel ->
  exists r',
    visit fuel node r = Ok tt r' /\
    cur r' = None /\ isInnerMethodDefinition r' = false /\
    (exists g,
       store r' !! 0 = Some g /\ Scope.type g = GlobalScope /\
       Scope.block g = node /\ Scope.upper g = None) /\
    forall h sc,
      store r' !! h = Some sc ->
      nid (Scope.block sc) ∈ ids node /\ Scope.closed sc = true.
Proof.
  intros node r Hn Hshape Hfuel.
  assert (Hwf : wf r) by apply wf_new.
  assert (Hok : cur_ok (ids node) r) by (by intros c sc ?).
  destruct (program_returns depth fuel i body r) as [r' Hrun]; try done.
  fold node in Hrun. exists r'. split; [exact Hrun|].
  destruct (visit_Bal fuel node Hn _ _ _ Hrun Hwf Hok) as (He & Hwf' & Hcur).
  split; [done|]. split.
  { by rewrite (keeps_isInnerMethodDefinition _ _
                  (visit_Stable fuel node _ _ _ Hrun)). }
  split.
  - destruct fuel as [|fuel]; [lia|]. unfold node in Hrun.
    cbn [visit dispatch] in Hrun. fold node in Hrun. unfold Program in Hrun.
    apply bind_Ok in Hrun as ([] & r1 & Hscopes & Hrun).
    apply bind_Ok in Hrun as ([] & r5 & Hbody & Hclose).
    destruct (Program_scopes_run node r r1 Hwf Hscopes)
      as (Hwf1 & _ & (c & sc & Hc & Hsc & Hb) & g & Hg & Hty & Hbg & Hup).
    destruct (Bal_statements fuel body) with (r := r1) (a := tt) (r' := r5)
      as (He5 & Hwf5 & _); try done.
    { intros x Hx. by apply (child_distinct x node). }
    { intros c' sc' Hc' Hsc'. rewrite Hc in Hc'. injection Hc' as <-.
      rewrite Hsc in Hsc'. injection Hsc' as <-. rewrite Hb.
      by apply (distinct_root node). }
    apply close_closes_only in Hclose as [Hco _]; [|done].
    destruct (ext_old _ _ _ He5 _ _ Hg) as (g5 & Hg5 & Hle5).
    destruct (ext_old _ _ _ (closes_only_ext _ _ Hco) _ _ Hg5)
      as (g' & Hg' & Hle').
    exists g'. split; [exact Hg'|].
    by rewrite <- (le_type _ _ Hle'), <- (le_block _ _ Hle'),
      <- (le_upper _ _ Hle'), <- (le_type _ _ Hle5), <- (le_block _ _ Hle5),
      <- (le_upper _ _ Hle5).
  - intros h sc Hsc. split.
    + apply (ext_new _ _ _ He h); [simpl; lia|done].
    + apply (created_scopes_closed fuel node r r' h sc); try done.
      simpl; lia.
Qed.

(** X3 at a sample input: the script [import x from "m"; y] analysed as a
    module. *)
Lemma program_analysis_from_scratch_witness :
  exists r',
    visit (H := sloppy) 6 sample_script_with_import
          (new_Referencer (new_ScopeManager module_options)) = Ok tt r' /\
    cur r' = None /\
    forall h sc, store r' !! h = Some sc -> Scope.closed sc = true.
Proof.
  destruct (program_analysis_from_scratch (H := sloppy) 4 6 0
              [sample_import; TSESTree.Identifier 5 "y"] module_options)
    as (r' & Hrun & Hcur & _ & _ & Hall).
  - by apply distinct_nodesb_sound.
  - reflexivity.
  - lia.
  - exists r'. split; [exact Hrun|]. split; [exact Hcur|].
    intros h sc Hsc. by apply (Hall h sc).
Defined.

(** ** [close] *)

(** [close] has nothing to do while the current scope has another block. *)
Lemma close_other_block (node : Node) r :
  (forall c, cur r = Some c ->
     exists sc, store r !! c = Some sc /\
                same_node node (Scope.block sc) = false) ->
  close node r = Ok tt r.
Proof.
  intros Hcur. unfold close. destruct (cur r) as [c|] eqn:Hc.
  - destruct (Hcur c eq_refl) as (sc & Hsc & Hb).
    by rewrite (close_loop_step _ _ _ _ _ Hc Hsc), Hb.
  - by apply close_loop_None.
Qed.

(** X4.  [close] is idempotent, and does nothing for a node whose scopes
    are not on top: when the block of the current scope is not [node],
    [close(node)] returns and leaves the state as it is; and after
    [close(node)] has returned, a second [close(node)] finds nothing to
    close. *)
Theorem close_is_idempotent (node : Node) (r : Referencer) :
  wf r ->
  ((forall c sc, cur r = Some c -> store r !! c = Some sc ->
                 same_node node (Scope.block sc) = false) ->
   close node r = Ok tt r) /\
  (forall r1, close node r = Ok tt r1 -> close node r1 = Ok tt r1).
Proof.
  intros Hwf. split.
  - intros Hother. apply close_other_block. intros c Hc.
    destruct (lookup_lt_is_Some_2 (store r) c) as [sc Hsc];
      [by apply Hwf|].
    exists sc. split; [done|]. by eapply Hother.
  - intros r1 Hrun.
    destruct (descends_max (nid node) r Hwf) as (k & c0 & Hd & Hb).
    destruct (close_run node r k c0 Hwf Hd Hb)
      as (r2 & Hrun2 & Hcur & Hco & Hwf2 & _).
    rewrite Hrun in Hrun2. injection Hrun2 as <-.
    apply close_other_block. intros c Hc.
    destruct (lookup_lt_is_Some_2 (store r1) c) as [sc1 Hsc1];
      [by apply Hwf2|].
    exists sc1. split; [done|]. unfold same_node. apply Nat.eqb_neq.
    destruct Hco as (_ & _ & Hlen & Hs).
    destruct (lookup_lt_is_Some_2 (store r) c) as [sc0 Hsc0].
    { apply lookup_lt_Some in Hsc1. lia. }
    intros Heq. apply (Hb c sc0); [congruence|done|].
    destruct (Hs _ _ Hsc0) as [Hs'|Hs']; rewrite Hs' in Hsc1;
      injection Hsc1 as <-; done.
Qed.

(** X4 at a sample input: the two scopes of a named function expression are
    closed by the first [close]; the second one changes nothing. *)
Lemma close_is_idempotent_witness :
  let r1 := run_state (close sample_function_expression)
                      in_function_scopes in
  wf in_function_scopes /\
  close sample_function_expression r1 = Ok tt r1.
Proof.
  intros r1.
  assert (Hwf : wf in_function_scopes) by (by apply wfb_sound).
  split; [exact Hwf|].
  apply (proj2 (close_is_idempotent sample_function_expression
                  in_function_scopes Hwf) r1).
  reflexivity.
Defined.

(** ** Asking for the current scope *)

(** X5.  The handlers that start with [currentScope(true)] fail its
    assertion when no scope is open: the visit of a name, of [this], of a
    variable declaration, of an update of a pattern, of a compound
    assignment to a pattern, of the declaration of a named function or of a
    named class throws the assertion error, whatever the rest of the
    state. *)
Theorem visit_without_scope_throws `{StrictnessInference} (fuel : nat)
    (node : Node) (r : Referencer) :
  needsOpenScope node = true -> cur r = None ->
  visit (S fuel) node r
  = Throw (AssertionError "this.scopeManager.__currentScope").
Proof.
  intros Hneeds Hcur.
  assert (Hthrow : forall A (k : nat -> M A),
            bind currentScope_throw k r
            = Throw (AssertionError "this.scopeManager.__currentScope")).
  { intros A k. unfold bind, currentScope_throw, bind, currentScope.
    by rewrite Hcur. }
  destruct node; try discriminate Hneeds; cbn [visit dispatch].
  - apply Hthrow.
  - destruct type; try discriminate Hneeds.
    destruct id; try discriminate Hneeds.
    unfold visitFunction. apply bind_Throw, Hthrow.
  - destruct type; try discriminate Hneeds.
    destruct id; try discriminate Hneeds.
    unfold visitClass. apply bind_Throw, Hthrow.
  - apply Hthrow.
  - cbn [needsOpenScope] in Hneeds.
    apply andb_true_iff in Hneeds as [Hp Hop].
    unfold AssignmentExpression. rewrite Hp.
    apply negb_true_iff in Hop. rewrite Hop. apply bind_Throw, Hthrow.
  - cbn [needsOpenScope] in Hneeds. unfold UpdateExpression.
    rewrite Hneeds. apply Hthrow.
  - apply Hthrow.
Qed.

(** X5 at a sample input: a name visited by a new Referencer. *)
Lemma visit_without_scope_throws_witness :
  visit (H := sloppy) 1 (TSESTree.Identifier 1 "x")
        (fresh_referencer script_options)
  = Throw (AssertionError "this.scopeManager.__currentScope").
Proof.
  apply (visit_without_scope_throws (H := sloppy) 0); reflexivity.
Defined.

(** ** Operations on the current scope that cannot fail *)

Lemma currentScope_throw_Some r c :
  cur r = Some c -> currentScope_throw r = Ok c r.
Proof.
  intros Hc. unfold currentScope_throw, bind, currentScope. by rewrite Hc.
Qed.

(** Recording a reference in the open scope. *)
Lemma referencing_current x r c :
  cur r = Some c -> c < length (store r) ->
  exists r',
    (let* c := currentScope_throw in __referencing c x) r = Ok tt r' /\
    (forall h, refs r' h = refs r h ++ if decide (h = c) then [x] else []) /\
    (forall h, defs r' h = defs r h) /\
    cur r' = Some c /\ length (store r') = length (store r).
Proof.
  intros Hc Hlt. destruct (lookup_lt_is_Some_2 _ _ Hlt) as [sc Hsc].
  assert (Hrun : __referencing c x r
                 = Ok tt (set_store (<[c := Scope.__referencing x sc]>
                                       (store r)) r)).
  { unfold __referencing, updateScope. by rewrite Hsc. }
  eexists. split.
  { apply bind_Ok. exists c, r.
    split; [by apply currentScope_throw_Some|exact Hrun]. }
  pose proof (referencing_obs _ _ _ _ _ Hrun) as (Hcur & Hr & Hd & _).
  split; [exact Hr|]. split; [exact Hd|]. split; [congruence|].
  by rewrite store_set_store, length_insert.
Qed.

(** Recording a binding in the open scope. *)
Lemma define_current n d r c :
  cur r = Some c -> c < length (store r) ->
  exists r',
    (let* c := currentScope_throw in __define c n d) r = Ok tt r' /\
    (forall h, defs r' h = defs r h ++ if decide (h = c) then [d] else []) /\
    (forall h, refs r' h = refs r h) /\
    cur r' = Some c /\ length (store r') = length (store r).
Proof.
  intros Hc Hlt. destruct (lookup_lt_is_Some_2 _ _ Hlt) as [sc Hsc].
  assert (Hrun : __define c n d r
                 = Ok tt (set_store (<[c := Scope.__define n d sc]>
                                       (store r)) r)).
  { unfold __define, updateScope. by rewrite Hsc. }
  eexists. split.
  { apply bind_Ok. exists c, r.
    split; [by apply currentScope_throw_Some|exact Hrun]. }
  pose proof (define_obs _ _ _ _ _ _ Hrun) as (Hcur & Hd & Hr & _).
  split; [exact Hd|]. split; [exact Hr|]. split; [congruence|].
  by rewrite store_set_store, length_insert.
Qed.

(** A loop that appends nothing. *)
Lemma flat_map_nil {A B} (l : list A) :
  flat_map (fun _ : A => @nil B) l = [].
Proof. by induction l. Qed.

(** A loop whose steps each append to the bindings or to the references of
    the open scope, and cannot fail. *)
Lemma forEach_current {A} (f : A -> M unit) (D : A -> list Definition_.t)
    (R : A -> list Reference.t) (xs : list A) (c : nat) :
  (forall x r,
     x ∈ xs -> cur r = Some c -> c < length (store r) ->
     exists r',
       f x r = Ok tt r' /\
       (forall h, defs r' h = defs r h ++ if decide (h = c) then D x else [])
       /\
       (forall h, refs r' h = refs r h ++ if decide (h = c) then R x else [])
       /\ cur r' = Some c /\ length (store r') = length (store r)) ->
  forall r,
    cur r = Some c -> c < length (store r) ->
    exists r',
      forEach f xs r = Ok tt r' /\
      (forall h, defs r' h
                 = defs r h ++ if decide (h = c) then flat_map D xs else [])
      /\
      (forall h, refs r' h
                 = refs r h ++ if decide (h = c) then flat_map R xs else [])
      /\ cur r' = Some c /\ length (store r') = length (store r).
Proof.
  induction xs as [|x xs IH]; intros Hf r Hc Hlt.
  - exists r. split; [done|].
    repeat split; try done; intros h; case_decide; by rewrite app_nil_r.
  - destruct (Hf x r) as (r1 & Hrun1 & Hd1 & Hr1 & Hc1 & Hl1);
      [by left|done..|].
    destruct (IH (fun y r Hy => Hf y r (list_elem_of_further _ _ _ Hy)) r1)
      as (r' & Hrun & Hd & Hr & Hc' & Hl'); [done|lia|].
    exists r'. split.
    { simpl. apply bind_Ok. by exists tt, r1. }
    split; [|split; [|split; [done|lia]]].
    + intros h. rewrite Hd, Hd1. simpl.
      case_decide; by rewrite <- ?app_assoc, ?app_nil_r.
    + intros h. rewrite Hr, Hr1. simpl.
      case_decide; by rewrite <- ?app_assoc, ?app_nil_r.
Qed.

(** ** Default values *)

(** X6.  [referencingDefaultValue] records, in the open scope [c], one
    write reference to the leaf per default value that encloses it, in the
    order of the list, from the outermost on: the write source is the default
    value, and the reference is partial unless the leaf is itself the left
    side of that default.  It touches no binding and no other scope, and it
    cannot fail while [c] exists.  With no scope open, it returns at once for
    a leaf without default values and fails the assertion of
    [currentScope(true)] otherwise. *)
Theorem referencingDefaultValue_writes (pattern : Node)
    (assignments : list Node)
    (maybeImplicitGlobal : option ReferenceImplicitGlobal) (init : bool)
    (r : Referencer) :
  (forall c,
     cur r = Some c -> c < length (store r) ->
     exists r',
       referencingDefaultValue pattern assignments maybeImplicitGlobal init r
       = Ok tt r' /\
       refs r' c
       = refs r c ++ defaultValueReferences pattern assignments
                       maybeImplicitGlobal init /\
       (forall h, h <> c -> refs r' h = refs r h) /\
       (forall h, defs r' h = defs r h) /\
       cur r' = Some c /\ length (store r') = length (store r)) /\
  (cur r = None ->
   referencingDefaultValue pattern assignments maybeImplicitGlobal init r
   = match assignments with
     | [] => Ok tt r
     | _ :: _ => Throw (AssertionError "this.scopeManager.__currentScope")
     end).
Proof.
  split.
  - intros c Hc Hlt.
    destruct (forEach_current
                (fun assignment =>
                   let* c := currentScope_throw in
                   __referencing c
                     (Reference.mk pattern ReferenceFlag.WRITE
                        (assignment_right assignment) maybeImplicitGlobal
                        (match assignment_left assignment with
                         | Some lhs => negb (same_node pattern lhs)
                         | None => true
                         end)
                        init))
                (fun _ => [])
                (fun assignment =>
                   [Reference.mk pattern ReferenceFlag.WRITE
                      (assignment_right assignment) maybeImplicitGlobal
                      (match assignment_left assignment with
                       | Some lhs => negb (same_node pattern lhs)
                       | None => true
                       end)
                      init])
                assignments c) with (r := r)
      as (r' & Hrun & Hd & Hr & Hc' & Hl'); try done.
    { intros a r0 _ Hc0 Hlt0.
      destruct (referencing_current
                  (Reference.mk pattern ReferenceFlag.WRITE
                     (assignment_right a) maybeImplicitGlobal
                     (match assignment_left a with
                      | Some lhs => negb (same_node pattern lhs)
                      | None => true
                      end)
                     init) r0 c Hc0 Hlt0)
        as (r1 & Hrun1 & Hr1 & Hd1 & Hc1 & Hl1).
      exists r1. split; [exact Hrun1|]. split; [|done].
      intros h. rewrite Hd1. case_decide; by rewrite app_nil_r. }
    exists r'. split; [exact Hrun|]. split; [|split; [|split; [|done]]].
    + rewrite Hr, decide_True by done. unfold defaultValueReferences.
      by rewrite flat_map_singleton_map.
    + intros h Hh. by rewrite Hr, decide_False, app_nil_r.
    + intros h. rewrite Hd. case_decide; [|by rewrite app_nil_r].
      by rewrite flat_map_nil, app_nil_r.
  - intros Hc. destruct assignments as [|a assignments]; [done|].
    unfold referencingDefaultValue. cbn [forEach].
    apply bind_Throw, bind_Throw.
    unfold currentScope_throw, bind, currentScope. by rewrite Hc.
Qed.

(** X6 at a sample input: the default value of [a] in [[a = 1] = b],
    recorded in the global scope of a script. *)
Lemma referencingDefaultValue_writes_witness :
  exists r',
    referencingDefaultValue (TSESTree.Identifier 4 "a") sample_default_values
                            None true in_global_scope = Ok tt r' /\
    refs r' 0
    = [Reference.mk (TSESTree.Identifier 4 "a") ReferenceFlag.WRITE
                    (Some sample_default_value) None false true].
Proof.
  destruct (proj1 (referencingDefaultValue_writes
                     (TSESTree.Identifier 4 "a") sample_default_values
                     None true in_global_scope) 0)
    as (r' & Hrun & Hrefs & _).
  - reflexivity.
  - simpl. lia.
  - exists r'. split; [exact Hrun|exact Hrefs].
Defined.

(** A computation of type unit followed by nothing. *)
Lemma bind_ret_tt (m : M unit) r : (m ;; ret tt) r = m r.
Proof. unfold bind, ret. by destruct (m r) as [[] ?|]. Qed.

(** ** Import declarations *)

(** The local name of one specifier. *)
Lemma Importer_visitImport_run (visit : Node -> M unit)
    (declaration id specifier : Node) r c :
  cur r = Some c -> c < length (store r) ->
  exists r',
    Importer_visitImport visit declaration id specifier r = Ok tt r' /\
    (forall h,
       defs r' h
       = defs r h ++
         if decide (h = c)
         then map (fun '(pattern, _) =>
                     new_Definition VariableType.ImportBinding pattern
                                    specifier (Some declaration) None None)
                  (PatternVisitor.leaves id)
         else []) /\
    (forall h, refs r' h = refs r h) /\
    cur r' = Some c /\ length (store r') = length (store r).
Proof.
  intros Hc Hlt.
  destruct (forEach_current
              (fun '(pattern, _) =>
                 let* c := currentScope_throw in
                 __define c pattern
                   (new_Definition VariableType.ImportBinding pattern
                                   specifier (Some declaration) None None))
              (fun '(pattern, _) =>
                 [new_Definition VariableType.ImportBinding pattern
                                 specifier (Some declaration) None None])
              (fun _ => [])
              (PatternVisitor.leaves id) c) with (r := r)
    as (r' & Hrun & Hd & Hr & Hc' & Hl'); try done.
  { intros [pattern info] r0 _ Hc0 Hlt0.
    destruct (define_current pattern
                (new_Definition VariableType.ImportBinding pattern
                                specifier (Some declaration) None None)
                r0 c Hc0 Hlt0) as (r1 & Hrun1 & Hd1 & Hr1 & Hc1 & Hl1).
    exists r1. split; [exact Hrun1|]. split; [done|]. split; [|done].
    intros h. rewrite Hr1. case_decide; by rewrite app_nil_r. }
  exists r'. split.
  { unfold Importer_visitImport, visitPattern_callback, visitPattern,
      traverseIdentifierInPattern.
    cbn [PatternVisitor.processRightHandNodes]. by rewrite bind_ret_tt. }
  split; [|split; [|done]].
  - intros h. rewrite Hd. case_decide; [|done]. f_equal.
    rewrite <- flat_map_singleton_map. apply flat_map_ext.
    by intros [pattern info].
  - intros h. rewrite Hr. case_decide; [|by rewrite app_nil_r].
    by rewrite flat_map_nil, app_nil_r.
Qed.

(** The Importer walks through a node without children. *)
Lemma Importer_visit_leaf (visit : Node -> M unit) (fuel : nat)
    (declaration node : Node) r :
  children node = [] ->
  Importer_visit visit (S fuel) declaration node r = Ok tt r.
Proof.
  intros Hleaf. cbn [Importer_visit]. unfold Importer_dispatch.
  destruct node; try (by rewrite Hleaf).
  simpl in Hleaf. by apply app_eq_nil in Hleaf as [_ ?].
Qed.

(** X7.  An import declaration in module mode, visited in the open scope
    [c]: the visit returns; [c] receives, for each specifier in order, one
    binding of the kind ImportBinding per leaf of the local name, whose node
    is the specifier and whose parent is the declaration; nothing else is
    defined, no reference is recorded (neither for the imported names nor for
    the source), no scope is created and [c] stays current. *)
Theorem import_declaration_bindings `{StrictnessInference} (fuel i : nat)
    (specifiers : list Node) (source : Node) (r : Referencer) (c : nat) :
  let node := TSESTree.ImportDeclaration i specifiers source in
  moduleMode r = true -> forallb isImportSpec specifiers = true ->
  children source = [] ->
  cur r = Some c -> c < length (store r) ->
  exists r',
    visit (3 + fuel) node r = Ok tt r' /\
    defs r' c = defs r c ++ importDefinitions node specifiers /\
    (forall h, h <> c -> defs r' h = defs r h) /\
    (forall h, refs r' h = refs r h) /\
    cur r' = Some c /\ length (store r') = length (store r).
Proof.
  intros node Hmode Hspecs Hsource Hc Hlt.
  set (importer := Importer_visit (visit (2 + fuel)) (S fuel) node).
  destruct (forEach_current importer
              (fun specifier =>
                 match specifier with
                 | TSESTree.ImportSpec _ _ _ local =>
                     map (fun '(pattern, _) =>
                            new_Definition VariableType.ImportBinding pattern
                                           specifier (Some node) None None)
                         (PatternVisitor.leaves local)
                 | _ => []
                 end)
              (fun _ => []) specifiers c) with (r := r)
    as (r' & Hrun & Hd & Hr & Hc' & Hl'); try done.
  { intros specifier r0 Hin Hc0 Hlt0.
    rewrite forallb_forall in Hspecs.
    specialize (Hspecs specifier (proj1 (list_elem_of_In _ _) Hin)).
    destruct specifier; try discriminate Hspecs.
    unfold importer. cbn [Importer_visit Importer_dispatch].
    match type of Hin with
    | TSESTree.ImportSpec ?j ?t ?im ?lo ∈ _ =>
        destruct (Importer_visitImport_run (visit (2 + fuel)) node lo
                    (TSESTree.ImportSpec j t im lo) r0 c Hc0 Hlt0)
          as (r1 & Hrun1 & Hd1 & Hr1 & Hc1 & Hl1)
    end.
    exists r1. split; [exact Hrun1|]. split; [done|]. split; [|done].
    intros h. rewrite Hr1. case_decide; by rewrite app_nil_r. }
  exists r'. split.
  { change (visit (3 + fuel) node r)
      with ((let* opts := getOptions in
             assert (__isES6 opts && isModule opts)
               "ImportDeclaration should appear when the mode is ES6 and in the module context." ;;
             forEach importer (specifiers ++ [source])) r).
    unfold bind at 1. unfold getOptions. unfold moduleMode in Hmode.
    rewrite Hmode. unfold assert. unfold bind at 1. unfold ret at 1.
    rewrite forEach_app. unfold bind at 1. rewrite Hrun. cbn [forEach].
    rewrite bind_ret_tt.
    by apply Importer_visit_leaf. }
  split; [|split; [|split; [|done]]].
  - by rewrite Hd, decide_True.
  - intros h Hh. by rewrite Hd, decide_False, app_nil_r.
  - intros h. rewrite Hr. case_decide; [|by rewrite app_nil_r].
    by rewrite flat_map_nil, app_nil_r.
Qed.

(** X7 at a sample input: [import x, {y as z} from "m"] in the global scope
    of a module. *)
Lemma import_declaration_bindings_witness :
  let node :=
    TSESTree.ImportDeclaration 1 sample_import_specifiers
                               (TSESTree.Other 7 "Literal" []) in
  exists r',
    visit (H := sloppy) 3 node in_module_global_scope = Ok tt r' /\
    defs r' 0 = importDefinitions node sample_import_specifiers /\
    refs r' 0 = [].
Proof.
  intros node.
  destruct (import_declaration_bindings (H := sloppy) 0 1
              sample_import_specifiers (TSESTree.Other 7 "Literal" [])
              in_module_global_scope 0)
    as (r' & Hrun & Hdefs & _ & Hrefs & _).
  - reflexivity.
  - reflexivity.
  - reflexivity.
  - reflexivity.
  - simpl. lia.
  - exists r'. split; [exact Hrun|]. split; [exact Hdefs|exact (Hrefs 0)].
Defined.

(** ** Export declarations *)

Lemma map_flat_map {A B C} (f : B -> C) (g : A -> list B) (l : list A) :
  map f (flat_map g l) = flat_map (fun x => map f (g x)) l.
Proof. induction l as [|x l IH]; simpl; by rewrite ?map_app, ?IH. Qed.

(** X8.  An export declaration.  With a source ([export ... from]) nothing
    is visited and the state stays as it is.  With a declaration, the
    declaration alone is visited, not the specifiers.  Otherwise the
    specifiers are visited: when their local sides are names, the open scope
    [c] receives one read reference per specifier, to its local name, in
    order; no reference is made to the exported names, nothing is defined
    and no scope is created. *)
Theorem export_declaration_references `{StrictnessInference} (fuel i : nat)
    (declaration : option Node) (specifiers : list Node)
    (source : option Node) (r : Referencer) :
  let node :=
    TSESTree.ExportNamedDeclaration i declaration specifiers source in
  (forall s, source = Some s -> visit (S fuel) node r = Ok tt r) /\
  (forall d,
     source = None -> declaration = Some d ->
     visit (S fuel) node r = visit fuel d r) /\
  (forall c,
     source = None -> declaration = None ->
     forallb exportsName specifiers = true ->
     cur r = Some c -> c < length (store r) ->
     exists r',
       visit (3 + fuel) node r = Ok tt r' /\
       refs r' c
       = refs r c ++ map readReference (exportedLocals specifiers) /\
       (forall h, h <> c -> refs r' h = refs r h) /\
       (forall h, defs r' h = defs r h) /\
       cur r' = Some c /\ length (store r') = length (store r)).
Proof.
  intros node. split; [by intros s ->|]. split; [by intros d -> ->|].
  intros c -> -> Hspecs Hc Hlt.
  destruct (forEach_current (visit (2 + fuel)) (fun _ => [])
              (fun specifier =>
                 match specifier with
                 | TSESTree.ExportSpecifier _ local _ => [readReference local]
                 | _ => []
                 end)
              specifiers c) with (r := r)
    as (r' & Hrun & Hd & Hr & Hc' & Hl'); try done.
  { intros specifier r0 Hin Hc0 Hlt0.
    rewrite forallb_forall in Hspecs.
    specialize (Hspecs specifier (proj1 (list_elem_of_In _ _) Hin)).
    destruct specifier; try discriminate Hspecs.
    match type of Hin with
    | TSESTree.ExportSpecifier _ ?lo _ ∈ _ =>
        destruct lo; try discriminate Hspecs;
        match type of Hin with
        | TSESTree.ExportSpecifier _ ?id _ ∈ _ =>
            destruct (referencing_current (readReference id) r0 c Hc0 Hlt0)
              as (r1 & Hrun1 & Hr1 & Hd1 & Hc1 & Hl1)
        end
    end.
    exists r1. split; [exact Hrun1|]. split; [|done].
    intros h. rewrite Hd1. case_decide; by rewrite app_nil_r. }
  exists r'. split.
  { change (visit (3 + fuel) node r)
      with (forEach (visit (2 + fuel)) (specifiers ++ []) r).
    by rewrite app_nil_r. }
  split; [|split; [|split; [|done]]].
  - rewrite Hr, decide_True by done. f_equal. unfold exportedLocals.
    rewrite map_flat_map. apply flat_map_ext. by intros [].
  - intros h Hh. by rewrite Hr, decide_False, app_nil_r.
  - intros h. rewrite Hd. case_decide; by rewrite ?flat_map_nil, app_nil_r.
Qed.

(** X8 at a sample input: [export {a, b as c}] in the global scope of a
    module. *)
Lemma export_declaration_references_witness :
  exists r',
    visit (H := sloppy) 3
          (TSESTree.ExportNamedDeclaration 1 None sample_export_specifiers
                                           None)
          in_module_global_scope = Ok tt r' /\
    refs r' 0 = [readReference (TSESTree.Identifier 3 "a");
                 readReference (TSESTree.Identifier 6 "b")].
Proof.
  destruct (proj2 (proj2 (export_declaration_references (H := sloppy) 0 1
                            None sample_export_specifiers None
                            in_module_global_scope)) 0)
    as (r' & Hrun & Hrefs & _).
  - reflexivity.
  - reflexivity.
  - reflexivity.
  - reflexivity.
  - simpl. lia.
  - exists r'. split; [exact Hrun|exact Hrefs].
Defined.

(** ** Update expressions *)

(** X9.  An update expression ([x++], [--x]).  When the argument is a
    pattern, the open scope [c] receives exactly one reference, a
    read-and-write reference to the argument without write source; the
    argument is not visited, so that no read reference is recorded for it.
    When the argument is no pattern (a member access), the visit is the
    visit of the argument. *)
Theorem update_expression_reference `{StrictnessInference} (fuel i : nat)
    (argument : Node) (r : Referencer) :
  let node := TSESTree.UpdateExpression i argument in
  (forall c,
     PatternVisitor.isPattern argument = true ->
     cur r = Some c -> c < length (store r) ->
     exists r',
       visit (S fuel) node r = Ok tt r' /\
       refs r' c
       = refs r c ++ [Reference.mk argument ReferenceFlag.RW None None
                                   false false] /\
       (forall h, h <> c -> refs r' h = refs r h) /\
       (forall h, defs r' h = defs r h) /\
       cur r' = Some c /\ length (store r') = length (store r)) /\
  (PatternVisitor.isPattern argument = false ->
   visit (S fuel) node r = visit fuel argument r).
Proof.
  intros node. split.
  - intros c Hp Hc Hlt.
    destruct (referencing_current
                (Reference.mk argument ReferenceFlag.RW None None false false)
                r c Hc Hlt) as (r' & Hrun & Hr & Hd & Hc' & Hl').
    exists r'. split.
    { unfold node. cbn [visit dispatch]. unfold UpdateExpression.
      by rewrite Hp. }
    split; [by rewrite Hr, decide_True|]. split; [|done].
    intros h Hh. by rewrite Hr, decide_False, app_nil_r.
  - intros Hp. unfold node. cbn [visit dispatch]. unfold UpdateExpression.
    rewrite Hp. unfold visitChildren. cbn [children forEach].
    apply bind_ret_tt.
Qed.

(** X9 at a sample input: [x++] in the global scope of a script. *)
Lemma update_expression_reference_witness :
  exists r',
    visit (H := sloppy) 1
          (TSESTree.UpdateExpression 1 (TSESTree.Identifier 2 "x"))
          in_global_scope = Ok tt r' /\
    refs r' 0 = [Reference.mk (TSESTree.Identifier 2 "x") ReferenceFlag.RW
                              None None false false].
Proof.
  destruct (proj1 (update_expression_reference (H := sloppy) 0 1
                     (TSESTree.Identifier 2 "x") in_global_scope) 0)
    as (r' & Hrun & Hrefs & _).
  - reflexivity.
  - reflexivity.
  - simpl. lia.
  - exists r'. split; [exact Hrun|exact Hrefs].
Defined.

(** ** Marks on the variable scope *)

(** X10.  [this] marks the variable scope.  The visit of a [this]
    expression in the open scope [c] sets the mark [thisFound] on the
    variable scope of [c] (the enclosing function, module or global scope,
    not the block or other scope in which [this] occurs), changes no other
    scope, and records neither a reference nor a binding. *)
Theorem this_marks_variable_scope `{StrictnessInference} (fuel i : nat)
    (r : Referencer) (c : nat) (sc : Scope.t) :
  wf r -> cur r = Some c -> store r !! c = Some sc ->
  exists r' vs,
    visit (S fuel) (TSESTree.ThisExpression i) r = Ok tt r' /\
    store r' !! Scope.variableScope sc = Some vs /\
    Scope.thisFound vs = true /\
    (forall h, h <> Scope.variableScope sc -> store r' !! h = store r !! h) /\
    (forall h, refs r' h = refs r h /\ defs r' h = defs r h) /\
    cur r' = Some c.
Proof.
  intros Hwf Hc Hsc.
  destruct (lookup_lt_is_Some_2 (store r) (Scope.variableScope sc))
    as [vs Hvs].
  { pose proof (wf_variableScope _ Hwf _ _ Hsc).
    pose proof (wf_cur _ Hwf _ Hc). lia. }
  assert (Hrun : updateScope (Scope.variableScope sc) Scope.__detectThis r
                 = Ok tt (set_store (<[Scope.variableScope sc :=
                                         Scope.__detectThis vs]> (store r))
                                    r)).
  { unfold updateScope. by rewrite Hvs. }
  eexists _, (Scope.__detectThis vs). split.
  { cbn [visit dispatch]. unfold ThisExpression.
    apply bind_Ok. exists c, r. split; [by apply currentScope_throw_Some|].
    apply bind_Ok. exists sc, r. split; [|exact Hrun].
    unfold getScope. by rewrite Hsc. }
  apply updateScope_obs in Hrun as (Hcur & _ & Hst).
  split; [by rewrite Hst, decide_True, Hvs|]. split; [done|].
  split; [|split; [|congruence]].
  - intros h Hh. by rewrite Hst, decide_False.
  - intros h. unfold refs, defs. rewrite Hst.
    case_decide; [subst h; rewrite Hvs|]; done.
Qed.

(** X10 at a sample input: [this] inside a block of a script marks the
    global scope, not the Block scope. *)
Lemma this_marks_variable_scope_witness :
  exists r' vs,
    visit (H := sloppy) 1 (TSESTree.ThisExpression 10) in_block_scope
    = Ok tt r' /\
    store r' !! 0 = Some vs /\ Scope.thisFound vs = true /\
    store r' !! 1 = store in_block_scope !! 1.
Proof.
  destruct (this_marks_variable_scope (H := sloppy) 0 10 in_block_scope 1
              sample_block_scope)
    as (r' & vs & Hrun & Hvs & Hmark & Hother & _).
  - by apply wfb_sound.
  - reflexivity.
  - reflexivity.
  - exists r', vs. split; [exact Hrun|]. split; [exact Hvs|].
    split; [exact Hmark|]. by apply Hother.
Defined.

(** The statements of a list, visited in order, keep the state. *)
Lemma Stable_visitChildren `{StrictnessInference} (fuel : nat) (node : Node) :
  Stable (visitChildren (visit fuel) node).
Proof. apply Stable_forEach. intros x. apply visit_Stable. Qed.

(** X11.  A direct call to [eval].  A call whose callee is the name [eval],
    visited in the open scope [c] with fuel for the depth of its well-shaped
    tree, is visited to the end.  Unless the analysis ignores [eval], the
    variable scope of [c] (not [c] itself, when [c] is a block or another
    inner scope) carries the mark [dynamic] when the visit returns, whatever
    the arguments of the call did in between.  When the analysis ignores
    [eval], a call without arguments changes the mark of no scope. *)
Theorem direct_eval_marks_variable_scope `{StrictnessInference}
    (depth fuel i j : nat) (arguments : list Node) (r : Referencer)
    (c : nat) (sc : Scope.t) :
  let node :=
    TSESTree.CallExpression i (TSESTree.Identifier j "eval") arguments in
  distinct_nodes node -> wf r -> cur_ok (ids node) r ->
  cur r = Some c -> store r !! c = Some sc ->
  shaped_within depth (moduleMode r) node = true -> depth < fuel ->
  exists r',
    visit fuel node r = Ok tt r' /\
    (__ignoreEval (options (scopeManager r)) = false ->
     exists vs,
       store r' !! Scope.variableScope sc = Some vs /\
       Scope.dynamic vs = true) /\
    (__ignoreEval (options (scopeManager r)) = true -> arguments = [] ->
     forall h,
       Scope.dynamic <$> store r' !! h = Scope.dynamic <$> store r !! h) /\
    cur r' = Some c.
Proof.
  intros node Hn Hwf Hok Hc Hsc Hshape Hfuel.
  destruct (visit_returns depth fuel node r c) as [r' Hrun]; try done.
  exists r'. split; [exact Hrun|]. clear Hshape Hfuel.
  pose proof (visit_Bal fuel node Hn _ _ _ Hrun Hwf Hok) as (_ & _ & Hcur').
  split; [|split; [|congruence]].
  - intros Heval. destruct fuel as [|fuel]; [done|]. unfold node in Hrun.
    cbn [visit dispatch] in Hrun. unfold CallExpression in Hrun.
    fold node in Hrun.
    apply bind_Ok in Hrun as (opts & ? & [-> ->]%getOptions_run & Hrun).
    rewrite Heval in Hrun. cbn [negb andb String.eqb Ascii.eqb Bool.eqb]
      in Hrun.
    apply bind_Ok in Hrun as ([] & r1 & Hmark & Hrun).
    apply bind_Ok in Hmark
      as (c' & ? & [Hc' ->]%currentScope_throw_run & Hmark).
    rewrite Hc in Hc'. injection Hc' as <-.
    apply bind_Ok in Hmark as (sc' & ? & [Hsc' ->]%getScope_run & Hmark).
    rewrite Hsc in Hsc'. injection Hsc' as <-.
    apply updateScope_obs in Hmark as (_ & [vs Hvs] & Hst).
    destruct (keeps_scopes _ _ (Stable_visitChildren fuel node _ _ _ Hrun)
                (Scope.variableScope sc) (Scope.__detectEval vs))
      as (vs' & Hvs' & Hkept).
    { by rewrite Hst, decide_True, Hvs. }
    exists vs'. split; [done|]. by apply (kept_dynamic _ _ Hkept).
  - intros Heval -> h. destruct fuel as [|fuel]; [done|].
    unfold node in Hrun. cbn [visit dispatch] in Hrun.
    unfold CallExpression in Hrun.
    apply bind_Ok in Hrun as (opts & ? & [-> ->]%getOptions_run & Hrun).
    rewrite Heval in Hrun. cbn [negb andb] in Hrun.
    apply bind_Ok in Hrun as ([] & r1 & [_ <-]%ret_Ok & Hrun).
    unfold visitChildren in Hrun. cbn [children forEach] in Hrun.
    rewrite bind_ret_tt in Hrun. destruct fuel as [|fuel]; [done|].
    cbn [visit dispatch] in Hrun. unfold Identifier in Hrun.
    apply bind_Ok in Hrun as (c' & ? & [_ ->]%currentScope_throw_run & Hrun).
    apply updateScope_obs in Hrun as (_ & _ & Hst). rewrite Hst.
    case_decide; [|done]. by destruct (store r !! h).
Qed.

(** X11 at a sample input: [eval(x)] inside a block of a script marks the
    global scope. *)
Lemma direct_eval_marks_variable_scope_witness :
  exists r' vs,
    visit (H := sloppy) 3 sample_eval_call in_block_scope = Ok tt r' /\
    store r' !! 0 = Some vs /\ Scope.dynamic vs = true.
Proof.
  destruct (direct_eval_marks_variable_scope (H := sloppy) 2 3 10 11
              [TSESTree.Identifier 12 "x"] in_block_scope 1
              sample_block_scope)
    as (r' & Hrun & Hmark & _).
  - by apply distinct_nodesb_sound.
  - by apply wfb_sound.
  - by apply cur_okb_sound.
  - reflexivity.
  - reflexivity.
  - reflexivity.
  - lia.
  - destruct (Hmark eq_refl) as (vs & Hvs & Hdyn).
    exists r', vs. split; [exact Hrun|]. split; [exact Hvs|exact Hdyn].
Defined.

(** ** Methods *)




(** ** Statements with a scope of their own *)

(** A handler seen as: the scope of its node if it nests one, a balanced
    body, [close]. *)
Lemma scope_bracket `{StrictnessInference} (node : Node) (type : ScopeType)
    (nests : bool) (inner : M unit) (r r1 r5 r' : Referencer) (c : nat) :
  distinct_nodes node -> wf r -> cur_ok (ids node) r -> cur r = Some c ->
  (if nests then __nestScope type node false [] else ret tt) r = Ok tt r1 ->
  Bal (flat_map ids (children node)) inner ->
  inner r1 = Ok tt r5 ->
  close node r5 = Ok tt r' ->
  cur r1 = (if nests then Some (length (store r)) else Some c) /\
  ext (ids node) r r' /\
  (forall h sc,
     length (store r) <= h -> store r' !! h = Some sc ->
     nid (Scope.block sc) = nid node ->
     nests = true /\ h = length (store r)) /\
  (nests = true ->
   exists sc,
     store r' !! length (store r) = Some sc /\
     Scope.type sc = type /\ Scope.block sc = node /\
     Scope.upper sc = Some c) /\
  (nests = false -> r1 = r).
Proof.
  intros Hn Hwf Hok Hc Hnest Hbal Hinner Hclose.
  assert (H1 : wf r1 /\ cur_ok (flat_map ids (children node)) r1 /\
               cur r1 = (if nests then Some (length (store r)) else Some c)
               /\ length (store r1)
                  = (if nests then S (length (store r))
                     else length (store r))
               /\ ext [nid node] r r1).
  { destruct nests.
    - destruct (nestScope_step _ _ _ _ _ _ _ Hnest Hwf)
        as (Hwf1 & Hc1 & Hl1 & He1 & sc & Hsc & _ & Hb & _).
      split; [done|]. split; [|done].
      intros c' sc' Hc' Hsc'. rewrite Hc1 in Hc'. injection Hc' as <-.
      rewrite Hsc in Hsc'. injection Hsc' as <-. rewrite Hb.
      by apply distinct_root.
    - apply ret_Ok in Hnest as [_ <-].
      split; [done|]. split; [by apply cur_ok_root|].
      split; [done|]. split; [done|apply ext_refl]. }
  destruct H1 as (Hwf1 & Hok1 & Hc1 & Hl1 & He1).
  destruct (Hbal _ _ _ Hinner Hwf1 Hok1) as (He5 & Hwf5 & Hc5).
  apply close_closes_only in Hclose as [Hco _]; [|done].
  assert (He' : ext (flat_map ids (children node)) r1 r').
  { eapply ext_trans; [exact He5|].
    eapply ext_mono; [apply nil_subseteq|]. by apply closes_only_ext. }
  split; [done|]. split; [|split; [|split]].
  - eapply ext_trans; [eapply ext_mono; [apply ids_root|exact He1]|].
    eapply ext_mono; [apply ids_descendants|exact He'].
  - intros h sc Hh Hsc Hb.
    destruct (decide (length (store r1) <= h)) as [Hnew|Hold].
    { exfalso. apply (distinct_root node Hn). rewrite <- Hb.
      by eapply (ext_new _ _ _ He'). }
    destruct nests; [split; [done|lia]|lia].
  - intros ->.
    destruct (nestScope_step _ _ _ _ _ _ _ Hnest Hwf)
      as (_ & _ & _ & _ & sc & Hsc & Hty & Hb & Hup & _).
    destruct (ext_old _ _ _ He' _ _ Hsc) as (sc' & Hsc' & Hle).
    exists sc'. split; [done|].
    rewrite <- (le_type _ _ Hle), <- (le_block _ _ Hle),
      <- (le_upper _ _ Hle). by rewrite Hup.
  - intros ->. by apply ret_Ok in Hnest as [_ <-].
Qed.

(** The children of a node, visited in order, are balanced. *)
Lemma Bal_children `{StrictnessInference} (fuel : nat) (node : Node)
    (xs : list Node) :
  distinct_nodes node -> (forall x, x ∈ xs -> x ∈ children node) ->
  Bal (flat_map ids (children node)) (forEach (visit fuel) xs).
Proof.
  intros Hn Hxs. apply Bal_forEach. intros x Hx.
  apply Bal_visit_psub'; [done|]. by apply psub_child, Hxs.
Qed.

(** X13.  Block statements.  A block statement visited in the open scope
    [c], with fuel for the depth of its well-shaped tree, is visited to the
    end.  In the 2015 edition it opens exactly one scope of its own, a Block
    scope that is the first scope created and sits right under [c], and the
    statements are visited with that scope current; in an earlier edition it
    opens no scope of its own and the statements are visited with [c]
    current.  The visit ends with [c] current again. *)
Theorem block_scope_iff_es6 `{StrictnessInference} (depth fuel i : nat)
    (body : list Node) (r : Referencer) (c : nat) :
  let node := TSESTree.BlockStatement i body in
  let es6 := __isES6 (options (scopeManager r)) in
  distinct_nodes node -> wf r -> cur_ok (ids node) r -> cur r = Some c ->
  shaped_within depth (moduleMode r) node = true -> depth < fuel ->
  exists r',
    visit fuel node r = Ok tt r' /\
    (forall h s,
       length (store r) <= h -> store r' !! h = Some s ->
       nid (Scope.block s) = nid node ->
       es6 = true /\ h = length (store r)) /\
    (es6 = true ->
     exists s,
       store r' !! length (store r) = Some s /\
       Scope.type s = BlockScope /\ Scope.block s = node /\
       Scope.upper s = Some c) /\
    (exists fuel' r1 r5,
       (if es6 then __nestBlockScope node else ret tt) r = Ok tt r1 /\
       cur r1 = (if es6 then Some (length (store r)) else Some c) /\
       forEach (visit fuel') body r1 = Ok tt r5 /\
       close node r5 = Ok tt r') /\
    cur r' = Some c.
Proof.
  intros node es6 Hn Hwf Hok Hc Hshape Hfuel.
  destruct (visit_returns depth fuel node r c) as [r' Hrun]; try done.
  exists r'. split; [exact Hrun|]. clear Hshape Hfuel.
  pose proof (visit_Bal fuel node Hn _ _ _ Hrun Hwf Hok) as (_ & _ & Hcur').
  destruct fuel as [|fuel]; [done|]. unfold node in Hrun.
  cbn [visit dispatch] in Hrun. unfold BlockStatement in Hrun.
  fold node in Hrun.
  apply bind_Ok in Hrun as (opts & ? & [-> ->]%getOptions_run & Hrun).
  apply bind_Ok in Hrun as ([] & r1 & Hnest & Hrun).
  apply bind_Ok in Hrun as ([] & r5 & Hinner & Hclose).
  fold es6 in Hnest. pose proof Hnest as Hnest'.
  unfold __nestBlockScope in Hnest.
  destruct (scope_bracket node BlockScope es6 _ r r1 r5 r' c Hn Hwf Hok Hc
              Hnest (Bal_children fuel node body Hn (fun x Hx => Hx))
              Hinner Hclose) as (Hc1 & _ & Honly & Hscope & _).
  split; [exact Honly|]. split; [exact Hscope|].
  split; [by exists fuel, r1, r5|congruence].
Qed.

(** X13 at a sample input: the block [{ x; }] in the global scope of a
    script of the 2015 edition. *)
Lemma block_scope_iff_es6_witness :
  exists r' s,
    visit (H := sloppy) 3 sample_block in_global_scope = Ok tt r' /\
    store r' !! 1 = Some s /\ Scope.type s = BlockScope /\
    Scope.block s = sample_block /\ Scope.upper s = Some 0.
Proof.
  destruct (block_scope_iff_es6 (H := sloppy) 2 3 30
              [TSESTree.Identifier 31 "x"] in_global_scope 0)
    as (r' & Hrun & _ & Hscope & _).
  - by apply distinct_nodesb_sound.
  - by apply wfb_sound.
  - by apply cur_okb_sound.
  - reflexivity.
  - reflexivity.
  - lia.
  - destruct (Hscope eq_refl) as (s & Hs & Hty & Hb & Hup).
    exists r', s. by repeat split.
Defined.

(** In an earlier edition the same block opens no scope: the store of the
    run has the global scope only, which holds the reference to [x]. *)
Example block_without_block_scope :
  let r' := run_state (visit (H := sloppy) 3 sample_block)
                      in_es5_global_scope in
  length (store r') = 1 /\
  refs r' 0 = [readReference (TSESTree.Identifier 31 "x")].
Proof. vm_compute. done. Qed.

(** X14.  Switch statements.  A switch statement visited in the open scope
    [c], with fuel for the depth of its well-shaped tree, is visited to the
    end.  The discriminant is visited first, with [c] current and before any
    scope of the statement exists.  In the 2015 edition the statement then
    opens exactly one scope of its own, a Switch scope that is the first
    scope created after the visit of the discriminant and sits right under
    [c]; in an earlier edition it opens none.  The visit ends with [c]
    current again. *)
Theorem switch_scope_after_discriminant `{StrictnessInference}
    (depth fuel i : nat) (discriminant : Node) (cases : list Node)
    (r : Referencer) (c : nat) :
  let node := TSESTree.SwitchStatement i discriminant cases in
  let es6 := __isES6 (options (scopeManager r)) in
  distinct_nodes node -> wf r -> cur_ok (ids node) r -> cur r = Some c ->
  shaped_within depth (moduleMode r) node = true -> depth < fuel ->
  exists r' fuel' r1,
    visit fuel node r = Ok tt r' /\
    visit fuel' discriminant r = Ok tt r1 /\ cur r1 = Some c /\
    (forall h s,
       length (store r) <= h -> store r' !! h = Some s ->
       nid (Scope.block s) = nid node ->
       es6 = true /\ h = length (store r1)) /\
    (es6 = true ->
     exists s,
       store r' !! length (store r1) = Some s /\
       Scope.type s = SwitchScope /\ Scope.block s = node /\
       Scope.upper s = Some c) /\
    cur r' = Some c.
Proof.
  intros node es6 Hn Hwf Hok Hc Hshape Hfuel.
  destruct (visit_returns depth fuel node r c) as [r' Hrun]; try done.
  clear Hshape Hfuel.
  pose proof (visit_Bal fuel node Hn _ _ _ Hrun Hwf Hok) as (_ & _ & Hcur').
  pose proof Hrun as Hwhole.
  destruct fuel as [|fuel]; [done|]. unfold node in Hrun.
  cbn [visit dispatch] in Hrun. unfold SwitchStatement in Hrun.
  fold node in Hrun.
  apply bind_Ok in Hrun as ([] & r1 & Hdisc & Hrun).
  apply bind_Ok in Hrun as ([] & r2 & Hnest & Hrun).
  apply bind_Ok in Hrun as ([] & r5 & Hinner & Hclose).
  destruct (Bal_visit_psub' fuel node discriminant Hn) with (r := r)
    (a := tt) (r' := r1) as (He1 & Hwf1 & Hc1); try done.
  { apply psub_child. unfold node. mem. }
  { by apply cur_ok_root. }
  apply bind_Ok in Hnest as (opts & ? & [-> ->]%getOptions_run & Hnest).
  rewrite (ext_options _ _ _ He1) in Hnest. fold es6 in Hnest.
  unfold __nestSwitchScope in Hnest.
  destruct (scope_bracket node SwitchScope es6 (forEach (visit fuel) cases)
              r1 r2 r5 r' c Hn Hwf1)
    as (Hc2 & He' & Honly & Hscope & _); try done.
  { eapply cur_ok_ext; [exact He1|done..]. }
  { congruence. }
  { apply Bal_children; [done|]. intros x Hx. unfold node. cbn [children].
    by right. }
  exists r', fuel, r1. split; [exact Hwhole|]. split; [exact Hdisc|].
  split; [congruence|]. split; [|split; [exact Hscope|congruence]].
  intros h s Hh Hs Hb.
  destruct (decide (length (store r1) <= h)) as [Hnew|Hold];
    [by apply (Honly h s)|].
  exfalso. apply (distinct_root node Hn). rewrite <- Hb.
  destruct (lookup_lt_is_Some_2 (store r1) h) as [s1 Hs1]; [lia|].
  destruct (ext_old _ _ _ He' _ _ Hs1) as (s' & Hs' & Hle).
  assert (s' = s) as -> by congruence.
  rewrite <- (le_block _ _ Hle). by apply (ext_new _ _ _ He1 h).
Qed.

(** X14 at a sample input: [switch (x) { case y: }] in the global scope of a
    script of the 2015 edition. *)
Lemma switch_scope_after_discriminant_witness :
  exists r' s,
    visit (H := sloppy) 4 sample_switch in_global_scope = Ok tt r' /\
    store r' !! 1 = Some s /\ Scope.type s = SwitchScope /\
    Scope.block s = sample_switch /\ Scope.upper s = Some 0 /\
    cur r' = Some 0.
Proof.
  destruct (switch_scope_after_discriminant (H := sloppy) 3 4 40
              (TSESTree.Identifier 41 "x")
              [TSESTree.Other 42 "SwitchCase" [TSESTree.Identifier 43 "y"]]
              in_global_scope 0)
    as (r' & fuel' & r1 & Hrun & Hdisc & _ & _ & Hscope & Hcur).
  - by apply distinct_nodesb_sound.
  - by apply wfb_sound.
  - by apply cur_okb_sound.
  - reflexivity.
  - reflexivity.
  - lia.
  - destruct (Hscope eq_refl) as (s & Hs & Hty & Hb & Hup).
    assert (Hl : length (store r1) = 1).
    { destruct fuel' as [|fuel']; [discriminate Hdisc|].
      by injection Hdisc as <-. }
    rewrite Hl in Hs. exists r', s. by repeat split.
Defined.

(** X15.  With statements.  A [with] statement visited in the open scope
    [c], with fuel for the depth of its well-shaped tree, is visited to the
    end.  The object expression is visited first, with [c] current and
    before the scope of the statement exists; the statement then opens
    exactly one scope of its own, a With scope that is the first scope
    created after the visit of the object and sits right under [c]; the body
    is visited with that scope current; and the visit ends with [c] current
    again. *)
Theorem with_scope_after_object `{StrictnessInference} (depth fuel i : nat)
    (object body : Node) (r : Referencer) (c : nat) :
  let node := TSESTree.WithStatement i object body in
  distinct_nodes node -> wf r -> cur_ok (ids node) r -> cur r = Some c ->
  shaped_within depth (moduleMode r) node = true -> depth < fuel ->
  exists r' fuel' r1 r2 r5 s,
    visit fuel node r = Ok tt r' /\
    visit fuel' object r = Ok tt r1 /\ cur r1 = Some c /\
    __nestWithScope node r1 = Ok tt r2 /\
    cur r2 = Some (length (store r1)) /\
    visit fuel' body r2 = Ok tt r5 /\ close node r5 = Ok tt r' /\
    store r' !! length (store r1) = Some s /\
    Scope.type s = WithScope /\ Scope.block s = node /\
    Scope.upper s = Some c /\
    (forall h s',
       length (store r) <= h -> store r' !! h = Some s' ->
       nid (Scope.block s') = nid node -> h = length (store r1)) /\
    cur r' = Some c.
Proof.
  intros node Hn Hwf Hok Hc Hshape Hfuel.
  destruct (visit_returns depth fuel node r c) as [r' Hrun]; try done.
  clear Hshape Hfuel.
  pose proof (visit_Bal fuel node Hn _ _ _ Hrun Hwf Hok) as (_ & _ & Hcur').
  pose proof Hrun as Hwhole.
  destruct fuel as [|fuel]; [done|]. unfold node in Hrun.
  cbn [visit dispatch] in Hrun. unfold WithStatement in Hrun.
  fold node in Hrun.
  apply bind_Ok in Hrun as ([] & r1 & Hobject & Hrun).
  apply bind_Ok in Hrun as ([] & r2 & Hnest & Hrun).
  apply bind_Ok in Hrun as ([] & r5 & Hinner & Hclose).
  destruct (Bal_visit_psub' fuel node object Hn) with (r := r)
    (a := tt) (r' := r1) as (He1 & Hwf1 & Hc1); try done.
  { apply psub_child. unfold node. mem. }
  { by apply cur_ok_root. }
  pose proof Hnest as Hnest'. pose proof Hclose as Hclose'.
  unfold __nestWithScope in Hnest.
  destruct (scope_bracket node WithScope true (visit fuel body)
              r1 r2 r5 r' c Hn Hwf1)
    as (Hc2 & He' & Honly & Hscope & _); try done.
  { eapply cur_ok_ext; [exact He1|done..]. }
  { congruence. }
  { apply Bal_visit_psub'; [done|]. apply psub_child. unfold node. mem. }
  destruct (Hscope eq_refl) as (s & Hs & Hty & Hb & Hup).
  exists r', fuel, r1, r2, r5, s. split; [exact Hwhole|].
  split; [exact Hobject|]. split; [congruence|]. split; [exact Hnest'|].
  split; [exact Hc2|]. split; [exact Hinner|]. split; [exact Hclose'|].
  split; [exact Hs|]. split; [exact Hty|].
  split; [exact Hb|]. split; [exact Hup|]. split; [|congruence].
  intros h s' Hh Hs' Hb'.
  destruct (decide (length (store r1) <= h)) as [Hnew|Hold];
    [by apply (Honly h s')|].
  exfalso. apply (distinct_root node Hn). rewrite <- Hb'.
  destruct (lookup_lt_is_Some_2 (store r1) h) as [s1 Hs1]; [lia|].
  destruct (ext_old _ _ _ He' _ _ Hs1) as (s2 & Hs2 & Hle).
  assert (s2 = s') as -> by congruence.
  rewrite <- (le_block _ _ Hle). by apply (ext_new _ _ _ He1 h).
Qed.

(** X15 at a sample input: [with (o) { x; }] in the global scope of a
    script. *)
Lemma with_scope_after_object_witness :
  exists r' s,
    visit (H := sloppy) 4 sample_with in_global_scope = Ok tt r' /\
    store r' !! 1 = Some s /\ Scope.type s = WithScope /\
    Scope.block s = sample_with /\ Scope.upper s = Some 0 /\
    cur r' = Some 0.
Proof.
  destruct (with_scope_after_object (H := sloppy) 3 4 50
              (TSESTree.Identifier 51 "o")
              (TSESTree.BlockStatement 52 [TSESTree.Identifier 53 "x"])
              in_global_scope 0)
    as (r' & fuel' & r1 & r2 & r5 & s & Hrun & Hobject & _ & _ & _ & _
        & _ & Hs & Hty & Hb & Hup & _ & Hcur).
  - by apply distinct_nodesb_sound.
  - by apply wfb_sound.
  - by apply cur_okb_sound.
  - reflexivity.
  - reflexivity.
  - lia.
  - assert (Hl : length (store r1) = 1).
    { destruct fuel' as [|fuel']; [discriminate Hobject|].
      by injection Hobject as <-. }
    rewrite Hl in Hs. exists r', s. by repeat split.
Defined.

(** ** Catch clauses *)

(** The bindings and the names of a scope at its creation. *)
Lemma nestScope_names `{StrictnessInference} type block isMethod ds r a r' :
  __nestScope type block isMethod ds r = Ok a r' ->
  exists sc,
    store r' !! length (store r) = Some sc /\
    Scope.names sc = map Definition_.name ds /\
    Scope.definitions sc = ds.
Proof.
  unfold __nestScope.
  destruct (if isVariableScope type then _ else _) as [vs|]; [|done].
  intros [= <- <-]. eexists.
  rewrite store_set_cur, store_set_store, list_lookup_middle by done.
  done.
Qed.

(** [referencingDefaultValue] leaves the bindings of every scope alone. *)
Lemma referencingDefaultValue_bindings pattern assignments mig init r r' :
  referencingDefaultValue pattern assignments mig init r = Ok tt r' ->
  cur r' = cur r /\
  forall h s,
    store r !! h = Some s ->
    exists s',
      store r' !! h = Some s' /\ Scope.names s' = Scope.names s /\
      Scope.definitions s' = Scope.definitions s.
Proof.
  unfold referencingDefaultValue. revert r.
  induction assignments as [|a assignments IH]; simpl; intros r Hrun.
  - apply ret_Ok in Hrun as [_ <-]. eauto.
  - apply bind_Ok in Hrun as ([] & r1 & Hrun1 & Hrun).
    apply bind_Ok in Hrun1 as (c & ? & [_ ->]%currentScope_throw_run & Hrun1).
    apply updateScope_obs in Hrun1 as (Hc & _ & Hst).
    destruct (IH _ Hrun) as [Hc' Hs']. split; [congruence|].
    intros h s Hs.
    destruct (Hs' h (if decide (h = c) then Scope.__referencing
                       (Reference.mk pattern ReferenceFlag.WRITE
                          (assignment_right a) mig
                          (match assignment_left a with
                           | Some lhs => negb (same_node pattern lhs)
                           | None => true
                           end) init) s
                     else s)) as (s' & Hs1 & Hn & Hd).
    { rewrite Hst. case_decide; by rewrite Hs. }
    exists s'. split; [done|]. by case_decide.
Qed.

(** The leaves of the parameter of a catch clause [node], defined in the
    open scope [k]. *)
Lemma catch_leaves_loop (node param : Node) (k : nat)
    (leaves : list (Node * PatternVisitor.Info)) :
  forall r r' s,
    cur r = Some k -> store r !! k = Some s ->
    forEach
      (fun '(pattern, info) =>
         (let* c := currentScope_throw in
          __define c pattern
            (new_Definition VariableType.CatchClause param node
                            None None None)) ;;
         referencingDefaultValue pattern
           (PatternVisitor.assignments info) None true)
      leaves r = Ok tt r' ->
    cur r' = Some k /\
    exists s',
      store r' !! k = Some s' /\
      Scope.names s' = Scope.names s ++ map fst leaves /\
      Scope.definitions s'
      = Scope.definitions s ++
        map (fun _ => new_Definition VariableType.CatchClause param node
                                     None None None) leaves.
Proof.
  induction leaves as [|[pattern info] leaves IH]; intros r r' s Hc Hs Hrun.
  - apply ret_Ok in Hrun as [_ <-]. split; [done|]. exists s.
    by rewrite !app_nil_r.
  - cbn [forEach] in Hrun.
    apply bind_Ok in Hrun as ([] & r2 & Hleaf & Hrun).
    apply bind_Ok in Hleaf as ([] & r1 & Hdef & Hdv).
    apply bind_Ok in Hdef as (c & ? & [Hc' ->]%currentScope_throw_run & Hdef).
    rewrite Hc in Hc'. injection Hc' as <-.
    apply updateScope_obs in Hdef as (Hc1 & _ & Hst).
    apply referencingDefaultValue_bindings in Hdv as [Hc2 Hs2].
    destruct (Hs2 k (Scope.__define pattern
                       (new_Definition VariableType.CatchClause param node
                                       None None None) s))
      as (s2 & Hs2' & Hn2 & Hd2).
    { by rewrite Hst, decide_True, Hs. }
    destruct (IH r2 r' s2) as (Hc' & s' & Hs' & Hn' & Hd'); try done.
    { congruence. }
    split; [done|]. exists s'. split; [done|].
    rewrite Hn', Hd', Hn2, Hd2. simpl. by rewrite <- !app_assoc.
Qed.

(** X16.  Catch clauses.  A catch clause visited in the open scope [c],
    with fuel for the depth of its well-shaped tree, is visited to the end.
    Its Catch scope is the first scope created and sits right under [c].
    When the clause has a parameter, the first bindings of the Catch scope
    are those of the leaves of the parameter, one per leaf in order: each is
    registered under the name of its leaf, has the kind CatchClause and the
    clause as its node, and names the whole parameter (not the leaf) as the
    node of its name.  The visit ends with [c] current again. *)
Theorem catch_clause_scope `{StrictnessInference} (depth fuel i : nat)
    (param : option Node) (body : Node) (r : Referencer) (c : nat) :
  let node := TSESTree.CatchClause i param body in
  distinct_nodes node -> wf r -> cur_ok (ids node) r -> cur r = Some c ->
  shaped_within depth (moduleMode r) node = true -> depth < fuel ->
  exists r' cs,
    visit fuel node r = Ok tt r' /\
    store r' !! length (store r) = Some cs /\
    Scope.type cs = CatchScope /\ Scope.block cs = node /\
    Scope.upper cs = Some c /\
    (forall p,
       param = Some p ->
       map fst (PatternVisitor.leaves p) `prefix_of` Scope.names cs /\
       map (fun _ => new_Definition VariableType.CatchClause p node
                                    None None None)
           (PatternVisitor.leaves p)
       `prefix_of` Scope.definitions cs) /\
    cur r' = Some c.
Proof.
  intros node Hn Hwf Hok Hc Hshape Hfuel.
  destruct (visit_returns depth fuel node r c) as [r' Hrun]; try done.
  clear Hshape Hfuel.
  pose proof (visit_Bal fuel node Hn _ _ _ Hrun Hwf Hok) as (_ & _ & Hcur').
  pose proof Hrun as Hwhole.
  destruct fuel as [|fuel]; [done|]. unfold node in Hrun.
  cbn [visit dispatch] in Hrun. unfold CatchClause in Hrun.
  fold node in Hrun.
  apply bind_Ok in Hrun as ([] & r1 & Hnest & Hrun).
  unfold __nestCatchScope in Hnest.
  destruct (nestScope_step _ _ _ _ _ _ _ Hnest Hwf)
    as (Hwf1 & Hc1 & _ & _ & cs1 & Hcs1 & Hty & Hb & Hup & _).
  destruct (nestScope_names _ _ _ _ _ _ _ Hnest) as (cs1' & Hcs1' & Hn1 & Hd1).
  rewrite Hcs1 in Hcs1'. injection Hcs1' as <-.
  pose proof (visit_Stable fuel) as Hvisit.
  assert (Hk1 : keeps r1 r').
  { match type of Hrun with
    | ?m r1 = _ =>
        assert (Hrest : Stable m)
          by (unfold visitPattern, traverseIdentifierInPattern, __define;
              stable)
    end.
    by eapply Hrest. }
  destruct (keeps_scopes _ _ Hk1 _ _ Hcs1) as (cs & Hcs & [Hle _ _ _ _ _]).
  exists r', cs. split; [exact Hwhole|]. split; [exact Hcs|].
  rewrite <- (le_type _ _ Hle), <- (le_block _ _ Hle), <- (le_upper _ _ Hle).
  split; [exact Hty|]. split; [exact Hb|]. split; [congruence|].
  split; [|congruence].
  intros p ->. apply bind_Ok in Hrun as ([] & r3 & Hparam & Hrun).
  unfold visitPattern, traverseIdentifierInPattern in Hparam.
  cbn [PatternVisitor.processRightHandNodes] in Hparam.
  apply bind_Ok in Hparam as ([] & r2 & Hleaves & Hrhn).
  destruct (catch_leaves_loop node p (length (store r)) _ _ _ _ Hc1 Hcs1
              Hleaves) as (Hc2 & cs2 & Hcs2 & Hn2 & Hd2).
  rewrite Hn1 in Hn2. rewrite Hd1 in Hd2. simpl in Hn2, Hd2.
  assert (Hk2 : keeps r2 r').
  { eapply keeps_trans;
      [exact (Stable_forEach _ _ Hvisit _ _ _ Hrhn)|].
    match type of Hrun with
    | ?m r3 = _ => assert (Hrest : Stable m) by stable
    end.
    by eapply Hrest. }
  destruct (keeps_scopes _ _ Hk2 _ _ Hcs2)
    as (cs' & Hcs' & [Hle' Hnames' _ _ _ _]).
  assert (cs' = cs) as -> by congruence.
  rewrite <- Hn2, <- Hd2. split; [exact Hnames'|apply Hle'].
Qed.

(** X16 at a sample input: [catch ([a, b]) { }] in the global scope of a
    script. *)
Lemma catch_clause_scope_witness :
  exists r' cs,
    visit (H := sloppy) 4 sample_catch in_global_scope = Ok tt r' /\
    store r' !! 1 = Some cs /\ Scope.type cs = CatchScope /\
    [TSESTree.Identifier 62 "a"; TSESTree.Identifier 63 "b"]
    `prefix_of` Scope.names cs /\
    map Definition_.name (Scope.definitions cs)
    = [sample_catch_param; sample_catch_param].
Proof.
  destruct (catch_clause_scope (H := sloppy) 3 4 60 (Some sample_catch_param)
              (TSESTree.BlockStatement 64 []) in_global_scope 0)
    as (r' & cs & Hrun & Hcs & Hty & _ & _ & Hparam & _).
  - by apply distinct_nodesb_sound.
  - by apply wfb_sound.
  - by apply cur_okb_sound.
  - reflexivity.
  - reflexivity.
  - lia.
  - exists r', cs. split; [exact Hrun|]. split; [exact Hcs|].
    split; [exact Hty|]. split; [exact (proj1 (Hparam _ eq_refl))|].
    injection Hrun as <-. by injection Hcs as <-.
Defined.

(** ** Closed scopes are left alone *)

Lemma chain_insert_inv (s : list Scope.t) h sc (f : Scope.t -> Scope.t)
    k from to :
  s !! h = Some sc -> Scope.upper (f sc) = Scope.upper sc ->
  chain (fun _ => True) (<[h := f sc]> s) k from to ->
  chain (fun _ => True) s k from to.
Proof.
  intros Hsc Hup. revert from. induction k as [|k IH]; simpl; [done|].
  intros from (h' & sc' & -> & Hsc' & _ & Hch).
  destruct (decide (h = h')) as [<-|Hne].
  - rewrite list_lookup_insert_eq in Hsc' by (by eapply lookup_lt_Some).
    injection Hsc' as <-. rewrite Hup in Hch. exists h, sc. eauto.
  - rewrite list_lookup_insert_ne in Hsc' by done. exists h', sc'. eauto.
Qed.

(** An update of a scope that is not frozen. *)
Lemma frozen_updateScope snap h f r a r' :
  Monotone f -> live snap h ->
  updateScope h f r = Ok a r' -> wf r -> frozen snap r ->
  wf r' /\ frozen snap r'.
Proof.
  intros Hf Hlive Hrun Hwf (Hlen & Hkept & Hchain).
  destruct (updateScope_ext _ _ _ _ _ Hf Hrun Hwf) as (_ & Hwf' & _).
  split; [done|].
  apply updateScope_run in Hrun as (sc & Hsc & ->).
  split; [by rewrite store_set_store, length_insert|]. split.
  - intros h0 sc0 Hsc0 Hclosed. rewrite store_set_store.
    rewrite list_lookup_insert_ne; [by apply Hkept|].
    intros <-. specialize (Hlive _ Hsc0). congruence.
  - intros h0 sc0 [k Hk]. rewrite store_set_store, cur_set_store in *.
    intros Hsc0.
    assert (Hon : on_chain r h0).
    { exists k. eapply chain_insert_inv; [done| |done].
      symmetry. apply (le_upper _ _ (Hf sc)). }
    destruct (decide (h = h0)) as [<-|Hne].
    + rewrite list_lookup_insert_eq in Hsc0 by (by eapply lookup_lt_Some).
      injection Hsc0 as <-.
      rewrite <- (le_variableScope _ _ (Hf sc)). by apply Hchain.
    + rewrite list_lookup_insert_ne in Hsc0 by done. by apply Hchain.
Qed.

Lemma Respects_ret {A} snap (a : A) : Respects snap (ret a).
Proof. by intros r b r' [_ <-]%ret_Ok. Qed.

Lemma Respects_throw {A} snap e : Respects snap (@throw A e).
Proof. by intros r b r' ?. Qed.

Lemma Respects_bind {A B} snap (m : M A) (k : A -> M B) :
  Respects snap m -> (forall a, Respects snap (k a)) ->
  Respects snap (bind m k).
Proof.
  intros Hm Hk r b r'' (a & r' & H1 & H2)%bind_Ok Hwf Hr.
  destruct (Hm _ _ _ H1 Hwf Hr) as [Hwf1 Hr1]. by eapply Hk.
Qed.

Lemma Respects_forEach {A} snap (f : A -> M unit) (xs : list A) :
  (forall x, Respects snap (f x)) -> Respects snap (forEach f xs).
Proof.
  intros Hf. induction xs as [|x xs IH]; simpl; [apply Respects_ret|].
  apply Respects_bind; [apply Hf|]. by intros _.
Qed.

Lemma Respects_forEachIndexed {A} snap (f : nat -> A -> M unit)
    (xs : list A) i :
  (forall j x, Respects snap (f j x)) -> Respects snap (forEachIndexed f i xs).
Proof.
  intros Hf. revert i. induction xs as [|x xs IH]; simpl; intros i;
    [apply Respects_ret|].
  apply Respects_bind; [apply Hf|]. by intros _.
Qed.

Lemma Respects_getOptions snap : Respects snap getOptions.
Proof. by intros r a r' [= <- <-]. Qed.

Lemma Respects_currentScope_throw snap : Respects snap currentScope_throw.
Proof. by intros r a r' [_ ->]%currentScope_throw_run. Qed.

Lemma Respects_getScope snap h : Respects snap (getScope h).
Proof. by intros r a r' [_ ->]%getScope_run. Qed.

Lemma Respects_get_isInnerMethodDefinition snap :
  Respects snap get_isInnerMethodDefinition.
Proof. by intros r a r' [= <- <-]. Qed.

Lemma Respects_pushInnerMethodDefinition snap b :
  Respects snap (pushInnerMethodDefinition b).
Proof.
  intros r a r' Hrun Hwf Hr.
  destruct (Pure_pushInnerMethodDefinition b _ _ _ Hrun Hwf) as (_ & ? & _).
  by injection Hrun as <- <-.
Qed.

Lemma Respects_popInnerMethodDefinition snap b :
  Respects snap (popInnerMethodDefinition b).
Proof.
  intros r a r' Hrun Hwf Hr.
  destruct (Pure_popInnerMethodDefinition b _ _ _ Hrun Hwf) as (_ & ? & _).
  by injection Hrun as <- <-.
Qed.

Lemma Respects_assert snap c msg : Respects snap (assert c msg).
Proof. destruct c; [apply Respects_ret|apply Respects_throw]. Qed.

(** An update of a scope that is known to be live. *)
Lemma Respects_updateScope snap h f :
  Monotone f -> live snap h -> Respects snap (updateScope h f).
Proof. intros Hf Hlive r a r' Hrun. by eapply frozen_updateScope. Qed.

(** The current scope is live, and so is its variable scope. *)
Lemma frozen_current snap r c sc :
  frozen snap r -> cur r = Some c -> store r !! c = Some sc ->
  live snap c /\ live snap (Scope.variableScope sc).
Proof. intros (_ & _ & Hchain) Hc Hsc. apply Hchain; [by exists 0|done]. Qed.

Lemma Respects_update_current snap f :
  Monotone f ->
  Respects snap (let* c := currentScope_throw in updateScope c f).
Proof.
  intros Hf r a r' Hrun Hwf Hr.
  apply bind_Ok in Hrun as (c & ? & [Hc ->]%currentScope_throw_run & Hrun).
  pose proof Hrun as (sc & Hsc & _)%updateScope_run.
  eapply frozen_updateScope; try done.
  by apply (frozen_current snap r c sc).
Qed.

Lemma Respects_update_variableScope snap f :
  Monotone f ->
  Respects snap (let* c := currentScope_throw in
                 let* sc := getScope c in
                 updateScope (Scope.variableScope sc) f).
Proof.
  intros Hf r a r' Hrun Hwf Hr.
  apply bind_Ok in Hrun as (c & ? & [Hc ->]%currentScope_throw_run & Hrun).
  apply bind_Ok in Hrun as (sc & ? & [Hsc ->]%getScope_run & Hrun).
  eapply frozen_updateScope; try done.
  by apply (frozen_current snap r c sc).
Qed.

Lemma chain_app_l_inv (r : Referencer) sc k c to :
  wf r -> c < length (store r) ->
  chain (fun _ => True) (store r ++ [sc]) k (Some c) to ->
  chain (fun _ => True) (store r) k (Some c) to.
Proof.
  intros Hwf. revert c. induction k as [|k IH]; simpl; [done|].
  intros c Hlt (h' & sc' & [= <-] & Hsc' & _ & Hch).
  rewrite lookup_app_l in Hsc' by done.
  exists c, sc'. split; [done|]. split; [done|]. split; [done|].
  destruct (Scope.upper sc') as [u|] eqn:Hu.
  - apply IH; [|done]. pose proof (wf_upper _ Hwf _ _ _ Hsc' Hu). lia.
  - destruct k; simpl in *; [done|]. by destruct Hch as (? & ? & ? & _).
Qed.

Lemma Respects_nestScope `{StrictnessInference} snap type block isMethod ds :
  Respects snap (__nestScope type block isMethod ds).
Proof.
  intros r a r' Hrun Hwf (Hlen & Hkept & Hchain).
  destruct (nestScope_ext _ _ _ _ _ _ _ Hrun Hwf) as (_ & Hwf' & _).
  split; [done|].
  pose proof (nestScope_run _ _ _ _ _ _ _ Hrun)
    as (sc & Hst & Hc & _ & _ & Hup & _ & _ & _ & _ & Hv1 & Hv2 & _).
  assert (Hnew : live snap (length (store r))).
  { intros sc0 Hsc0%lookup_lt_Some. lia. }
  split; [rewrite Hst, length_app; lia|]. split.
  - intros h0 sc0 Hsc0 Hclosed. rewrite Hst.
    apply lookup_app_l_Some. by apply Hkept.
  - intros h0 sc0 [k Hk]. rewrite Hst, Hc in *. intros Hsc0.
    destruct k as [|k]; simpl in Hk.
    + injection Hk as <-. rewrite list_lookup_middle in Hsc0 by done.
      injection Hsc0 as <-. split; [done|].
      destruct (isVariableScope type) eqn:Hv; [by rewrite Hv1|].
      destruct Hv2 as (c & up & Hcur & Hup' & ->); [done|].
      by apply (frozen_current snap r c up).
    + destruct Hk as (h' & sc' & [= <-] & Hsc' & _ & Hk).
      rewrite list_lookup_middle in Hsc' by done. injection Hsc' as <-.
      rewrite Hup in Hk. destruct (cur r) as [c|] eqn:Hcur.
      * pose proof (wf_cur _ Hwf _ Hcur).
        apply chain_app_l_inv in Hk; [|done..].
        assert (Hlt : h0 < length (store r)).
        { pose proof (chain_le _ _ _ _ _ _ Hwf Hk eq_refl). lia. }
        rewrite lookup_app_l in Hsc0 by done.
        apply Hchain; [|done]. exists k. by rewrite Hcur.
      * destruct k; simpl in Hk; [done|]. by destruct Hk as (? & ? & ? & _).
Qed.

Lemma Respects_close_loop snap fuel node : Respects snap (close_loop fuel node).
Proof.
  induction fuel as [|fuel IH]; [apply Respects_throw|].
  intros r a r' Hrun Hwf Hr.
  destruct (cur r) as [h|] eqn:Hc.
  2:{ rewrite close_loop_None in Hrun by done. by injection Hrun as <- <-. }
  destruct (lookup_lt_is_Some_2 (store r) h) as [sc Hsc]; [by apply Hwf|].
  rewrite (close_loop_step _ _ _ _ _ Hc Hsc) in Hrun.
  destruct (same_node node (Scope.block sc)); [|by injection Hrun as <- <-].
  destruct (frozen_current snap r h sc Hr Hc Hsc) as [Hlive _].
  assert (Hup : updateScope h Scope.__close r
                = Ok tt (set_store (<[h := Scope.__close sc]> (store r)) r)).
  { unfold updateScope. by rewrite Hsc. }
  destruct (frozen_updateScope snap _ _ _ _ _ Monotone_close Hlive Hup Hwf Hr)
    as [Hwf1 (Hlen1 & Hkept1 & Hchain1)].
  eapply IH; [exact Hrun| |].
  - split; [|apply Hwf1..].
    intros c. rewrite cur_set_cur, store_set_cur, store_set_store,
      length_insert.
    intros Hu. pose proof (wf_upper _ Hwf _ _ _ Hsc Hu).
    apply lookup_lt_Some in Hsc. lia.
  - split; [done|]. split; [done|].
    intros h0 sc0 [k Hk]. rewrite store_set_cur, cur_set_cur in *.
    intros Hsc0. apply Hchain1; [|done].
    exists (S k). rewrite cur_set_store, Hc. simpl.
    exists h, (Scope.__close sc). split; [done|].
    rewrite store_set_store.
    by rewrite list_lookup_insert_eq by (by eapply lookup_lt_Some).
Qed.

Lemma Respects_close snap node : Respects snap (close node).
Proof. intros r a r'. unfold close. apply Respects_close_loop. Qed.

Lemma Respects_referencingDefaultValue snap pattern assignments mig init :
  Respects snap (referencingDefaultValue pattern assignments mig init).
Proof.
  apply Respects_forEach. intros a.
  apply Respects_update_current, Monotone_referencing.
Qed.

(** Respect of the closed scopes, by the structure of a computation. *)
Ltac respects :=
  repeat first
    [ apply Respects_ret | apply Respects_throw
    | apply Respects_currentScope_throw | apply Respects_getScope
    | apply Respects_getOptions | apply Respects_assert
    | apply Respects_get_isInnerMethodDefinition
    | apply Respects_pushInnerMethodDefinition
    | apply Respects_popInnerMethodDefinition
    | apply Respects_close | apply Respects_nestScope
    | apply Respects_referencingDefaultValue
    | apply Respects_update_current; solve [auto with walk]
    | apply Respects_update_variableScope; solve [auto with walk]
    | apply Respects_updateScope; [solve [auto with walk]|assumption]
    | apply Respects_bind; [|intros ?]
    | apply Respects_forEach; intros ?
    | apply Respects_forEachIndexed; intros ? ?
    | match goal with
      | H : forall c, Respects _ (?visit c) |- Respects _ (?visit _) =>
          apply H
      | H : forall d c, Respects _ (?visit d c) |- Respects _ (?visit _ _) =>
          apply H
      | |- Respects _ (match ?x with _ => _ end) => destruct x
      end ].

Lemma Respects_Importer_visit snap visit fuel d c :
  Respects snap (Importer_visit visit fuel d c).
Proof.
  revert c. induction fuel as [|fuel IH]; intros c; [apply Respects_throw|].
  cbn [Importer_visit]. unfold Importer_dispatch.
  destruct c; try (by apply Respects_forEach).
  unfold Importer_visitImport, visitPattern_callback, visitPattern,
    traverseIdentifierInPattern, __define. simpl. respects.
Qed.

Lemma Respects_VariableDeclaration `{StrictnessInference} snap
    (visit : Node -> M unit) (n : Node) :
  (forall c, Respects snap (visit c)) ->
  Respects snap (VariableDeclaration visit n).
Proof.
  intros Hvisit. unfold VariableDeclaration.
  destruct n; try apply Respects_throw.
  intros r a r' Hrun Hwf Hr.
  apply bind_Ok in Hrun as (c & ? & [Hc ->]%currentScope_throw_run & Hrun).
  apply bind_Ok in Hrun as (target & r1 & Htarget & Hrun).
  destruct (lookup_lt_is_Some_2 (store r) c) as [sc Hsc]; [by apply Hwf|].
  destruct (frozen_current snap r c sc Hr Hc Hsc) as [Hlc Hlv].
  assert (Hlive : live snap target /\ r1 = r).
  { destruct (String.eqb kind "var").
    - apply bind_Ok in Htarget as (sc' & ? & [Hsc' ->]%getScope_run & Hret).
      apply ret_Ok in Hret as [<- <-]. split; [|done].
      assert (sc' = sc) as -> by congruence. done.
    - by apply ret_Ok in Htarget as [<- <-]. }
  destruct Hlive as [Hlive ->].
  match type of Hrun with
  | ?m r = _ =>
      assert (Hloop : Respects snap m)
        by (unfold visitVariableDeclaration, visitPattern,
              traverseIdentifierInPattern, __define, __referencing;
            respects)
  end.
  by eapply Hloop.
Qed.

Lemma Respects_dispatch `{StrictnessInference} snap (visit : Node -> M unit)
    (Importer_visit : Node -> Node -> M unit) (n : Node) :
  (forall c, Respects snap (visit c)) ->
  (forall d c, Respects snap (Importer_visit d c)) ->
  Respects snap (dispatch visit Importer_visit n).
Proof.
  intros Hvisit HImporter.
  destruct n; cbn [dispatch];
    try (by apply Respects_VariableDeclaration);
    unfold AssignmentExpression, CatchClause, Program, Program_scopes,
      Identifier,
      UpdateExpression, MemberExpression, visitProperty, LabeledStatement,
      ForStatement, visitClass, CallExpression, BlockStatement,
      ThisExpression, WithStatement, SwitchStatement,
      visitFunction, visitForIn, ImportDeclaration, visitExportDeclaration,
      ExportSpecifier, visitChildren, visit_opt, visitPattern_callback,
      visitPattern, traverseIdentifierInPattern, __define, __referencing,
      __nestGlobalScope, __nestModuleScope, __nestFunctionScope,
      __nestFunctionExpressionNameScope, __nestBlockScope, __nestSwitchScope,
      __nestCatchScope, __nestWithScope, __nestClassScope, __nestForScope;
    respects.
Qed.

Lemma visit_Respects `{StrictnessInference} snap (fuel : nat) (n : Node) :
  Respects snap (visit fuel n).
Proof.
  revert n. induction fuel as [|fuel IH]; intros n; [apply Respects_throw|].
  cbn [visit]. apply Respects_dispatch; [done|].
  intros d c. apply Respects_Importer_visit.
Qed.

Lemma chain_openb_from_sound (s : list Scope.t) (fuel : nat) :
  forall from k h sc,
    chain_openb_from s fuel from = true ->
    chain (fun _ => True) s k from (Some h) -> s !! h = Some sc ->
    Scope.closed sc = false /\
    forall vs, s !! Scope.variableScope sc = Some vs ->
               Scope.closed vs = false.
Proof.
  induction fuel as [|fuel IH]; intros from k h sc Hb Hk Hsc.
  - destruct from as [h0|]; [done|].
    destruct k; simpl in Hk; [done|]. by destruct Hk as (? & ? & ? & _).
  - destruct from as [h0|].
    2:{ destruct k; simpl in Hk; [done|]. by destruct Hk as (? & ? & ? & _). }
    cbn [chain_openb_from] in Hb.
    destruct k as [|k]; simpl in Hk.
    + injection Hk as ->. rewrite Hsc in Hb.
      apply andb_true_iff in Hb as [[Hopen Hvs]%andb_true_iff _].
      split; [by apply negb_true_iff|]. intros vs Hvs'.
      rewrite Hvs' in Hvs. by apply negb_true_iff.
    + destruct Hk as (h' & sc' & [= <-] & Hsc' & _ & Hk).
      rewrite Hsc' in Hb. apply andb_true_iff in Hb as [_ Hb].
      by eapply IH.
Qed.

Lemma chain_openb_sound r : chain_openb r = true -> frozen (store r) r.
Proof.
  intros Hb. split; [done|]. split; [done|].
  intros h sc [k Hk] Hsc.
  destruct (chain_openb_from_sound _ _ _ _ _ _ Hb Hk Hsc) as [Hopen Hvs].
  split; [intros sc0 Hsc0; congruence|exact Hvs].
Qed.

(** X17.  Closed scopes are left alone.  In a well-formed store in which
    the current scope, its ancestors and their variable scopes are open,
    whatever a visit does it does to open scopes: every scope that was
    closed before the visit is exactly the same object when the visit
    returns (no binding, reference or mark has been added to it). *)
Theorem visit_leaves_closed_scopes_alone `{StrictnessInference}
    (fuel : nat) (node : Node) (r r' : Referencer) :
  wf r -> chain_openb r = true ->
  visit fuel node r = Ok tt r' ->
  forall h sc,
    store r !! h = Some sc -> Scope.closed sc = true ->
    store r' !! h = Some sc.
Proof.
  intros Hwf Hopen Hrun.
  destruct (visit_Respects (store r) fuel node _ _ _ Hrun Hwf
              (chain_openb_sound r Hopen)) as (_ & _ & Hkept & _).
  exact Hkept.
Qed.

(** X17 at a sample input: a function expression visited after a block of
    the program: the Block scope of the block, closed, stays as it is. *)
Lemma visit_leaves_closed_scopes_alone_witness :
  let r' := run_state (visit (H := sloppy) 6 sample_function_expression)
                      after_block in
  Scope.closed <$> store after_block !! 1 = Some true /\
  store r' !! 1 = store after_block !! 1.
Proof.
  intros r'. split; [reflexivity|].
  destruct (store after_block !! 1) as [sc|] eqn:Hsc; [|discriminate Hsc].
  apply (visit_leaves_closed_scopes_alone (H := sloppy) 6
           sample_function_expression after_block r').
  - by apply wfb_sound.
  - reflexivity.
  - vm_compute. reflexivity.
  - exact Hsc.
  - by injection Hsc as <-.
Defined.

(** ** Loops over a pattern that is no declaration *)

(** [visitForIn] when the left side is no declaration. *)
Lemma visitForIn_pattern `{StrictnessInference} (visit : Node -> M unit)
    (i : nat) (type : TSESTree.ForInType) (lhs rhs body : Node) :
  let node := TSESTree.ForIn i type lhs rhs body in
  isVariableDeclaration lhs = false ->
  visitForIn visit node
  = (ret tt ;;
     visitPattern visit lhs
       {| PatternVisitor.processRightHandNodes := true |}
       (fun pattern info =>
          let* c := currentScope_throw in
          let* sc := getScope c in
          let maybeImplicitGlobal :=
            if negb (Scope.isStrict sc)
            then Some {| rig_pattern := pattern; rig_node := node |}
            else None in
          referencingDefaultValue pattern
            (PatternVisitor.assignments info) maybeImplicitGlobal false ;;
          let* c := currentScope_throw in
          __referencing c
            (Reference.mk pattern ReferenceFlag.WRITE (Some rhs)
                          maybeImplicitGlobal true false)) ;;
     visit rhs ;;
     visit body ;;
     close node).
Proof. intros node Hlhs. by destruct lhs. Qed.

(** X18.  A for-in or for-of statement over a pattern that is no
    declaration ([for (x of xs)], [for ([a = 1] of xs)]), visited in the
    open scope [c] with fuel for the depth of its well-shaped tree, is
    visited to the end.  The scope [c] receives, for each leaf of the
    decomposed pattern in turn, one write reference per default value that
    encloses the leaf and then one write reference whose source is the
    iterated expression: that one is always partial, none of them is an
    initializing write, and every one carries the implicit-global candidate
    exactly when [c] is not strict.  The statement opens no scope of its
    own, and the visit ends with [c] current. *)
Theorem loop_pattern_write_references `{StrictnessInference}
    (depth fuel i : nat) (type : TSESTree.ForInType) (lhs rhs body : Node)
    (r : Referencer) (c : nat) (sc : Scope.t) :
  let node := TSESTree.ForIn i type lhs rhs body in
  distinct_nodes node -> wf r -> cur_ok (ids node) r ->
  cur r = Some c -> store r !! c = Some sc ->
  isVariableDeclaration lhs = false ->
  shaped_within depth (moduleMode r) node = true -> depth < fuel ->
  exists r',
    visit fuel node r = Ok tt r' /\
    (exists more,
       refs r' c
       = Scope.references sc
         ++ loopPatternReferences node lhs rhs (Scope.isStrict sc)
         ++ more) /\
    (forall h s,
       length (store r) <= h -> store r' !! h = Some s ->
       nid (Scope.block s) <> nid node) /\
    cur r' = Some c.
Proof.
  intros node Hn Hwf Hok Hc Hsc Hlhs Hshape Hfuel.
  destruct (visit_returns depth fuel node r c) as [r' Hrun]; try done.
  exists r'. split; [exact Hrun|]. clear Hshape Hfuel.
  pose proof (visit_Bal fuel node Hn _ _ _ Hrun Hwf Hok) as (_ & _ & Hcur').
  destruct fuel as [|fuel]; [done|]. unfold node in Hrun.
  cbn [visit dispatch] in Hrun. rewrite visitForIn_pattern in Hrun by done.
  fold node in Hrun.
  apply bind_Ok in Hrun as ([] & ? & [_ <-]%ret_Ok & Hrun).
  apply bind_Ok in Hrun as ([] & r2 & Hpattern & Hrun).
  unfold visitPattern, traverseIdentifierInPattern in Hpattern.
  cbn [PatternVisitor.processRightHandNodes] in Hpattern.
  apply bind_Ok in Hpattern as ([] & r1 & Hleaves & Hrhn).
  assert (Hrest : (forEach (visit fuel) (PatternVisitor.rightHandNodes lhs) ;;
                   visit fuel rhs ;; visit fuel body) r1 = Ok tt
                  (run_state (forEach (visit fuel)
                                (PatternVisitor.rightHandNodes lhs) ;;
                              visit fuel rhs ;; visit fuel body) r1) /\
                  close node
                    (run_state (forEach (visit fuel)
                                  (PatternVisitor.rightHandNodes lhs) ;;
                                visit fuel rhs ;; visit fuel body) r1)
                  = Ok tt r').
  { apply bind_Ok in Hrun as ([] & r3 & Hrhs & Hrun).
    apply bind_Ok in Hrun as ([] & r4 & Hbody & Hclose).
    unfold run_state, bind. by rewrite Hrhn, Hrhs, Hbody. }
  destruct Hrest as [Hrest Hclose]. clear Hrun Hrhn.
  set (r4 := run_state _ r1) in *.
  destruct (Pure_of_run _ _ _ _ Hleaves Hwf) as (He1 & Hwf1 & Hc1).
  { apply Pure_forEach. intros [pattern info] _. pure. }
  assert (Hbal : Bal (flat_map ids (children node))
                   (forEach (visit fuel) (PatternVisitor.rightHandNodes lhs) ;;
                    visit fuel rhs ;; visit fuel body)).
  { apply Bal_bind.
    - apply Bal_visit_rightHandNodes'; [done|]. apply psub_child. mem.
    - intros _. apply Bal_bind; [|intros _];
        (apply Bal_visit_psub'; [done|apply psub_child; mem]). }
  destruct (Hbal _ _ _ Hrest Hwf1) as (He4 & Hwf4 & Hc4).
  { eapply cur_ok_ext; [exact He1|done..|]. by apply cur_ok_root. }
  apply close_closes_only in Hclose as [Hco _]; [|done].
  eapply (forEach_obs _ (at_scope c (Scope.isStrict sc))
            (fun r => refs r c)
            (fun '(pattern, info) =>
               let maybeImplicitGlobal :=
                 if negb (Scope.isStrict sc)
                 then Some {| rig_pattern := pattern; rig_node := node |}
                 else None in
               defaultValueReferences pattern
                 (PatternVisitor.assignments info) maybeImplicitGlobal false
               ++ [Reference.mk pattern ReferenceFlag.WRITE (Some rhs)
                     maybeImplicitGlobal true false]))
    in Hleaves as [_ Hrefs1].
  - split; [|split; [|congruence]].
    + destruct (ext_refs _ _ _ c He4) as [more Hmore].
      { pose proof (ext_length _ _ _ He1). pose proof (wf_cur _ Hwf _ Hc).
        lia. }
      exists more.
      rewrite (closes_only_refs _ _ _ Hco), Hmore, Hrefs1. unfold refs at 1.
      rewrite Hsc. by rewrite <- app_assoc.
    + intros h s Hh Hs Hb. apply (distinct_root node Hn). rewrite <- Hb.
      destruct Hco as (_ & _ & Hlen & Hsame).
      destruct (lookup_lt_is_Some_2 (store r4) h) as [s4 Hs4].
      { apply lookup_lt_Some in Hs. lia. }
      assert (Scope.block s = Scope.block s4) as ->.
      { destruct (Hsame _ _ Hs4) as [Hs'|Hs']; rewrite Hs' in Hs;
          by injection Hs as <-. }
      apply (ext_new _ _ _ He4 h); [|done].
      destruct (decide (length (store r1) <= h)) as [|Hold]; [done|].
      exfalso. pose proof (ext_new _ _ _ He1 h) as Hnew.
      destruct (lookup_lt_is_Some_2 (store r1) h) as [s1 Hs1]; [lia|].
      by apply (elem_of_nil (nid (Scope.block s1))), Hnew.
  - intros [pattern info] ra rb _ Hat Hcb. inv_run Hcb.
    apply currentScope_throw_run in Hcb0 as [Hca ->].
    apply getScope_run in Hcb1 as [Hsca ->].
    destruct Hat as [Hat1 Hat2].
    rewrite Hat1 in Hca. injection Hca as <-.
    pose proof Hat2 as Hstrict. unfold strictAt in Hstrict.
    rewrite Hsca in Hstrict. injection Hstrict as Hstrict.
    rewrite Hstrict in *.
    destruct (referencingDefaultValue_obs _ _ _ _ c (Scope.isStrict sc)
                _ _ (conj Hat1 Hat2) Hcb2) as [[Hat1' Hat2'] Hr'].
    apply currentScope_throw_run in Hcb3 as [Hcb3 ->].
    rewrite Hat1' in Hcb3. injection Hcb3 as <-.
    apply referencing_obs in Hcb as (Hc' & Hr & _ & Hs).
    split; [split; congruence|].
    rewrite Hr, Hr', decide_True by done. by rewrite <- app_assoc.
  - split; [done|]. unfold strictAt. by rewrite Hsc.
Qed.

(** X18 at a sample input: [for ([a = 1] of xs) { }] in the global scope of
    a script. *)
Lemma loop_pattern_write_references_witness :
  exists r',
    visit (H := sloppy) 5 sample_for_of_pattern in_global_scope = Ok tt r' /\
    exists more,
      refs r' 0
      = loopPatternReferences sample_for_of_pattern sample_assignment_target
          (TSESTree.Identifier 7 "xs") false
        ++ more.
Proof.
  destruct (loop_pattern_write_references (H := sloppy) 4 5 1
              TSESTree.ForOfStatement sample_assignment_target
              (TSESTree.Identifier 7 "xs") (TSESTree.BlockStatement 8 [])
              in_global_scope 0 sample_global_scope)
    as (r' & Hrun & Hrefs & _).
  - by apply distinct_nodesb_sound.
  - by apply wfb_sound.
  - by apply cur_okb_sound.
  - reflexivity.
  - reflexivity.
  - reflexivity.
  - reflexivity.
  - lia.
  - exists r'. split; [exact Hrun|exact Hrefs].
Defined.

(** ** Member accesses *)

(** X19.  Property names are no references.  The visit of a chain of member
    accesses that are not computed ([a.b.c]) is the visit of the object at
    its root: the properties are not visited.  When the root is a name, the
    open scope [c] receives exactly one reference, a read reference to that
    name, and nothing else changes. *)
Theorem member_chain_references `{StrictnessInference} (fuel : nat)
    (object : Node) (props : list (nat * Node)) (r : Referencer) :
  visit (length props + fuel) (memberChain object props) r
  = visit fuel object r /\
  (forall j name c,
     object = TSESTree.Identifier j name ->
     cur r = Some c -> c < length (store r) ->
     exists r',
       visit (length props + S fuel) (memberChain object props) r
       = Ok tt r' /\
       refs r' c = refs r c ++ [readReference object] /\
       (forall h, h <> c -> refs r' h = refs r h) /\
       (forall h, defs r' h = defs r h) /\
       cur r' = Some c /\ length (store r') = length (store r)).
Proof.
  assert (Hchain : forall props object fuel,
            visit (length props + fuel) (memberChain object props) r
            = visit fuel object r).
  { clear. intros props.
    induction props as [|[i property] props IH]; intros object fuel;
      [done|].
    cbn [memberChain length].
    replace (S (length props) + fuel) with (length props + S fuel) by lia.
    rewrite IH.
    cbn [visit dispatch]. unfold MemberExpression. apply bind_ret_tt. }
  split; [apply Hchain|].
  intros j name c -> Hc Hlt. rewrite Hchain.
  destruct (referencing_current (readReference (TSESTree.Identifier j name))
              r c Hc Hlt) as (r' & Hrun & Hr & Hd & Hc' & Hl').
  exists r'. split; [exact Hrun|].
  split; [by rewrite Hr, decide_True|]. split; [|done].
  intros h Hh. by rewrite Hr, decide_False, app_nil_r.
Qed.

(** X19 at a sample input: [a.b.c] in the global scope of a script. *)
Lemma member_chain_references_witness :
  exists r',
    visit (H := sloppy) 3
          (memberChain (TSESTree.Identifier 1 "a")
             [(2, TSESTree.Identifier 3 "b"); (4, TSESTree.Identifier 5 "c")])
          in_global_scope = Ok tt r' /\
    refs r' 0 = [readReference (TSESTree.Identifier 1 "a")].
Proof.
  destruct (proj2 (member_chain_references (H := sloppy) 0
                     (TSESTree.Identifier 1 "a")
                     [(2, TSESTree.Identifier 3 "b");
                      (4, TSESTree.Identifier 5 "c")] in_global_scope)
              1 "a" 0)
    as (r' & Hrun & Hrefs & _).
  - reflexivity.
  - reflexivity.
  - simpl. lia.
  - exists r'. split; [exact Hrun|exact Hrefs].
Defined.

(** ** The references of a variable declaration *)

(** The declarators of a variable declaration, from the index
    [length pre] on, visited in the open scope [c]. *)
Lemma VariableDeclaration_refs_loop `{StrictnessInference} (fuel j : nat)
    (kind : string) (declarations : list Node) (target c : nat) (b : bool) :
  let node := TSESTree.VariableDeclaration j kind declarations in
  distinct_nodes node ->
  forall xs pre r r',
    declarations = pre ++ xs ->
    forEachIndexed
      (fun i decl =>
         visitVariableDeclaration (visit fuel) target VariableType.Variable_
                                  node i ;;
         match decl with
         | TSESTree.VariableDeclarator _ _ (Some init) => visit fuel init
         | _ => ret tt
         end)
      (length pre) xs r = Ok tt r' ->
    wf r -> cur_ok (flat_map ids (children node)) r ->
    at_scope c b r ->
    exists added,
      refs r' c = refs r c ++ added /\
      variableReferences xs `sublist_of` added /\
      cur r' = Some c.
Proof.
  intros node Hn xs.
  induction xs as [|x xs IH]; intros pre r r' Hdecl Hrun Hwf Hok Hat.
  - apply ret_Ok in Hrun as [_ <-]. exists []. rewrite app_nil_r.
    split; [done|]. split; [done|apply Hat].
  - cbn [forEachIndexed] in Hrun.
    apply bind_Ok in Hrun as ([] & r3 & Hx & Hrun).
    apply bind_Ok in Hx as ([] & r2 & Hvisit & Hinit).
    unfold visitVariableDeclaration, node in Hvisit.
    cbv beta iota in Hvisit. fold node in Hvisit.
    assert (Hlook : declarations !! length pre = Some x).
    { by rewrite Hdecl, list_lookup_middle. }
    rewrite Hlook in Hvisit.
    assert (Hxin : x ∈ children node).
    { simpl. rewrite Hdecl. apply elem_of_app. right. by left. }
    destruct x as [| | | | | |d id init| | | | | | | | | | | | | | | | | |
                   | | | | | | |]; try done.
    unfold visitPattern, traverseIdentifierInPattern in Hvisit.
    cbn [PatternVisitor.processRightHandNodes] in Hvisit.
    apply bind_Ok in Hvisit as ([] & r1 & Hleaves & Hrhn).
    set (decl := TSESTree.VariableDeclarator d id init) in *.
    assert (Hid : psub id node).
    { eapply psub_trans; [|by apply psub_child]. apply psub_child. mem. }
    (* the leaves of the pattern *)
    destruct (Pure_of_run _ _ _ _ Hleaves Hwf) as (He1 & Hwf1 & Hc1).
    { apply Pure_forEach. intros [pattern info] _. pure. }
    eapply (forEach_obs _ (at_scope c b) (fun r => refs r c)
              (fun '(pattern, info) =>
                 defaultValueReferences pattern
                   (PatternVisitor.assignments info) None true
                 ++ match init with
                    | Some init =>
                        [Reference.mk pattern ReferenceFlag.WRITE (Some init)
                           None (negb (PatternVisitor.topLevel info)) true]
                    | None => []
                    end))
      in Hleaves as [Hat1 Hrefs1]; [| |done].
    2:{ intros [pattern info] ra rb _ Hata Hcb.
        apply bind_Ok in Hcb as ([] & rc & Hdef & Hcb).
        apply bind_Ok in Hcb as ([] & rd & Hdv & Hcb).
        apply define_obs in Hdef as (Hcc & _ & Hrc & Hsc).
        assert (Hatc : at_scope c b rc).
        { destruct Hata as [Ha1 Ha2]. split; [congruence|].
          by rewrite Hsc. }
        destruct (referencingDefaultValue_obs _ _ _ _ c b _ _ Hatc Hdv)
          as [[Hd1 Hd2] Hrd].
        rewrite Hrc in Hrd.
        destruct init as [init|].
        - apply bind_Ok in Hcb
            as (c' & ? & [Hc' ->]%currentScope_throw_run & Hcb).
          rewrite Hd1 in Hc'. injection Hc' as <-.
          apply referencing_obs in Hcb as (Hcb1 & Hrb & _ & Hsb).
          split; [split; [congruence|by rewrite Hsb]|].
          rewrite Hrb, Hrd, decide_True by done. by rewrite <- app_assoc.
        - apply ret_Ok in Hcb as [_ <-]. split; [done|].
          by rewrite Hrd, app_nil_r. }
    (* the right-hand nodes of the pattern, and the initializer *)
    assert (Hok1 : cur_ok (flat_map ids (children node)) r1)
      by (by eapply cur_ok_ext).
    destruct (Bal_visit_rightHandNodes' fuel node id Hn Hid
                _ _ _ Hrhn Hwf1 Hok1) as (He2 & Hwf2 & Hc2).
    assert (Hok2 : cur_ok (flat_map ids (children node)) r2)
      by (by eapply cur_ok_ext).
    assert (Hinit' : ext (flat_map ids (children node)) r2 r3 /\ wf r3 /\
                     cur r3 = cur r2).
    { destruct init as [init|].
      - eapply (Bal_visit_psub' fuel node init); try done.
        eapply psub_trans; [|by apply psub_child]. apply psub_child. mem.
      - apply ret_Ok in Hinit as [_ <-]. eauto using ext_refl. }
    destruct Hinit' as (He3 & Hwf3 & Hc3).
    assert (He13 : ext (flat_map ids (children node)) r1 r3)
      by (by eapply ext_trans).
    assert (Hlt1 : c < length (store r1)).
    { apply Hwf1. destruct Hat1 as [-> _]. done. }
    (* the declarators that follow *)
    destruct (IH (pre ++ [decl]) r3 r') as (added & Hadded & Hsub & Hc').
    { by rewrite <- app_assoc. }
    { rewrite length_app. simpl. by rewrite Nat.add_1_r. }
    { done. }
    { eapply cur_ok_ext; [exact He3|done..]. }
    { destruct Hat1 as [Ha1 Ha2]. split; [congruence|].
      unfold strictAt in *.
      destruct (store r1 !! c) as [s1|] eqn:Hs1; [|done].
      assert (Hk : keeps r1 r3).
      { eapply keeps_trans.
        - exact (Stable_forEach _ _ (visit_Stable fuel) _ _ _ Hrhn).
        - destruct init as [init|]; [by eapply visit_Stable|].
          apply ret_Ok in Hinit as [_ <-]. apply keeps_refl. }
      destruct (keeps_scopes _ _ Hk _ _ Hs1) as (s3 & Hs3 & Hkept).
      rewrite Hs3. simpl in *. by rewrite <- (kept_isStrict _ _ Hkept). }
    destruct (ext_refs _ _ _ c He13) as [more Hmore]; [done|].
    eexists. split; [|split; [|done]].
    + rewrite Hadded, Hmore, Hrefs1, <- !app_assoc. reflexivity.
    + cbn [variableReferences]. apply sublist_app; [done|].
      by apply sublist_inserts_l.
Qed.

(** X20.  The references of a variable declaration.  A variable declaration
    visited in the open scope [c], with fuel for the depth of its
    well-shaped tree, is visited to the end.  Whatever scope receives the
    bindings, the references are recorded in [c] itself: for each leaf of
    the pattern of each declarator, in order, one initializing write
    reference per default value that encloses the leaf and then, when the
    declarator has an initializer, one initializing write reference whose
    source is the initializer, partial unless the leaf is the whole pattern.
    A declarator without initializer records no write of its own.  None of
    these references carries an implicit-global candidate. *)
Theorem variable_declaration_references `{StrictnessInference}
    (depth fuel j : nat) (kind : string) (declarations : list Node)
    (r : Referencer) (c : nat) (sc : Scope.t) :
  let node := TSESTree.VariableDeclaration j kind declarations in
  distinct_nodes node -> wf r -> cur_ok (ids node) r ->
  cur r = Some c -> store r !! c = Some sc ->
  shaped_within depth (moduleMode r) node = true -> depth < fuel ->
  exists r',
    visit fuel node r = Ok tt r' /\
    (exists added,
       refs r' c = refs r c ++ added /\
       variableReferences declarations `sublist_of` added) /\
    cur r' = Some c.
Proof.
  intros node Hn Hwf Hok Hc Hsc Hshape Hfuel.
  destruct (visit_returns depth fuel node r c) as [r' Hrun]; try done.
  exists r'. split; [exact Hrun|]. clear Hshape Hfuel.
  destruct fuel as [|fuel]; [done|]. unfold node in Hrun.
  cbn [visit dispatch] in Hrun. unfold VariableDeclaration in Hrun.
  fold node in Hrun.
  apply bind_Ok in Hrun as (c' & ? & [Hc' ->]%currentScope_throw_run & Hrun).
  apply bind_Ok in Hrun as (target & r1 & Htarget & Hrun).
  assert (r1 = r) as ->.
  { destruct (String.eqb kind "var").
    - apply bind_Ok in Htarget as (sc' & ? & [Hsc' ->]%getScope_run & Hret).
      by apply ret_Ok in Hret as [_ <-].
    - by apply ret_Ok in Htarget as [_ <-]. }
  destruct (VariableDeclaration_refs_loop fuel j kind declarations target c
              (Scope.isStrict sc) Hn declarations [] r r' eq_refl Hrun Hwf)
    as (added & Hadded & Hsub & Hcur').
  - by apply cur_ok_root.
  - split; [done|]. unfold strictAt. by rewrite Hsc.
  - split; [by exists added|done].
Qed.

(** X20 at a sample input: [var {a = f, b: [c = 1]} = obj] inside a block:
    the references are recorded in the Block scope [1], while the bindings
    go to the global scope. *)
Lemma variable_declaration_references_witness :
  exists r',
    visit (H := sloppy) 8 sample_var_declaration in_block_scope = Ok tt r' /\
    (exists added,
       refs r' 1 = refs in_block_scope 1 ++ added /\
       variableReferences sample_declarators `sublist_of` added).
Proof.
  destruct (variable_declaration_references (H := sloppy) 7 8 10 "var"
              sample_declarators in_block_scope 1 sample_block_scope)
    as (r' & Hrun & (added & Hrefs & Hsub) & _).
  - by apply distinct_nodesb_sound.
  - by apply wfb_sound.
  - by apply cur_okb_sound.
  - reflexivity.
  - reflexivity.
  - reflexivity.
  - lia.
  - exists r'. split; [exact Hrun|]. by exists added.
Defined.

(** ** The program under the Node.js hint *)

(** What has grown out of a state keeps the scopes of that state as they
    are. *)
Lemma grown_lookup r0 r h sc :
  grown r0 r -> store r0 !! h = Some sc -> store r !! h = Some sc.
Proof.
  intros (_ & _ & [news Hst] & _) Hsc. rewrite Hst.
  by apply lookup_app_l_Some.
Qed.

(** X21.  The global scope under the Node.js hint.  When the analysis
    wraps the program in an implicit function scope, the visit of a program
    of distinct, well-shaped nodes, with fuel for its depth, returns; the
    Global scope of the program, the first scope created, is not strict when
    the visit returns, whatever the strictness that the scope was created
    with and whatever the other hints say; and the second scope created is
    the Function scope of the program, right under the Global scope. *)
Theorem nodejs_global_scope_is_sloppy `{StrictnessInference}
    (depth fuel i : nat) (body : list Node) (r : Referencer) :
  let node := TSESTree.Program i body in
  distinct_nodes node -> wf r ->
  __isNodejsScope (options (scopeManager r)) = true ->
  shaped_within depth (moduleMode r) node = true -> S depth < fuel ->
  exists r' g f,
    visit fuel node r = Ok tt r' /\
    store r' !! length (store r) = Some g /\
    Scope.type g = GlobalScope /\ Scope.block g = node /\
    Scope.isStrict g = false /\
    store r' !! S (length (store r)) = Some f /\
    Scope.type f = FunctionScope /\ Scope.block f = node /\
    Scope.upper f = Some (length (store r)).
Proof.
  intros node Hn Hwf Hnodejs Hshape Hfuel.
  destruct (program_returns depth fuel i body r) as [r' Hrun]; try done.
  fold node in Hrun. pose proof Hrun as Hwhole.
  destruct fuel as [|fuel]; [lia|]. unfold node in Hrun.
  cbn [visit dispatch] in Hrun. fold node in Hrun. unfold Program in Hrun.
  apply bind_Ok in Hrun as ([] & r4 & Hscopes & Hrun).
  assert (Hk : keeps r4 r').
  { pose proof (visit_Stable fuel) as Hvisit.
    match type of Hrun with
    | ?m r4 = _ =>
        assert (Hrest : Stable m) by (unfold visitChildren; stable)
    end.
    by eapply Hrest. }
  unfold Program_scopes in Hscopes.
  apply bind_Ok in Hscopes as (opts & ? & [-> ->]%getOptions_run & Hscopes).
  rewrite Hnodejs in Hscopes.
  apply bind_Ok in Hscopes as ([] & r1 & Hglobal & Hscopes).
  apply bind_Ok in Hscopes as ([] & r2 & Hfunction & Hscopes).
  apply bind_Ok in Hfunction as ([] & r1' & Hsloppy & Hfunction).
  apply bind_Ok in Hscopes as ([] & r3 & Hmodule & Hstrict).
  unfold __nestGlobalScope in Hglobal.
  destruct (nestScope_step _ _ _ _ _ _ _ Hglobal Hwf)
    as (Hwf1 & Hc1 & Hl1 & _ & g & Hg & Htyg & Hbg & _).
  apply bind_Ok in Hsloppy
    as (c & ? & [Hc ->]%currentScope_throw_run & Hsloppy).
  rewrite Hc1 in Hc. injection Hc as <-.
  pose proof (Pure_updateScope _ _ (Monotone_set_isStrict false)
                _ _ _ Hsloppy Hwf1) as (_ & Hwf1' & Hc1').
  assert (Hl1' : length (store r1') = S (length (store r))).
  { pose proof Hsloppy as (sc0 & _ & ->)%updateScope_run.
    by rewrite store_set_store, length_insert. }
  apply updateScope_obs in Hsloppy as (_ & _ & Hst1').
  assert (Hg' : store r1' !! length (store r)
                = Some (Scope.set_isStrict false g)).
  { by rewrite Hst1', decide_True, Hg. }
  unfold __nestFunctionScope in Hfunction.
  destruct (nestScope_step _ _ _ _ _ _ _ Hfunction Hwf1')
    as (Hwf2 & Hc2 & Hl2 & _ & f & Hf & Htyf & Hbf & Hupf & _).
  rewrite Hl1' in Hf. rewrite Hc1', Hc1 in Hupf.
  assert (Hgrown2 : grown r1' r2).
  { eapply grown_nestScope; [by left|exact Hfunction]. }
  assert (Hgrown3 : grown r1' r3).
  { destruct (__isES6 _ && isModule _).
    - eapply grown_nestScope; [by right|exact Hmodule].
    - by apply ret_Ok in Hmodule as [_ <-]. }
  assert (Hgrown4 : grown r1' r4).
  { destruct (isStrictModeSupported _ && isImpliedStrict _).
    - by eapply grown_updateScope_current.
    - by apply ret_Ok in Hstrict as [_ <-]. }
  destruct (keeps_scopes _ _ Hk _ _ (grown_lookup _ _ _ _ Hgrown4 Hg'))
    as (g' & Hg4 & [Hleg _ Hsg _ _ _]).
  assert (H3 : wf r3 /\ ext [nid node] r2 r3).
  { destruct (__isES6 _ && isModule _).
    - unfold __nestModuleScope in Hmodule.
      by destruct (nestScope_step _ _ _ _ _ _ _ Hmodule Hwf2)
        as (? & _ & _ & ? & _).
    - apply ret_Ok in Hmodule as [_ <-]. split; [done|apply ext_refl]. }
  destruct H3 as [Hwf3 He3].
  assert (He4 : ext [] r3 r4).
  { destruct (isStrictModeSupported _ && isImpliedStrict _).
    - eapply (Pure_of_run _ _ _ _ Hstrict Hwf3). pure.
    - apply ret_Ok in Hstrict as [_ <-]. apply ext_refl. }
  destruct (ext_old _ _ _ He3 _ _ Hf) as (f3 & Hf3 & Hle3).
  destruct (ext_old _ _ _ He4 _ _ Hf3) as (f4 & Hf4 & Hle4).
  destruct (keeps_scopes _ _ Hk _ _ Hf4) as (f' & Hf' & [Hlef _ _ _ _ _]).
  exists r', g', f'. split; [exact Hwhole|]. split; [exact Hg4|].
  rewrite <- (le_type _ _ Hleg), <- (le_block _ _ Hleg), <- Hsg.
  split; [exact Htyg|]. split; [exact Hbg|]. split; [done|].
  split; [exact Hf'|].
  rewrite <- (le_type _ _ Hlef), <- (le_block _ _ Hlef),
    <- (le_upper _ _ Hlef), <- (le_type _ _ Hle4), <- (le_block _ _ Hle4),
    <- (le_upper _ _ Hle4), <- (le_type _ _ Hle3), <- (le_block _ _ Hle3),
    <- (le_upper _ _ Hle3).
  done.
Qed.

(** X21 at a sample input: an empty program analysed for Node.js with the
    hint that the program is already strict. *)
Lemma nodejs_global_scope_is_sloppy_witness :
  exists r' g,
    visit (H := sloppy) 3 sample_program
          (fresh_referencer (nodejs_options true)) = Ok tt r' /\
    store r' !! 0 = Some g /\ Scope.type g = GlobalScope /\
    Scope.isStrict g = false.
Proof.
  destruct (nodejs_global_scope_is_sloppy (H := sloppy) 1 3 1 []
              (fresh_referencer (nodejs_options true)))
    as (r' & g & f & Hrun & Hg & Hty & _ & Hstrict & _).
  - by apply distinct_nodesb_sound.
  - by apply wfb_sound.
  - reflexivity.
  - reflexivity.
  - lia.
  - exists r', g. split; [exact Hrun|]. split; [exact Hg|].
    split; [exact Hty|exact Hstrict].
Defined.
